(** * Istanbul Metro route service: a shallow embedding of
      [backend/metro_service.py]

    The service keeps a networkx graph of stations, built once from the
    catalog of lines, and answers three queries on it: shortest route,
    lookup by id, search by name.

    Conventions of the embedding.
    - Python [str] is a list of Unicode code points.
    - Python [float] is an abstract type [F] with the operations the
      service uses (class [FloatOps]) and the functions it takes from the
      [math] module (class [MathOps]).  Two instances are given: exact
      rationals, on which the route planner runs, and the real numbers,
      on which the haversine formula is studied.
    - Python [dict] is an insertion-ordered association list ([odict]).
    - Exceptions are values of [exn]; code that can raise lives in the
      error monad [result]. *)

From Stdlib Require Import List ZArith NArith QArith Bool Lia.
From Stdlib Require Import Ascii String.
From Stdlib Require Import Reals Lra Psatz.
Import ListNotations.

Local Open Scope Z_scope.

(* ------------------------------------------------------------------ *)
(** ** Exceptions and the error monad *)

Inductive exn : Type :=
| ValueError        (* float() of a bad string, math domain error *)
| KeyError          (* missing dict key *)
| TypeError         (* subscripting None *)
| NodeNotFound      (* networkx: source or target not in G *)
| NetworkXNoPath.   (* networkx: target not reachable *)

Inductive result (A : Type) : Type :=
| Ok (a : A)
| Raise (e : exn).
Arguments Ok {A} a.
Arguments Raise {A} e.

Definition bind {A B} (m : result A) (k : A -> result B) : result B :=
  match m with
  | Ok a => k a
  | Raise e => Raise e
  end.

Notation "x <- m ;; k" := (bind m (fun x => k))
  (at level 61, m at next level, right associativity).

(** [o] or raise [e]. *)
Definition or_raise {A} (e : exn) (o : option A) : result A :=
  match o with
  | Some a => Ok a
  | None => Raise e
  end.

(* ------------------------------------------------------------------ *)
(** ** Strings *)

(** A Python string: its code points. *)
Definition pystr := list N.

(** The code points of an ASCII literal. *)
Definition str (s : string) : pystr :=
  map N_of_ascii (list_ascii_of_string s).

Definition in_range (lo hi c : N) : bool := ((lo <=? c) && (c <=? hi))%N.

(** [str.upper()] on one code point.  The table covers ASCII, the
    Latin-1 letters and the letters of the Turkish alphabet; Python maps
    a code point to one or more code points (sharp s becomes SS).  Code
    points outside the table are left as they are. *)
Definition upper_cp (c : N) : list N :=
  (if in_range 97 122 c then [c - 32]                    (* a-z *)
  else if (c =? 181)%N then [924]                        (* micro sign *)
  else if (c =? 223)%N then [83; 83]                     (* sharp s *)
  else if (c =? 247)%N then [c]                          (* division sign *)
  else if in_range 224 254 c then [c - 32]               (* a-grave .. thorn *)
  else if (c =? 255)%N then [376]                        (* y-diaeresis *)
  else if (c =? 287)%N then [286]                        (* g-breve *)
  else if (c =? 305)%N then [73]                         (* dotless i -> I *)
  else if (c =? 351)%N then [350]                        (* s-cedilla *)
  else [c])%N.

(** [str.lower()] on one code point, same table.  Capital I with dot
    above (U+0130) becomes i followed by the combining dot U+0307. *)
Definition lower_cp (c : N) : list N :=
  (if in_range 65 90 c then [c + 32]                     (* A-Z *)
  else if (c =? 215)%N then [c]                          (* multiplication sign *)
  else if in_range 192 222 c then [c + 32]               (* A-grave .. Thorn *)
  else if (c =? 286)%N then [287]
  else if (c =? 304)%N then [105; 775]                   (* I-dot -> i, U+0307 *)
  else if (c =? 350)%N then [351]
  else if (c =? 376)%N then [255]
  else [c])%N.

Definition upper (s : pystr) : pystr := flat_map upper_cp s.
Definition lower (s : pystr) : pystr := flat_map lower_cp s.

Fixpoint starts_with (p s : pystr) : bool :=
  match p, s with
  | [], _ => true
  | _ :: _, [] => false
  | a :: p', b :: s' => (a =? b)%N && starts_with p' s'
  end.

(** [q in s] for strings: [q] occurs in [s] as a substring. *)
Fixpoint str_in (q s : pystr) : bool :=
  starts_with q s ||
  match s with
  | [] => false
  | _ :: s' => str_in q s'
  end.

Definition is_ascii (s : pystr) : bool := forallb (fun c => (c <? 128)%N) s.

(* ------------------------------------------------------------------ *)
(** ** Floats *)

(** The float operations of the service.  [of_int] is the conversion
    Python applies when an int meets a float; [fpow x n] is [x ** n];
    [fround x n] is [round(x, n)]; [float_of_str] is [float(s)] on a
    string, [None] standing for its ValueError.  The service divides by
    the constants 2 and 40 only, so [fdiv] has no ZeroDivisionError. *)
Class FloatOps (F : Type) : Type := {
  of_int : Z -> F;
  fadd : F -> F -> F;
  fsub : F -> F -> F;
  fmul : F -> F -> F;
  fdiv : F -> F -> F;
  fpow : F -> Z -> F;
  flt : F -> F -> bool;
  fround : F -> Z -> F;
  float_of_str : pystr -> option F
}.

(** What the service takes from the [math] module.  [None] is the
    ValueError ("math domain error") that [math.sin], [math.cos],
    [math.sqrt] and [math.asin] raise outside their domain. *)
Class MathOps (F : Type) : Type := {
  radians : F -> F;
  m_sin : F -> option F;
  m_cos : F -> option F;
  m_sqrt : F -> option F;
  m_asin : F -> option F
}.

(** [x <= y], as the negation of [y < x]. *)
Definition fle {F} `{FloatOps F} (x y : F) : bool := negb (flt y x).

(** The order and addition laws the shortest-path search relies on.
    Neither associativity nor commutativity of [fadd] is asked for. *)
Record FloatOrder (F : Type) `{FloatOps F} : Prop := {
  fle_total : forall x y : F, fle x y = true \/ fle y x = true;
  fle_trans : forall x y z : F, fle x y = true -> fle y z = true -> fle x z = true;
  fadd_mono : forall x y w : F, fle x y = true -> fle (fadd x w) (fadd y w) = true;
  fadd_infl : forall x w : F, fle (of_int 0) w = true -> fle x (fadd x w) = true
}.

(** A Python number that is an int or a float: the running totals of a
    route start as the int 0 and become floats with the first leg. *)
Inductive num (F : Type) : Type :=
| PyInt (z : Z)
| PyFloat (x : F).
Arguments PyInt {F} z.
Arguments PyFloat {F} x.

(* ------------------------------------------------------------------ *)
(** ** Insertion-ordered dictionaries with integer keys *)

Section ODict.
Context {V : Type}.

Definition odict := list (Z * V).

Fixpoint od_get (k : Z) (d : odict) : option V :=
  match d with
  | [] => None
  | (k', v) :: d' => if k =? k' then Some v else od_get k d'
  end.

Definition od_mem (k : Z) (d : odict) : bool :=
  match od_get k d with
  | Some _ => true
  | None => false
  end.

(** [d[k] = v]: an existing key keeps its place, a new one goes last. *)
Fixpoint od_set (k : Z) (v : V) (d : odict) : odict :=
  match d with
  | [] => [(k, v)]
  | (k', v') :: d' =>
      if k =? k' then (k, v) :: d' else (k', v') :: od_set k v d'
  end.

(** [d.keys()], in insertion order. *)
Definition od_keys (d : odict) : list Z := map fst d.

End ODict.
Arguments odict V : clear implicits.

Definition mem (x : Z) (l : list Z) : bool := existsb (Z.eqb x) l.

Fixpoint nodupb (l : list Z) : bool :=
  match l with
  | [] => true
  | x :: l' => negb (mem x l') && nodupb l'
  end.

(* ------------------------------------------------------------------ *)
(** ** The graph: [networkx.Graph] as the service uses it *)

Section Service.
Context {F : Type} {PF : FloatOps F}.

(** The attributes [build_graph] gives a node. *)
Record node_attrs : Type := {
  pos : F * F;            (* (lng, lat) *)
  name : pystr;
  line : pystr;
  order : Z
}.

(** The attributes [build_graph] gives an edge. *)
Record edge_attrs : Type := {
  weight : F;
  edge_line : pystr
}.

(** [G._node] maps a node to its attribute dict ([None]: the empty dict
    of a node that [add_edge] created), [G._adj] maps a node to the dict
    of its neighbours. *)
Record Graph : Type := {
  _node : odict (option node_attrs);
  _adj : odict (odict edge_attrs)
}.

Definition empty_graph : Graph := {| _node := []; _adj := [] |}.

(** [n in G]. *)
Definition has_node (G : Graph) (n : Z) : bool := od_mem n (_node G).

(** [G._adj[n]], the neighbour dict of [n]. *)
Definition neighbors (G : Graph) (n : Z) : odict edge_attrs :=
  match od_get n (_adj G) with
  | Some d => d
  | None => []
  end.

(** [G.add_node(n, pos=.., name=.., line=.., order=..)]: a new node gets
    an empty neighbour dict; an old one has its attributes updated, and
    as all four are given they are all overwritten. *)
Definition add_node (G : Graph) (n : Z) (a : node_attrs) : Graph :=
  if has_node G n
  then {| _node := od_set n (Some a) (_node G); _adj := _adj G |}
  else {| _node := od_set n (Some a) (_node G); _adj := od_set n [] (_adj G) |}.

(** The start of [add_edge]: an endpoint that is not yet a node becomes
    one, with no attributes. *)
Definition ensure_node (G : Graph) (n : Z) : Graph :=
  if has_node G n then G
  else {| _node := od_set n None (_node G); _adj := od_set n [] (_adj G) |}.

(** [G.add_edge(u, v, weight=.., line=..)]: the edge's attribute dict is
    updated (both attributes overwritten) and stored under [u][v] and
    [v][u]. *)
Definition add_edge (G : Graph) (u v : Z) (e : edge_attrs) : Graph :=
  let G1 := ensure_node (ensure_node G u) v in
  let adj1 := od_set u (od_set v e (neighbors G1 u)) (_adj G1) in
  let nbrs_v := match od_get v adj1 with Some d => d | None => [] end in
  {| _node := _node G1; _adj := od_set v (od_set u e nbrs_v) adj1 |}.

(** [G.get_edge_data(u, v)]: [None] when there is no such edge. *)
Definition get_edge_data (G : Graph) (u v : Z) : option edge_attrs :=
  od_get v (neighbors G u).

(** [G.nodes[n]]: KeyError when [n] is not a node. *)
Definition nodes_getitem (G : Graph) (n : Z) : result (option node_attrs) :=
  or_raise KeyError (od_get n (_node G)).

(** [G.nodes[n][..]] for the attributes the service reads: KeyError when
    the node has none. *)
Definition node_data (G : Graph) (n : Z) : result node_attrs :=
  d <- nodes_getitem G n ;; or_raise KeyError d.

(* ------------------------------------------------------------------ *)
(** ** Weighted shortest path: [nx.shortest_path(G, source, target, weight)]

    networkx is a dependency of the service: its code is not part of the
    repository.  The search is written here as Dijkstra's algorithm in
    the shape networkx gives it: a table [seen] of tentative distances,
    each with the path that realises it ([paths[u] = paths[v] + [u]]),
    nodes finalised in order of distance, a neighbour relaxed when it is
    new or strictly closer.  The nodes not yet finalised are kept as a
    list. *)

Record entry : Type := {
  e_dist : F;
  e_path : list Z
}.

(** The closest entry of [seen] whose node is still in [unvisited]; the
    earliest inserted among equals. *)
Fixpoint pop_min (unvisited : list Z) (seen : odict entry) : option (Z * entry) :=
  match seen with
  | [] => None
  | (u, en) :: rest =>
      let r := pop_min unvisited rest in
      if mem u unvisited then
        match r with
        | Some (_, en') => if flt (e_dist en') (e_dist en) then r else Some (u, en)
        | None => Some (u, en)
        end
      else r
  end.

(** Relax the neighbours [nbrs] of a node finalised at distance [d] with
    path [p]. *)
Fixpoint relax (d : F) (p : list Z) (unvisited : list Z)
         (nbrs : odict edge_attrs) (seen : odict entry) : odict entry :=
  match nbrs with
  | [] => seen
  | (u, e) :: rest =>
      let vu_dist := fadd d (weight e) in
      let new := {| e_dist := vu_dist; e_path := p ++ [u] |} in
      let seen' :=
        if negb (mem u unvisited) then seen
        else match od_get u seen with
             | None => od_set u new seen
             | Some old => if flt vu_dist (e_dist old) then od_set u new seen else seen
             end in
      relax d p unvisited rest seen'
  end.

(** The main loop: finalise the closest candidate and relax its
    neighbours, until no candidate is left.  Each round takes one node
    out of [unvisited], so as many rounds as there are nodes suffice. *)
Fixpoint dijkstra_loop (fuel : nat) (G : Graph) (unvisited : list Z)
         (seen : odict entry) : odict entry :=
  match fuel with
  | O => seen
  | S fuel' =>
      match pop_min unvisited seen with
      | None => seen
      | Some (v, en) =>
          let unvisited' := remove Z.eq_dec v unvisited in
          dijkstra_loop fuel' G unvisited'
            (relax (e_dist en) (e_path en) unvisited' (neighbors G v) seen)
      end
  end.

(** The table of the search from [source]: [seen = {source: 0}],
    [paths = {source: [source]}]. *)
Definition dijkstra (G : Graph) (source : Z) : odict entry :=
  dijkstra_loop (List.length (_node G)) G (od_keys (_node G))
    [(source, {| e_dist := of_int 0; e_path := [source] |})].

(** Modelled from the spec: [nx.shortest_path], the networkx function
    that [find_shortest_path] calls and that is missing from the sources.
    The spec asks for a weighted shortest-path search (Dijkstra or
    equivalent), for a not-found outcome when either id is absent or no
    path exists, and for the single-station path when source and target
    are equal; networkx signals the two failures by raising NodeNotFound
    and NetworkXNoPath. *)
Definition shortest_path (G : Graph) (source target : Z) : result (list Z) :=
  if negb (has_node G source) || negb (has_node G target) then Raise NodeNotFound
  else if source =? target then Ok [source]
  else match od_get target (dijkstra G source) with
       | Some en => Ok (e_path en)
       | None => Raise NetworkXNoPath
       end.

(* ------------------------------------------------------------------ *)
(** ** The catalog: [self.stations] *)

(** A coordinate of a station record: the corrections write decimal
    strings, the remote data may hold floats. *)
Inductive coord : Type :=
| CStr (s : pystr)
| CFloat (x : F).

(** [float(c)]. *)
Definition float (c : coord) : result F :=
  match c with
  | CStr s => or_raise ValueError (float_of_str s)
  | CFloat x => Ok x
  end.

Record station : Type := {
  s_name : pystr;
  s_latitude : coord;
  s_longitude : coord;
  s_id : Z;
  s_order : Z;
  s_line : pystr
}.

(** [self.stations.items()]: the lines in their declared order, each
    with its ordered station list. *)
Definition catalog : Type := list (pystr * list station).

(* ------------------------------------------------------------------ *)
(** ** [MetroService] *)

Context {PM : MathOps F}.

(** [_haversine_distance(lat1, lon1, lat2, lon2)]. *)
Definition _haversine_distance (lat1 lon1 lat2 lon2 : F) : result F :=
  let R := 6371 in
  let lat1 := radians lat1 in
  let lon1 := radians lon1 in
  let lat2 := radians lat2 in
  let lon2 := radians lon2 in
  let dlat := fsub lat2 lat1 in
  let dlon := fsub lon2 lon1 in
  s1 <- or_raise ValueError (m_sin (fdiv dlat (of_int 2))) ;;
  c1 <- or_raise ValueError (m_cos lat1) ;;
  c2 <- or_raise ValueError (m_cos lat2) ;;
  s2 <- or_raise ValueError (m_sin (fdiv dlon (of_int 2))) ;;
  let a := fadd (fpow s1 2) (fmul (fmul c1 c2) (fpow s2 2)) in
  r <- or_raise ValueError (m_sqrt a) ;;
  h <- or_raise ValueError (m_asin r) ;;
  let c := fmul (of_int 2) h in
  Ok (fmul (of_int R) c).

(** One round of the first loop of [build_graph]. *)
Definition add_station (line_name : pystr) (G : Graph) (st : station) : result Graph :=
  let node_id := s_id st in
  lat <- float (s_latitude st) ;;
  lng <- float (s_longitude st) ;;
  Ok (add_node G node_id
        {| pos := (lng, lat); name := s_name st; line := line_name; order := s_order st |}).

Fixpoint add_stations (line_name : pystr) (station_list : list station) (G : Graph)
  : result Graph :=
  match station_list with
  | [] => Ok G
  | st :: rest => G' <- add_station line_name G st ;; add_stations line_name rest G'
  end.

Fixpoint add_nodes (stations : catalog) (G : Graph) : result Graph :=
  match stations with
  | [] => Ok G
  | (line_name, station_list) :: rest =>
      G' <- add_stations line_name station_list G ;; add_nodes rest G'
  end.

(** The second loop of [build_graph] on one line:
    [for i in range(len(station_list) - 1)]. *)
Fixpoint add_line_edges (line_name : pystr) (station_list : list station) (G : Graph)
  : result Graph :=
  match station_list with
  | [] => Ok G
  | station1 :: rest =>
      match rest with
      | [] => Ok G
      | station2 :: _ =>
          lat1 <- float (s_latitude station1) ;;
          lon1 <- float (s_longitude station1) ;;
          lat2 <- float (s_latitude station2) ;;
          lon2 <- float (s_longitude station2) ;;
          distance <- _haversine_distance lat1 lon1 lat2 lon2 ;;
          add_line_edges line_name rest
            (add_edge G (s_id station1) (s_id station2)
               {| weight := distance; edge_line := line_name |})
      end
  end.

Fixpoint add_edges (stations : catalog) (G : Graph) : result Graph :=
  match stations with
  | [] => Ok G
  | (line_name, station_list) :: rest =>
      G' <- add_line_edges line_name station_list G ;; add_edges rest G'
  end.

(** [build_graph()], from the empty graph of [__init__].  An exception
    leaves the constructor: no service object, no graph. *)
Definition build_graph (stations : catalog) : result Graph :=
  G <- add_nodes stations empty_graph ;; add_edges stations G.

(** The dict of a station in the answers. *)
Record station_info : Type := {
  i_id : Z;
  i_name : pystr;
  latitude : F;
  longitude : F;
  i_line : pystr
}.

(** One entry of ['route_details']. *)
Record leg : Type := {
  from_id : Z;
  from_name : pystr;
  to_id : Z;
  to_name : pystr;
  leg_line : pystr;
  distance : F;
  time : F
}.

(** The answer of [find_shortest_path]. *)
Record route : Type := {
  path : list Z;
  stations : list station_info;
  route_details : list leg;
  total_distance : num F;
  total_time : num F;
  num_stations : Z
}.

(** [total += x] for a float [x]. *)
Definition num_add (total : num F) (x : F) : num F :=
  match total with
  | PyInt z => PyFloat (fadd (of_int z) x)
  | PyFloat t => PyFloat (fadd t x)
  end.

(** [round(total, ndigits)]: an int is returned as it is. *)
Definition num_round (total : num F) (ndigits : Z) : num F :=
  match total with
  | PyInt z => PyInt z
  | PyFloat t => PyFloat (fround t ndigits)
  end.

(** [(distance / 40) * 60 + 1]. *)
Definition travel_time_of (distance : F) : F :=
  fadd (fmul (fdiv distance (of_int 40)) (of_int 60)) (of_int 1).

(** The dict built from a node's data.  Every node with data has a line,
    so the default of [.get('line', 'Unknown')] is never used. *)
Definition station_dict (station_id : Z) (station_data : node_attrs) : station_info :=
  {| i_id := station_id;
     i_name := name station_data;
     latitude := snd (pos station_data);
     longitude := fst (pos station_data);
     i_line := line station_data |}.

(** The loop over the legs, [for i in range(len(path) - 1)], threading
    the two totals and the list of details. *)
Fixpoint route_loop (G : Graph) (path : list Z)
         (total_distance total_time : num F) (route_details : list leg)
  : result (num F * num F * list leg) :=
  match path with
  | [] => Ok (total_distance, total_time, route_details)
  | current_id :: rest =>
      match rest with
      | [] => Ok (total_distance, total_time, route_details)
      | next_id :: _ =>
          edge_data <- or_raise TypeError (get_edge_data G current_id next_id) ;;
          let distance := weight edge_data in
          let line := edge_line edge_data in
          current_station <- node_data G current_id ;;
          next_station <- node_data G next_id ;;
          let travel_time := travel_time_of distance in
          route_loop G rest
            (num_add total_distance distance)
            (num_add total_time travel_time)
            (route_details ++
               [{| from_id := current_id;
                   from_name := name current_station;
                   to_id := next_id;
                   to_name := name next_station;
                   leg_line := line;
                   distance := fround distance 2;
                   time := fround travel_time 1 |}])
      end
  end.

(** The loop over the stations of the path. *)
Fixpoint stations_loop (G : Graph) (path : list Z) (stations_on_route : list station_info)
  : result (list station_info) :=
  match path with
  | [] => Ok stations_on_route
  | station_id :: rest =>
      station_data <- node_data G station_id ;;
      stations_loop G rest (stations_on_route ++ [station_dict station_id station_data])
  end.

(** The body of the [try] of [find_shortest_path]. *)
Definition find_shortest_path_body (G : Graph) (source_id target_id : Z) : result route :=
  path <- shortest_path G source_id target_id ;;
  totals <- route_loop G path (PyInt 0) (PyInt 0) [] ;;
  let '(total_distance, total_time, route_details) := totals in
  stations_on_route <- stations_loop G path [] ;;
  Ok {| path := path;
        stations := stations_on_route;
        route_details := route_details;
        total_distance := num_round total_distance 2;
        total_time := num_round total_time 1;
        num_stations := Z.of_nat (List.length path) |}.

(** [find_shortest_path(source_id, target_id)]: [None] from both
    [except] clauses (the second also prints the exception). *)
Definition find_shortest_path (G : Graph) (source_id target_id : Z) : option route :=
  match find_shortest_path_body G source_id target_id with
  | Ok r => Some r
  | Raise NetworkXNoPath => None
  | Raise _ => None
  end.

(** [get_station_by_id(station_id)]: KeyError, the one exception the
    body can raise, is answered by [None]. *)
Definition get_station_by_id (G : Graph) (station_id : Z) : option station_info :=
  match node_data G station_id with
  | Ok station_data => Some (station_dict station_id station_data)
  | Raise _ => None
  end.

(** The loop of [search_stations] over [G.nodes(data=True)]; a node
    without a name raises KeyError, which the method does not catch. *)
Fixpoint search_loop (query : pystr) (nodes : odict (option node_attrs))
         (results : list station_info) : result (list station_info) :=
  match nodes with
  | [] => Ok results
  | (node_id, data) :: rest =>
      data <- or_raise KeyError data ;;
      if str_in query (upper (name data))
      then search_loop query rest (results ++ [station_dict node_id data])
      else search_loop query rest results
  end.

(** [search_stations(query)]. *)
Definition search_stations (G : Graph) (query : pystr) : result (list station_info) :=
  let query := upper query in
  search_loop query (_node G) [].

End Service.

Arguments Graph F : clear implicits.
Arguments node_attrs F : clear implicits.
Arguments edge_attrs F : clear implicits.
Arguments entry F : clear implicits.
Arguments coord F : clear implicits.
Arguments station F : clear implicits.
Arguments catalog F : clear implicits.
Arguments station_info F : clear implicits.
Arguments leg F : clear implicits.
Arguments route F : clear implicits.

(* ------------------------------------------------------------------ *)
(** ** Reading a decimal string: the grammar of [float(s)]

    Optional blanks, an optional sign, digits with an optional fraction
    (or a fraction alone), an optional exponent, optional blanks.  The
    digit separator [_] and the words [inf] and [nan] are left out: the
    two number types below have no such values. *)

Definition is_space (c : N) : bool := in_range 9 13 c || (c =? 32)%N.

Fixpoint lstrip (s : pystr) : pystr :=
  match s with
  | c :: s' => if is_space c then lstrip s' else s
  | [] => []
  end.

Definition strip (s : pystr) : pystr := rev (lstrip (rev (lstrip s))).

(** Reads digits off the front of [s]: the number read so far, how many
    digits were read, and what is left. *)
Fixpoint take_digits (s : pystr) (acc : Z) (count : Z) : Z * Z * pystr :=
  match s with
  | c :: s' =>
      if in_range 48 57 c
      then take_digits s' (10 * acc + (Z.of_N c - 48)) (count + 1)
      else (acc, count, s)
  | [] => (acc, count, [])
  end.

Definition take_sign (s : pystr) : Z * pystr :=
  match s with
  | 43%N :: s' => (1, s')
  | 45%N :: s' => (-1, s')
  | _ => (1, s)
  end.

(** The exponent part: [Some 0] when there is none, [None] when it is
    malformed or something follows it. *)
Definition take_exponent (s : pystr) : option Z :=
  match s with
  | [] => Some 0
  | c :: s' =>
      if (c =? 101)%N || (c =? 69)%N then
        let '(sg, s1) := take_sign s' in
        let '(e, n, s2) := take_digits s1 0 0 in
        match s2 with
        | [] => if 0 <? n then Some (sg * e) else None
        | _ :: _ => None
        end
      else None
  end.

Definition scale10 (m e : Z) : Q :=
  if 0 <=? e then inject_Z (m * 10 ^ e) else Qred (m # Z.to_pos (10 ^ (- e))).

Definition parse_float (s : pystr) : option Q :=
  let '(sg, s1) := take_sign (strip s) in
  let '(ip, ni, s2) := take_digits s1 0 0 in
  let '(m, nf, s3) :=
    match s2 with
    | 46%N :: s' => take_digits s' ip 0
    | _ => (ip, 0, s2)
    end in
  if 0 <? ni + nf then
    match take_exponent s3 with
    | Some e => Some (scale10 (sg * m) (e - nf))
    | None => None
    end
  else None.

(* ------------------------------------------------------------------ *)
(** ** Exact rationals as floats *)

(** The integer nearest to [x], the even one of two equally near. *)
Definition Qnearest_even (x : Q) : Z :=
  let n := Qnum x in
  let d := Zpos (Qden x) in
  let f := n / d in
  let r := n mod d in
  if 2 * r <? d then f
  else if d <? 2 * r then f + 1
  else if Z.even f then f else f + 1.

Definition Q_round (x : Q) (ndigits : Z) : Q :=
  if 0 <=? ndigits
  then Qred (Qnearest_even (x * inject_Z (10 ^ ndigits)) # Z.to_pos (10 ^ ndigits))
  else inject_Z (Qnearest_even (x / inject_Z (10 ^ (- ndigits))) * 10 ^ (- ndigits)).

Definition Q_lt (x y : Q) : bool := negb (Qle_bool y x).

#[export] Instance Q_float : FloatOps Q := {|
  of_int := inject_Z;
  fadd := fun x y => Qred (x + y);
  fsub := fun x y => Qred (x - y);
  fmul := fun x y => Qred (x * y);
  fdiv := fun x y => Qred (x / y);
  fpow := fun x n => Qred (Qpower x n);
  flt := Q_lt;
  fround := Q_round;
  float_of_str := parse_float
|}.

(* ------------------------------------------------------------------ *)
(** ** Real numbers as floats *)

Definition R_lt (x y : R) : bool := if Rlt_dec x y then true else false.

Definition R_round (x : R) (ndigits : Z) : R :=
  let y := (x * powerRZ 10 ndigits)%R in
  let f := Int_part y in
  let r := frac_part y in
  let m := if Rlt_dec r (1 / 2) then f
           else if Rlt_dec (1 / 2) r then f + 1
           else if Z.even f then f else f + 1 in
  (IZR m * powerRZ 10 (- ndigits))%R.

#[export] Instance R_float : FloatOps R := {|
  of_int := IZR;
  fadd := Rplus;
  fsub := Rminus;
  fmul := Rmult;
  fdiv := Rdiv;
  fpow := powerRZ;
  flt := R_lt;
  fround := R_round;
  float_of_str := fun s => option_map Q2R (parse_float s)
|}.

(** [math.sqrt] and [math.asin] with their domain checks. *)
Definition R_sqrt (x : R) : option R :=
  if Rlt_dec x 0 then None else Some (sqrt x).

Definition R_asin (x : R) : option R :=
  if Rlt_dec x (-1) then None
  else if Rlt_dec 1 x then None
  else Some (asin x).

#[export] Instance R_math : MathOps R := {|
  radians := fun x => (x * (PI / 180))%R;
  m_sin := fun x => Some (sin x);
  m_cos := fun x => Some (cos x);
  m_sqrt := R_sqrt;
  m_asin := R_asin
|}.

(* ------------------------------------------------------------------ *)
(** ** Paths, weights and well-formed graphs *)

Section Paths.
Context {F : Type} {PF : FloatOps F}.

(** The weight of the walk that leaves [x] along [rest], added edge by
    edge to [acc] in path order; [None] when two consecutive nodes are
    not adjacent. *)
Fixpoint walk (G : Graph F) (acc : F) (x : Z) (rest : list Z) : option F :=
  match rest with
  | [] => Some acc
  | y :: rest' =>
      match get_edge_data G x y with
      | Some e => walk G (fadd acc (weight e)) y rest'
      | None => None
      end
  end.

(** The sum of the edge weights along [p], from 0. *)
Definition path_weight (G : Graph F) (p : list Z) : option F :=
  match p with
  | [] => None
  | x :: rest => walk G (of_int 0) x rest
  end.

(** [p] is a path of [G] from [s] to [t] of weight [d]. *)
Definition path_between (G : Graph F) (s t : Z) (p : list Z) (d : F) : Prop :=
  hd_error p = Some s /\ last p s = t /\ path_weight G p = Some d.

(** The same, built the way the search builds its paths: by appending
    one edge at the far end. *)
Inductive reach (G : Graph F) (s : Z) : Z -> list Z -> F -> Prop :=
| reach_here : reach G s s [s] (of_int 0)
| reach_step v p d u e :
    reach G s v p d ->
    get_edge_data G v u = Some e ->
    reach G s u (p ++ [u]) (fadd d (weight e)).

(** What networkx and [build_graph] keep true of the graph: neighbour
    dicts have distinct keys, both ends of an edge are nodes, and every
    node carries its attributes. *)
Definition adj_ok (G : Graph F) (u : Z) (nbrs : odict (edge_attrs F)) : bool :=
  has_node G u && nodupb (od_keys nbrs) && forallb (fun ve => has_node G (fst ve)) nbrs.

Definition graph_ok (G : Graph F) : bool :=
  forallb (fun un => adj_ok G (fst un) (snd un)) (_adj G) &&
  forallb (fun na => match snd na with Some _ => true | None => false end) (_node G).

(** No edge has a negative weight. *)
Definition nonneg_weights (G : Graph F) : bool :=
  forallb (fun un => forallb (fun ve => fle (of_int 0) (weight (snd ve))) (snd un)) (_adj G).

(** The legs of a path: its consecutive pairs. *)
Fixpoint pairs (p : list Z) : list (Z * Z) :=
  match p with
  | [] => []
  | x :: rest =>
      match rest with
      | [] => []
      | y :: _ => (x, y) :: pairs rest
      end
  end.

(** The weights of the edges along [p] (0 stands in where there is no
    edge; on a path there always is one). *)
Definition edge_weights (G : Graph F) (p : list Z) : list F :=
  map (fun xy => match get_edge_data G (fst xy) (snd xy) with
                 | Some e => weight e
                 | None => of_int 0
                 end) (pairs p).

(** [0 + x1 + x2 + ...], as the loop of [find_shortest_path] adds. *)
Definition num_sum (xs : list F) : num F := fold_left num_add xs (PyInt 0).

(** The two ends of a leg. *)
Definition leg_ends (l : leg F) : Z * Z := (from_id l, to_id l).

(** A leg reports the edge between its two ends: the edge's line, its
    weight rounded to 2 decimals, and the travel time computed from the
    weight, rounded to 1 decimal. *)
Definition leg_of_edge (G : Graph F) (l : leg F) : Prop :=
  exists e, get_edge_data G (from_id l) (to_id l) = Some e /\
            leg_line l = edge_line e /\
            distance l = fround (weight e) 2 /\
            time l = fround (travel_time_of (weight e)) 1.

(** The records of the catalog in the order [build_graph] reads them,
    each with the key of its line. *)
Definition records (stations : catalog F) : list (pystr * station F) :=
  flat_map (fun ls => map (pair (fst ls)) (snd ls)) stations.

(** The last record read for the id [n]. *)
Definition last_record (stations : catalog F) (n : Z) : option (pystr * station F) :=
  find (fun r => s_id (snd r) =? n) (rev (records stations)).

(** The stations of a node table whose upper-cased name contains
    [query], in the order of the table. *)
Definition matching (query : pystr) (nodes : odict (option (node_attrs F)))
  : list (station_info F) :=
  flat_map (fun na =>
              match snd na with
              | Some data =>
                  if str_in query (upper (name data))
                  then [station_dict (fst na) data] else []
              | None => []
              end) nodes.

End Paths.

(* ------------------------------------------------------------------ *)
(** ** Vocabulary of the proofs *)

Section Vocabulary.
Context {F : Type} {PF : FloatOps F}.

(** The entry that a node finalised at distance [d] with path [p]
    offers its neighbour [u] across the edge [e]. *)
Definition extend (d : F) (p : list Z) (u : Z) (e : edge_attrs F) : entry F :=
  {| e_dist := fadd d (weight e); e_path := p ++ [u] |}.

(** One round of [relax]. *)
Definition relax1 (d : F) (p : list Z) (U : list Z) (u : Z) (e : edge_attrs F)
           (seen : odict (entry F)) : odict (entry F) :=
  if negb (mem u U) then seen
  else match od_get u seen with
       | None => od_set u (extend d p u e) seen
       | Some old =>
           if flt (fadd d (weight e)) (e_dist old)
           then od_set u (extend d p u e) seen else seen
       end.

(** [P] holds of every entry of the table. *)
Definition all_entries (P : Z -> entry F -> Prop) (seen : odict (entry F)) : Prop :=
  forall k en, In (k, en) seen -> P k en.

(** The invariant of the search from [s].  [U] holds the nodes not yet
    finalised.  Every entry of [seen] is a real path with its weight; a
    finalised node has the least weight any path can have, and its edges
    have been relaxed. *)
Record Inv (G : Graph F) (s : Z) (U : list Z) (seen : odict (entry F)) : Prop := {
  inv_nodup : NoDup (od_keys seen);
  inv_valid : forall v en, od_get v seen = Some en -> reach G s v (e_path en) (e_dist en);
  inv_src : exists en, od_get s seen = Some en /\ fle (e_dist en) (of_int 0) = true;
  inv_fin : forall v, has_node G v = true -> ~ In v U -> od_mem v seen = true;
  inv_opt : forall v en, od_get v seen = Some en -> ~ In v U ->
            forall p d, reach G s v p d -> fle (e_dist en) d = true;
  inv_rel : forall v en, od_get v seen = Some en -> ~ In v U ->
            forall u e, get_edge_data G v u = Some e ->
            exists eu, od_get u seen = Some eu /\
                       fle (e_dist eu) (fadd (e_dist en) (weight e)) = true
}.

(** The attributes the first loop of [build_graph] gives the node of a
    record. *)
Definition record_attrs (r : pystr * station F) : result (node_attrs F) :=
  lat <- float (s_latitude (snd r)) ;;
  lng <- float (s_longitude (snd r)) ;;
  Ok {| pos := (lng, lat); name := s_name (snd r); line := fst r;
        order := s_order (snd r) |}.

(** The first loop, over the records in reading order. *)
Fixpoint add_records (rs : list (pystr * station F)) (G : Graph F) : result (Graph F) :=
  match rs with
  | [] => Ok G
  | r :: rest =>
      a <- record_attrs r ;; add_records rest (add_node G (s_id (snd r)) a)
  end.

(** A neighbour dict is in order: distinct keys, all of them nodes. *)
Definition nbrs_ok (G : Graph F) (nbrs : odict (edge_attrs F)) : Prop :=
  NoDup (od_keys nbrs) /\ forall v e, In (v, e) nbrs -> has_node G v = true.

(** [graph_ok] as a proposition. *)
Definition graph_okP (G : Graph F) : Prop :=
  (forall u nbrs, In (u, nbrs) (_adj G) -> has_node G u = true /\ nbrs_ok G nbrs) /\
  (forall n a, In (n, a) (_node G) -> a <> None).

(** Every edge stored in [G] satisfies [Q]. *)
Definition all_edges (Q : edge_attrs F -> Prop) (G : Graph F) : Prop :=
  forall x nbrs, In (x, nbrs) (_adj G) -> forall y e, In (y, e) nbrs -> Q e.

End Vocabulary.

(** The quantity [a] of the haversine formula, on angles in radians. *)
Definition hav_a (p1 l1 p2 l2 : R) : R :=
  (sin ((p2 - p1) / 2) * sin ((p2 - p1) / 2) +
   cos p1 * cos p2 * (sin ((l2 - l1) / 2) * sin ((l2 - l1) / 2)))%R.

(** Upper-casing [c] after lower-casing it, or after upper-casing it,
    gives what upper-casing it gives. *)
Definition same_upper (c : N) : bool :=
  if list_eq_dec N.eq_dec (upper (lower_cp c)) (upper_cp c) then
    if list_eq_dec N.eq_dec (upper (upper_cp c)) (upper_cp c) then true else false
  else false.

(* ------------------------------------------------------------------ *)
(** ** Small networks to run the service on *)

Definition attrs_Q (nm ln : string) (ord : Z) : node_attrs Q :=
  {| pos := (29 # 1, 41 # 1)%Q; name := str nm; line := str ln; order := ord |}.

Definition edge_Q (w : Q) (ln : string) : edge_attrs Q :=
  {| weight := w; edge_line := str ln |}.

(** Three stations: A - B - C on line M1 (1.234 km and 2.5 km) and a
    direct edge A - C of 4 km on line M2. *)
Definition triangle : Graph Q :=
  let G := add_node empty_graph 1 (attrs_Q "A" "M1" 1) in
  let G := add_node G 2 (attrs_Q "B" "M1" 2) in
  let G := add_node G 3 (attrs_Q "C" "M2" 2) in
  let G := add_edge G 1 2 (edge_Q (1234 # 1000) "M1") in
  let G := add_edge G 2 3 (edge_Q (25 # 10) "M1") in
  add_edge G 1 3 (edge_Q (4 # 1) "M2").

(** Two stations 4 m apart twice over: A - B - C with legs of 0.004 km. *)
Definition short_hops : Graph Q :=
  let G := add_node empty_graph 1 (attrs_Q "A" "T1" 1) in
  let G := add_node G 2 (attrs_Q "B" "T1" 2) in
  let G := add_node G 3 (attrs_Q "C" "T1" 3) in
  let G := add_edge G 1 2 (edge_Q (4 # 1000) "T1") in
  add_edge G 2 3 (edge_Q (4 # 1000) "T1").

(** One station whose name starts with capital I with dot above:
    U+0130, T, U+00DC. *)
Definition dotted_name : pystr := [304; 84; 220]%N.

Definition dotted_graph : Graph Q :=
  add_node empty_graph 7
    {| pos := (29 # 1, 41 # 1)%Q; name := dotted_name; line := str "M2"; order := 1 |}.

(** The query: U+0130, T. *)
Definition dotted_query : pystr := [304; 84]%N.

(** Catalogs over the real numbers, coordinates as decimal strings. *)
Definition station_R (nm lat lon : string) (n ord : Z) (ln : string) : station R :=
  {| s_name := str nm; s_latitude := CStr (str lat); s_longitude := CStr (str lon);
     s_id := n; s_order := ord; s_line := str ln |}.

(** Yenikapi under the id 20 on the line M2 and, read later, on the
    line MM. *)
Definition yenikapi_M2 : station R := station_R "YENIKAPI M2" "41.0051" "28.9502" 20 1 "M2".
Definition yenikapi_MM : station R := station_R "YENIKAPI" "41.0056" "28.9513" 20 31 "MM".

Definition interchange : catalog R :=
  [(str "M2", [yenikapi_M2]); (str "MM", [yenikapi_MM])].

(** Two lines of one station each, with nothing in common. *)
Definition two_islands : catalog R :=
  [(str "F1", [station_R "TAKSIM" "41.0385" "28.9858" 24 1 "F1"]);
   (str "F4", [station_R "ASIYAN" "41.0853" "29.0455" 141 1 "F4"])].

(** A line of two stations, the first with the latitude 95 degrees. *)
Definition beyond_the_pole : catalog R :=
  [(str "M9", [station_R "A" "95.0" "28.9" 1 1 "M9";
               station_R "B" "41.0" "29.0" 2 2 "M9"])].

(** A line whose second station has a latitude that is no number. *)
Definition unreadable : catalog R :=
  [(str "M9", [station_R "A" "41.0" "28.9" 1 1 "M9";
               station_R "B" "" "29.0" 2 2 "M9"])].

(* ------------------------------------------------------------------ *)
(** ** What the catalog puts into the graph *)

Section CatalogContents.
Context {F : Type} {PF : FloatOps F}.

(** The ids of the records, in reading order. *)
Definition catalog_ids (stations : catalog F) : list Z :=
  map (fun r => s_id (snd r)) (records stations).

(** The keys of a dict that holds [seen] and is then given [ids] one by
    one: each id once, in order of first appearance. *)
Fixpoint first_seen (seen ids : list Z) : list Z :=
  match ids with
  | [] => seen
  | n :: rest => first_seen (if mem n seen then seen else seen ++ [n]) rest
  end.

(** The links of the catalog: for each line, the pairs of ids of
    consecutive stations, each with the key of the line. *)
Definition links (stations : catalog F) : list (pystr * (Z * Z)) :=
  flat_map (fun ls => map (pair (fst ls)) (pairs (map s_id (snd ls)))) stations.

(** [u] and [v] are consecutive, in this order or the other, on the
    line [ln]. *)
Definition linked (stations : catalog F) (ln : pystr) (u v : Z) : Prop :=
  In (ln, (u, v)) (links stations) \/ In (ln, (v, u)) (links stations).

(** The nodes of every path of an entry but the last are finalised, and
    no node occurs twice. *)
(** Link [l] joins [x] and [y], in either order. *)
Definition joins (l : pystr * (Z * Z)) (x y : Z) : bool :=
  ((x =? fst (snd l)) && (y =? snd (snd l))) || ((x =? snd (snd l)) && (y =? fst (snd l))).

(** The line of the last link between [x] and [y]. *)
Definition last_link (L : list (pystr * (Z * Z))) (x y : Z) : option pystr :=
  option_map fst (find (fun l => joins l x y) (rev L)).

(** [G] stores each edge under both of its ends. *)
Definition undirected (G : Graph F) : Prop :=
  forall x y, get_edge_data G x y = get_edge_data G y x.

(** The edges of [G] are the links [L], each tagged with the line of the
    last link between its ends. *)
Definition edges_are (L : list (pystr * (Z * Z))) (G : Graph F) : Prop :=
  forall x y, option_map edge_line (get_edge_data G x y) = last_link L x y.

(** An entry of the search table whose path ends at its key, repeats no
    node, and runs through finalised nodes only ([U] holds the others). *)
Definition simple_entry (U : list Z) (k : Z) (en : entry F) : Prop :=
  NoDup (e_path en) /\
  exists p, e_path en = p ++ [k] /\ forall x, In x p -> ~ In x U.

(** The two names of a leg are the names that [get_station_by_id] gives
    for its two ids. *)
Definition leg_names (G : Graph F) (l : leg F) : Prop :=
  exists a b, get_station_by_id G (from_id l) = Some a /\
              get_station_by_id G (to_id l) = Some b /\
              from_name l = i_name a /\ to_name l = i_name b.

End CatalogContents.

(* ------------------------------------------------------------------ *)
(** ** Loading the catalog: [load_stations] and [_apply_corrections]

    The catalog is the dict [self.stations]: its keys are line names,
    each met once; an assignment to a key keeps the key's place. *)

Fixpoint pystr_eqb (a b : pystr) : bool :=
  match a, b with
  | [], [] => true
  | x :: a', y :: b' => (x =? y)%N && pystr_eqb a' b'
  | _, _ => false
  end.

Section Loader.
Context {F : Type} {PF : FloatOps F}.

(** [self.stations[key]]. *)
Fixpoint get_line (key : pystr) (stations : catalog F) : result (list (station F)) :=
  match stations with
  | [] => Raise KeyError
  | (k, l) :: rest => if pystr_eqb key k then Ok l else get_line key rest
  end.

(** [self.stations[key] = l]. *)
Fixpoint set_line (key : pystr) (l : list (station F)) (stations : catalog F) : catalog F :=
  match stations with
  | [] => [(key, l)]
  | (k, l') :: rest =>
      if pystr_eqb key k then (k, l) :: rest else (k, l') :: set_line key l rest
  end.

(** [for key in self.stations]. *)
Definition line_keys (stations : catalog F) : list pystr := map fst stations.

(** [l[i] = f(l[i])] for an index within the list. *)
Fixpoint update_at {A : Type} (i : nat) (f : A -> A) (l : list A) : list A :=
  match l, i with
  | [], _ => []
  | x :: l', O => f x :: l'
  | x :: l', S i' => x :: update_at i' f l'
  end.

(** A station dict written in the source. *)
Definition row (nm : pystr) (lat lon : string) (n ord : Z) (ln : string) : station F :=
  {| s_name := nm; s_latitude := CStr (str lat); s_longitude := CStr (str lon);
     s_id := n; s_order := ord; s_line := str ln |}.

(** The 43 stations written for the line MM. *)
Definition MM_table : list (station F) :=
  [row (str "GEBZE") "40.784181" "29.3935358" 301 1 "MM";
   row (str "DARICA") "40.78982" "29.3895205" 302 2 "MM";
   row (str "OSMANGAZI") "40.7986566" "29.3782534" 303 3 "MM";
   row (str "GEBZE_TEKNIK_" ++ [220%N] ++ str "NIVERSITESI") "40.8082463" "29.3594667" 304 4 "MM";
   row (str "CAYIROVA") "40.8107955" "29.3465654" 305 5 "MM";
   row (str "TUZLA") "40.8290353" "29.3207176" 306 6 "MM";
   row (str "ICMELER") "40.8455518" "29.2998963" 307 7 "MM";
   row (str "AYDINTEPE") "40.8508856" "29.295064" 308 8 "MM";
   row (str "GUZELYALI") "40.8561729" "29.2860626" 309 9 "MM";
   row (str "TERSANE") "40.8598315" "29.2747476" 310 10 "MM";
   row (str "KAYNARCA") "40.8705039" "29.2558612" 311 11 "MM";
   row (str "PENDIK") "40.8806883" "29.2316707" 312 12 "MM";
   row (str "YUNUS") "40.8834551" "29.2091668" 313 13 "MM";
   row (str "KARTAL") "40.8870486" "29.1851243" 314 14 "MM";
   row (str "BASAK") "40.891103" "29.1752967" 315 15 "MM";
   row (str "ATALAR") "40.8981152" "29.1674154" 316 16 "MM";
   row (str "CEVIZLI") "40.9082929" "29.155834" 317 17 "MM";
   row (str "MALTEPE") "40.9198759" "29.1308588" 318 18 "MM";
   row (str "SUREYYA_PLAJI") "40.9261565" "29.1197238" 319 19 "MM";
   row (str "IDEALTEPE") "40.9383674" "29.1099494" 320 20 "MM";
   row (str "KUUCKYALI") "40.9439545" "29.1057246" 321 21 "MM";
   row (str "BOSTANCI") "40.95128998347687" "29.097243057130374" 161 22 "MM";
   row (str "SUADIYE") "40.9587123" "29.0850411" 323 23 "MM";
   row (str "ERENKOY") "40.9703631" "29.0736159" 324 24 "MM";
   row (str "GOZTEPE") "40.9782839" "29.0594758" 325 25 "MM";
   row (str "FENERYOLU") "40.9767792" "29.0465906" 326 26 "MM";
   row (str "SOGUTLUCESME") "40.9925862" "29.0333966" 327 27 "MM";
   row (str "AYRILIK_CESMESI") "41.00020434433358" "29.030153258203203" 2 28 "MM";
   row (str "USKUDAR") "41.025618259645256" "29.015061927581854" 122 29 "MM";
   row (str "SIRKECI") "41.015180" "28.975890" 330 30 "MM";
   row (str "YENIKAPI") "41.0055971704" "28.9513306172" 20 31 "MM";
   row (str "KAZLICESME") "40.9920031" "28.9166025" 332 32 "MM";
   row (str "ZEYTINBURNU") "40.9866357" "28.9045622" 333 33 "MM";
   row (str "YENIMAHALLE") "40.9817211" "28.8824225" 334 34 "MM";
   row (str "BAKIRKOY") "40.9815344" "28.8734009" 335 35 "MM";
   row (str "ATAKOY") "40.9794168" "28.8555328" 336 36 "MM";
   row (str "YESILYURT") "40.9630548" "28.830968" 337 37 "MM";
   row (str "YESILKOY") "40.9627362" "28.8247946" 338 38 "MM";
   row (str "FLORYA_AKVARUM") "40.96556" "28.7983628" 339 39 "MM";
   row (str "FLORYA") "40.9715111" "28.790156" 340 40 "MM";
   row (str "KUCUKCEKMECE") "40.98784" "28.773917" 341 41 "MM";
   row (str "MUSTAFA_KEMAL") "41.0028258" "28.7656428" 342 42 "MM";
   row (str "HALKALI") "41.0167685" "28.7682746" 343 43 "MM"].

(** The 13 stations written for the line M3. *)
Definition M3_table : list (station F) :=
  [row (str "KAYASEHIR MERKEZ") "41.1183031" "28.7655255" 240 13 "M3";
   row (str "TOPLU KONUTLAR") "41.1068062" "28.767267" 239 12 "M3";
   row (str "SEHIR HASTANESI") "41.1031843" "28.7762591" 238 11 "M3";
   row (str "ONURKENT") "41.1133997" "28.7905842" 237 10 "M3";
   row (str "METROKENT") "41.1075899254" "28.8014768347" 36 9 "M3";
   row (str "BASAK KONUTLARI") "41.0976705948" "28.7912824671" 37 8 "M3";
   row (str "SITELER") "41.0882027223" "28.7965104065" 38 7 "M3";
   row (str "TURGUT OZAL") "41.0811852568" "28.7974049311" 39 6 "M3";
   row (str "IKITELLI SANAYI") "41.0724333906" "28.8023285305" 40 5 "M3";
   row (str "ISTOC") "41.0649996532" "28.8259591715" 41 4 "M3";
   row (str "MAHMUTBEY") "41.054312" "28.830612" 160 3 "M3";
   row (str "YENIMAHALLE") "41.0403571945" "28.8359378583" 43 2 "M3";
   row (str "KIRAZLI") "41.0322960516" "28.8427689525" 44 1 "M3"].

(** The 13 stations written for the line M1B. *)
Definition M1B_table : list (station F) :=
  [row (str "KIRAZLI") "41.0322960516" "28.8427689525" 44 1 "M1B";
   row (str "BAGCILAR MEYDAN") "41.0345164689" "28.8561714937" 48 2 "M1B";
   row (str "UCYUZLU") "41.036721597" "28.8706340581" 49 3 "M1B";
   row (str "MENDERES") "41.0427591002" "28.8784878297" 50 4 "M1B";
   row (str "ESENLER") "41.037682433" "28.8884222852" 51 5 "M1B";
   row (str "OTOGAR") "41.0401441651" "28.8945600984" 211 11 "M1B";
   row (str "KOCATEPE") "41.0484928183" "28.8953862076" 204 12 "M1B";
   row (str "SAGMALCILAR") "41.0408544497" "28.9072352877" 205 13 "M1B";
   row (str "BAYRAMPASA") "41.0340978572" "28.920238689" 206 14 "M1B";
   row (str "ULUBATLI") "41.0240250582" "28.9305034257" 207 15 "M1B";
   row (str "EMNIYET") "41.0176115439" "28.9395963977" 208 16 "M1B";
   row (str "AKSARAY") "41.0120281897" "28.9480625565" 209 17 "M1B";
   row (str "YENIKAPI") "41.0055971704" "28.9513306172" 20 18 "M1B"].

(** The 11 stations written for the line M1A. *)
Definition M1A_table : list (station F) :=
  [row (str "ATATURK HAVALIMANI") "40.9795429431" "28.8211244027" 105 1 "M1A";
   row (str "DTM - ISTANBUL FUAR MERKEZI") "40.9866455145" "28.8285503243" 106 2 "M1A";
   row (str "YENIBOSNA") "40.9893149835" "28.8367043004" 107 3 "M1A";
   row (str "ATAKOY") "40.9913500997" "28.846082309" 108 4 "M1A";
   row (str "BAHCELIEVLER") "40.9953532384" "28.8630661969" 109 5 "M1A";
   row (str "BAKIRKOY - INCIRLI") "40.9966121333" "28.8753997556" 110 6 "M1A";
   row (str "ZEYTINBURNU") "41.0014853458" "28.8902920022" 60 7 "M1A";
   row (str "MERTER") "41.0076458753" "28.8961771147" 112 8 "M1A";
   row (str "DAVUTPASA") "41.0206387059" "28.9001417888" 113 9 "M1A";
   row (str "TERAZIDERE") "41.0303317032" "28.8979522419" 114 10 "M1A";
   row (str "KOCATEPE") "41.0408544497" "28.9072352877" 205 12 "M1A"].

(** The three assignments of one correction: latitude, longitude and,
    for most of them, id. *)
Definition corrected (lat lon : string) (new_id : option Z) (st : station F) : station F :=
  {| s_name := s_name st;
     s_latitude := CStr (str lat);
     s_longitude := CStr (str lon);
     s_id := match new_id with Some n => n | None => s_id st end;
     s_order := s_order st;
     s_line := s_line st |}.

(** One statement of [_apply_corrections]. *)
Inductive correction : Type :=
| table (key : string) (rows : list (station F))
    (* self.stations[key] = [...] *)
| patch (key : string) (i : nat) (lat lon : string) (new_id : option Z).
    (* if len(self.stations[key]) > i:
           self.stations[key][i]["latitude"] = lat
           self.stations[key][i]["longitude"] = lon
           self.stations[key][i]["id"] = new_id *)

(** The statements of [_apply_corrections], in order. *)
Definition corrections : list correction :=
  [table "MM" MM_table;
   patch "M8" 10 "41.01544045560607" "29.16244635386456" (Some 135);
   patch "M8" 3 "40.9748528607554" "29.099330474424526" (Some 7);
   patch "M7" 2 "41.0645069127" "28.9926697578" (Some 26);
   patch "M7" 8 "41.0799901" "28.9352699" None;
   patch "M7" 9 "41.0796898" "28.9295594" None;
   table "M3" M3_table;
   patch "T1" 25 "41.015180" "28.975890" (Some 330);
   patch "T5" 0 "41.0174770208" "28.9732097738" (Some 78);
   patch "T5" 12 "41.0791702" "28.9493602" (Some 150);
   table "M1B" M1B_table;
   table "M1A" M1A_table;
   patch "M6" 0 "41.0767734293" "29.0136876237" (Some 28);
   patch "M9" 2 "41.0724333906" "28.8023285305" (Some 40);
   patch "T4" 7 "41.0815994" "28.8754204" (Some 156);
   patch "T4" 19 "41.0240250582" "28.9305034257" (Some 207);
   patch "T4" 21 "41.0192295429" "28.9194470285" (Some 65);
   patch "F1" 0 "41.034195" "28.992712" (Some 82);
   patch "F1" 1 "41.038496" "28.985783" (Some 24);
   patch "F4" 1 "41.085278" "29.045519" (Some 141)].

(** Running one statement.  A patch looks its key up before anything is
    written. *)
Definition apply_correction (c : correction) (stations : catalog F) : result (catalog F) :=
  match c with
  | table key rows => Ok (set_line (str key) rows stations)
  | patch key i lat lon new_id =>
      l <- get_line (str key) stations ;;
      if (i <? List.length l)%nat
      then Ok (set_line (str key) (update_at i (corrected lat lon new_id) l) stations)
      else Ok stations
  end.

Fixpoint apply_all (cs : list correction) (stations : catalog F) : result (catalog F) :=
  match cs with
  | [] => Ok stations
  | c :: rest => stations' <- apply_correction c stations ;; apply_all rest stations'
  end.

(** [_apply_corrections()]. *)
Definition _apply_corrections (stations : catalog F) : result (catalog F) :=
  apply_all corrections stations.

(** The line a statement writes to. *)
Definition correction_key (c : correction) : pystr :=
  match c with
  | table key _ => str key
  | patch key _ _ _ _ => str key
  end.

(** What a statement does to the station list [l] of its line. *)
Definition line_step (c : correction) (l : list (station F)) : list (station F) :=
  match c with
  | table _ rows => rows
  | patch _ i lat lon new_id => update_at i (corrected lat lon new_id) l
  end.

(** What a statement does to the station list [l] of the line [key]. *)
Definition on_line (c : correction) (key : pystr) (l : list (station F)) : list (station F) :=
  if pystr_eqb key (correction_key c) then line_step c l else l.

(** What all the statements do to the line [key]. *)
Definition corrected_line (key : pystr) (l : list (station F)) : list (station F) :=
  fold_left (fun l c => on_line c key l) corrections l.

(** The lines that are written out in full. *)
Definition is_table (key : pystr) : bool :=
  existsb (fun c => match c with
                    | table k _ => pystr_eqb key (str k)
                    | patch _ _ _ _ _ => false
                    end) corrections.

(** The lines that are patched in place. *)
Definition is_patched (key : pystr) : bool :=
  existsb (fun c => match c with
                    | table _ _ => false
                    | patch k _ _ _ _ => pystr_eqb key (str k)
                    end) corrections.

(** The patch written for station [j] of the line [key], if there is
    one. *)
Definition patch_at (key : pystr) (j : nat) : option correction :=
  find (fun c => match c with
                 | table _ _ => false
                 | patch k i _ _ _ => pystr_eqb key (str k) && Nat.eqb i j
                 end) corrections.

(** One element of [data["Data"]].  A field is [None] when the key is
    missing.  The values present are taken to have the types the service
    relies on afterwards: strings for names, ints for ids and orders, a
    string or a float for a coordinate. *)
Record api_detail : Type := {
  Latitude : option (coord F);
  Longitude : option (coord F)
}.

Record api_station : Type := {
  LineName : option pystr;
  Name : option pystr;
  DetailInfo : option api_detail;
  Id : option Z;
  Order : option Z
}.

(** What [requests.get] brings: an exception, or a response with its
    status, whether its text is blank, and what [response.json()["Data"]]
    gives, a list or an exception. *)
Inductive api_reply : Type :=
| no_reply (e : exn)
| reply (status_code : Z) (text_blank : bool) (Data : result (list api_station)).

(** The dict built for a station of the line [key]. *)
Definition api_record (key : pystr) (station_data : api_station) : result (station F) :=
  nm <- or_raise KeyError (Name station_data) ;;
  detail <- or_raise KeyError (DetailInfo station_data) ;;
  let lat := match Latitude detail with Some c => c | None => CStr [] end in
  let lon := match Longitude detail with Some c => c | None => CStr [] end in
  n <- or_raise KeyError (Id station_data) ;;
  ord <- or_raise KeyError (Order station_data) ;;
  Ok {| s_name := nm; s_latitude := lat; s_longitude := lon;
        s_id := n; s_order := ord; s_line := key |}.

(** [self.stations[key].append(station)], for a key of the dict. *)
Fixpoint append_station (key : pystr) (st : station F) (stations : catalog F) : catalog F :=
  match stations with
  | [] => []
  | (k, l) :: rest =>
      if pystr_eqb key k then (k, l ++ [st]) :: rest
      else (k, l) :: append_station key st rest
  end.

(** The inner loop, [for key in self.stations], over the keys still to
    come: the catalog reached, and the exception that stopped the loop,
    if one did. *)
Fixpoint keys_loop (station_data : api_station) (keys : list pystr) (stations : catalog F)
  : catalog F * option exn :=
  match keys with
  | [] => (stations, None)
  | key :: rest =>
      match LineName station_data with
      | None => (stations, Some KeyError)
      | Some ln =>
          if pystr_eqb ln key then
            match api_record key station_data with
            | Ok st => keys_loop station_data rest (append_station key st stations)
            | Raise e => (stations, Some e)
            end
          else keys_loop station_data rest stations
      end
  end.

(** The outer loop, [for station_data in data["Data"]]. *)
Fixpoint data_loop (data : list api_station) (stations : catalog F)
  : catalog F * option exn :=
  match data with
  | [] => (stations, None)
  | station_data :: rest =>
      match keys_loop station_data (line_keys stations) stations with
      | (stations', None) => data_loop rest stations'
      | stopped => stopped
      end
  end.

(** [load_stations()].  The corrections are applied at the end of the
    [try] block, or by the handler to whatever had been loaded when an
    exception stopped the block.  An exception of the corrections
    themselves (a key missing from the dict, found before anything is
    written for it) comes again from the handler's call and leaves the
    method. *)
Definition load_stations (response : api_reply) (stations : catalog F) : result (catalog F) :=
  match response with
  | no_reply _ => _apply_corrections stations
  | reply status_code text_blank Data =>
      if (status_code =? 200) && negb text_blank then
        match Data with
        | Ok data =>
            match data_loop data stations with
            | (stations', None) => _apply_corrections stations'
            | (stations', Some _) => _apply_corrections stations'
            end
        | Raise _ => _apply_corrections stations
        end
      else _apply_corrections stations
  end.



(** A response whose records the loop never gets to read. *)
Definition unusable (response : api_reply) : bool :=
  match response with
  | no_reply _ => true
  | reply status_code text_blank Data =>
      negb ((status_code =? 200) && negb text_blank) ||
      match Data with
      | Ok _ => false
      | Raise _ => true
      end
  end.

(** Every station is filed under the line its own [line] field names. *)
Definition filed (stations : catalog F) : Prop :=
  forall key l st, In (key, l) stations -> In st l -> s_line st = key.

(** A coordinate that is a float, or a string in decimal notation. *)
Definition decimal (c : coord F) : bool :=
  match c with
  | CStr s => match parse_float s with Some _ => true | None => false end
  | CFloat _ => true
  end.


(** The two dicts of [__init__]. *)
Definition line_names : list string :=
  ["M5"; "M4"; "M8"; "MM"; "M2"; "M7"; "M3"; "T1"; "T5"; "M1A"; "M1B"; "M6"; "M9";
   "M11"; "T4"; "F1"; "F4"]%string.

Definition empty_lines : catalog F := map (fun k => (str k, [])) line_names.

Definition line_colors : list (pystr * pystr) :=
  [(str "M5", str "#E63946"); (str "M4", str "#1D3557"); (str "M8", str "#2A9D8F");
   (str "MM", str "#9D4EDD"); (str "M2", str "#F77F00"); (str "M7", str "#06AED5");
   (str "M3", str "#8B4513"); (str "T1", str "#FF69B4"); (str "T5", str "#FFD700");
   (str "M1A", str "#6C757D"); (str "M1B", str "#E83283"); (str "M6", str "#90EE90");
   (str "M9", str "#008080"); (str "M11", str "#4B0082"); (str "T4", str "#800000");
   (str "F1", str "#000080"); (str "F4", str "#808000")].

Context {PM : MathOps F}.

(** The service object. *)
Record MetroService : Type := {
  self_G : Graph F;
  self_stations : catalog F;
  self_line_colors : list (pystr * pystr)
}.

(** [MetroService()]: what the remote API answers is the one input. *)
Definition __init__ (response : api_reply) : result MetroService :=
  stations <- load_stations response empty_lines ;;
  G <- build_graph stations ;;
  Ok {| self_G := G; self_stations := stations; self_line_colors := line_colors |}.

(** [get_all_stations()] and [get_all_lines()]. *)
Definition get_all_stations (self : MetroService) : catalog F := self_stations self.

Definition get_all_lines (self : MetroService) : list (pystr * pystr) :=
  self_line_colors self.

End Loader.

Arguments api_detail F : clear implicits.
Arguments api_station F : clear implicits.
Arguments api_reply F : clear implicits.
Arguments MetroService F : clear implicits.

(* ------------------------------------------------------------------ *)
(** ** The endpoints of [main.py]

    [metro_service] is the object made at import time.  Each endpoint
    answers with a body or raises an [HTTPException]. *)

Inductive detail : Type :=
| Message (s : pystr)     (* a literal *)
| str_of (e : exn).       (* str(e) *)

Inductive http (A : Type) : Type :=
| Success (data : A)                                  (* {"status": "success", "data": ...} *)
| HTTPException (status_code : Z) (d : detail).
Arguments Success {A} data.
Arguments HTTPException {A} status_code d.

Module main.
Section Endpoints.
Context {F : Type} {PF : FloatOps F}.
Variable metro_service : MetroService F.

(** [GET /api/station/{station_id}]. *)
Definition get_station (station_id : Z) : http (station_info F) :=
  match get_station_by_id (self_G metro_service) station_id with
  | None => HTTPException 404 (Message (str "Station not found"))
  | Some station => Success station
  end.

(** The body of [GET /api/search]: ["data"] and ["count"]. *)
Record search_body : Type := {
  results : list (station_info F);
  count : Z
}.

(** [GET /api/search?q=...]: an exception of the service becomes a 500. *)
Definition search_stations (q : pystr) : http search_body :=
  if match q with [] => true | _ :: _ => false end || (Z.of_nat (List.length q) <? 2)
  then HTTPException 400 (Message (str "Query must be at least 2 characters"))
  else match search_stations (self_G metro_service) q with
       | Ok results => Success {| results := results;
                                  count := Z.of_nat (List.length results) |}
       | Raise e => HTTPException 500 (str_of e)
       end.

(** [POST /api/route]. *)
Definition calculate_route (source_id target_id : Z) : http (route F) :=
  match find_shortest_path (self_G metro_service) source_id target_id with
  | None => HTTPException 404 (Message (str "No route found between the specified stations"))
  | Some result => Success result
  end.

(** The body of [GET /api/stats]. *)
Record stats : Type := {
  total_lines : Z;
  total_stations : Z;
  lines : list (pystr * Z)
}.

(** [GET /api/stats]. *)
Definition get_stats : http stats :=
  let stations := get_all_stations metro_service in
  let total_stations :=
    fold_left Z.add (map (fun line_stations => Z.of_nat (List.length line_stations))
                         (map snd stations)) 0 in
  Success {| total_lines := Z.of_nat (List.length stations);
             total_stations := total_stations;
             lines := map (fun ls => (fst ls, Z.of_nat (List.length (snd ls)))) stations |}.

(** [GET /api/stations] and [GET /api/lines] hand out the two dicts. *)
Definition get_all_stations : http (catalog F) :=
  Success (get_all_stations metro_service).

Definition get_all_lines : http (list (pystr * pystr)) :=
  Success (get_all_lines metro_service).

End Endpoints.
End main.

(* ------------------------------------------------------------------ *)
(** ** Answers of the remote API to try the loader on *)

(** A record of the line M2 with all its keys. *)
Definition api_taksim {F : Type} : api_station F :=
  {| LineName := Some (str "M2"); Name := Some (str "TAKSIM");
     DetailInfo := Some {| Latitude := Some (CStr (str "41.0370"));
                           Longitude := Some (CStr (str "28.9850")) |};
     Id := Some 24; Order := Some 7 |}.



(** The dict of [__init__] with one station loaded on the line M6. *)
Definition one_station_M6 {F : Type} : catalog F :=
  set_line (str "M6") [row (str "LEVENT") "41.0" "29.0" 1 1 "M6"] empty_lines.

(* ================================================================== *)
(** * Proofs *)

(** ** Dictionaries *)

Section ODictFacts.
Context {V : Type}.
Implicit Types (d : odict V) (k : Z) (v : V).

Lemma mem_In (x : Z) (l : list Z) : mem x l = true <-> In x l.
Proof.
  unfold mem. rewrite existsb_exists. split.
  - intros [y [Hy Heq]]. apply Z.eqb_eq in Heq. now subst.
  - intros Hx. exists x. split; [assumption | apply Z.eqb_refl].
Qed.

Lemma mem_false (x : Z) (l : list Z) : mem x l = false <-> ~ In x l.
Proof.
  rewrite <- mem_In. destruct (mem x l); split; intros; congruence.
Qed.

Lemma nodupb_NoDup (l : list Z) : nodupb l = true -> NoDup l.
Proof.
  induction l as [| x l IH]; simpl; intros Hn; constructor.
  - apply andb_prop in Hn as [Hx _]. apply negb_true_iff, mem_false in Hx. exact Hx.
  - apply IH. now apply andb_prop in Hn as [_ Hn].
Qed.

Lemma od_get_In d k v : od_get k d = Some v -> In (k, v) d.
Proof.
  induction d as [| [k' v'] d IH]; simpl; [discriminate |].
  destruct (Z.eqb_spec k k') as [-> | Hne].
  - intros [= ->]. now left.
  - intros Hg. right. now apply IH.
Qed.

Lemma od_get_In_key d k v : od_get k d = Some v -> In k (od_keys d).
Proof.
  intros Hg. apply od_get_In in Hg. now apply (in_map fst) in Hg.
Qed.

Lemma od_get_None d k : od_get k d = None <-> ~ In k (od_keys d).
Proof.
  induction d as [| [k' v'] d IH]; simpl.
  - tauto.
  - destruct (Z.eqb_spec k k') as [-> | Hne].
    + split; [discriminate | intros Hn; exfalso; apply Hn; now left].
    + rewrite IH. split; intros Hn; [intros [He | Hi]; [congruence | tauto] | tauto].
Qed.

Lemma od_mem_In d k : od_mem k d = true <-> In k (od_keys d).
Proof.
  unfold od_mem. destruct (od_get k d) as [v |] eqn:Hg.
  - split; [intros _; eapply od_get_In_key; eassumption | reflexivity].
  - apply od_get_None in Hg. split; [discriminate | tauto].
Qed.

Lemma In_od_get d k v : NoDup (od_keys d) -> In (k, v) d -> od_get k d = Some v.
Proof.
  induction d as [| [k' v'] d IH]; simpl; [tauto |].
  intros Hnd [Heq | Hin].
  - injection Heq as -> ->. now rewrite Z.eqb_refl.
  - inversion Hnd as [| ? ? Hk Hnd']; subst.
    destruct (Z.eqb_spec k k') as [-> | Hne].
    + exfalso. apply Hk. now apply (in_map fst) in Hin.
    + now apply IH.
Qed.

Lemma od_get_set_eq d k v : od_get k (od_set k v d) = Some v.
Proof.
  induction d as [| [k' v'] d IH]; simpl.
  - now rewrite Z.eqb_refl.
  - destruct (Z.eqb_spec k k') as [-> | Hne]; simpl.
    + now rewrite Z.eqb_refl.
    + destruct (Z.eqb_spec k k'); [contradiction | exact IH].
Qed.

Lemma od_get_set_neq d k k' v : k' <> k -> od_get k' (od_set k v d) = od_get k' d.
Proof.
  intros Hne. induction d as [| [k0 v0] d IH]; simpl.
  - destruct (Z.eqb_spec k' k); [contradiction | reflexivity].
  - destruct (Z.eqb_spec k k0) as [-> | Hne0]; simpl.
    + destruct (Z.eqb_spec k' k0); [contradiction | reflexivity].
    + now rewrite IH.
Qed.

Lemma od_get_set d k k' v :
  od_get k' (od_set k v d) = if k' =? k then Some v else od_get k' d.
Proof.
  destruct (Z.eqb_spec k' k) as [-> | Hne].
  - apply od_get_set_eq.
  - now apply od_get_set_neq.
Qed.

Lemma od_mem_set d k k' v : od_mem k' (od_set k v d) = (k' =? k) || od_mem k' d.
Proof.
  unfold od_mem. rewrite od_get_set. now destruct (k' =? k).
Qed.

Lemma od_keys_set d k v :
  od_keys (od_set k v d) = if od_mem k d then od_keys d else od_keys d ++ [k].
Proof.
  unfold od_mem. induction d as [| [k' v'] d IH]; simpl; [reflexivity |].
  destruct (Z.eqb_spec k k') as [-> | Hne]; simpl; [reflexivity |].
  rewrite IH. now destruct (od_get k d).
Qed.

Lemma od_set_NoDup d k v : NoDup (od_keys d) -> NoDup (od_keys (od_set k v d)).
Proof.
  intros Hnd. rewrite od_keys_set. destruct (od_mem k d) eqn:Hm; [assumption |].
  apply NoDup_app; [assumption | repeat constructor; simpl; tauto |].
  intros x Hx [<- | []].
  apply od_mem_In in Hx. congruence.
Qed.

Lemma od_set_In d k v k' v' :
  In (k', v') (od_set k v d) -> (k', v') = (k, v) \/ In (k', v') d.
Proof.
  induction d as [| [k0 v0] d IH]; simpl.
  - intros [He | []]. now left.
  - destruct (Z.eqb_spec k k0) as [-> | Hne]; simpl.
    + intros [He | Hi]; [now left | right; now right].
    + intros [He | Hi]; [right; now left |].
      destruct (IH Hi); [now left | right; now right].
Qed.

End ODictFacts.

(** ** The order on distances *)

Section OrderFacts.
Context {F : Type} {PF : FloatOps F}.
Hypothesis FO : FloatOrder F.

Lemma fle_refl (x : F) : fle x x = true.
Proof. destruct (fle_total F FO x x); assumption. Qed.

Lemma flt_fle (x y : F) : flt x y = true -> fle x y = true.
Proof.
  intros Hlt. destruct (fle_total F FO x y) as [H | H]; [assumption |].
  unfold fle in H. rewrite Hlt in H. discriminate.
Qed.

Lemma not_flt_fle (x y : F) : flt x y = false -> fle y x = true.
Proof. intros Hlt. unfold fle. now rewrite Hlt. Qed.

End OrderFacts.

(** ** The search: choosing the next node *)

Section PopMin.
Context {F : Type} {PF : FloatOps F}.
Hypothesis FO : FloatOrder F.
Implicit Types (U : list Z) (seen : odict (entry F)).

Lemma pop_min_In U seen v en :
  pop_min U seen = Some (v, en) -> In (v, en) seen /\ In v U.
Proof.
  revert v en. induction seen as [| [u eu] seen IH]; simpl; [discriminate |].
  intros v en. destruct (mem u U) eqn:Hu.
  - destruct (pop_min U seen) as [[v' en'] |] eqn:Hp.
    + destruct (flt (e_dist en') (e_dist eu)).
      * intros [= -> ->]. destruct (IH _ _ eq_refl). split; [now right | assumption].
      * intros [= -> ->]. apply mem_In in Hu. split; [now left | assumption].
    + intros [= -> ->]. apply mem_In in Hu. split; [now left | assumption].
  - intros Hp. destruct (IH _ _ Hp). split; [now right | assumption].
Qed.

Lemma pop_min_None U seen :
  pop_min U seen = None -> forall u eu, In (u, eu) seen -> ~ In u U.
Proof.
  induction seen as [| [u0 e0] seen IH]; simpl; [tauto |].
  intros Hp u eu [Heq | Hin] HU.
  - injection Heq as -> ->. apply mem_In in HU. rewrite HU in Hp.
    destruct (pop_min U seen) as [[? ?] |]; [destruct (flt _ _) |]; discriminate.
  - destruct (mem u0 U).
    + destruct (pop_min U seen) as [[? ?] |]; [destruct (flt _ _) |]; discriminate.
    + eapply IH; eauto.
Qed.

Lemma pop_min_least U seen v en :
  pop_min U seen = Some (v, en) ->
  forall u eu, In (u, eu) seen -> In u U -> fle (e_dist en) (e_dist eu) = true.
Proof.
  revert v en. induction seen as [| [u0 e0] seen IH]; simpl; [discriminate |].
  intros v en Hp u eu [Heq | Hin] HU.
  - injection Heq as -> ->. apply mem_In in HU. rewrite HU in Hp.
    destruct (pop_min U seen) as [[v' en'] |].
    + destruct (flt (e_dist en') (e_dist eu)) eqn:Hlt.
      * injection Hp as -> ->. now apply flt_fle.
      * injection Hp as -> ->. now apply fle_refl.
    + injection Hp as -> ->. now apply fle_refl.
  - destruct (mem u0 U).
    + destruct (pop_min U seen) as [[v' en'] |] eqn:Hq.
      * destruct (flt (e_dist en') (e_dist e0)) eqn:Hlt.
        -- injection Hp as -> ->. eapply IH; eauto.
        -- injection Hp as -> ->.
           apply (fle_trans F FO) with (e_dist en').
           ++ now apply not_flt_fle.
           ++ eapply IH; eauto.
      * exfalso. eapply pop_min_None; eauto.
    + eapply IH; eauto.
Qed.

Lemma pop_min_nil seen : pop_min [] seen = None.
Proof. induction seen as [| [u e] seen IH]; simpl; [reflexivity | exact IH]. Qed.

End PopMin.

(** ** The search: relaxing the neighbours of a node *)

Section Relax.
Context {F : Type} {PF : FloatOps F}.
Hypothesis FO : FloatOrder F.
Variables (d : F) (p : list Z) (U : list Z).
Implicit Types (nbrs : odict (edge_attrs F)) (seen : odict (entry F)).

Lemma relax_cons u e nbrs seen :
  relax d p U ((u, e) :: nbrs) seen = relax d p U nbrs (relax1 d p U u e seen).
Proof. reflexivity. Qed.

Lemma relax1_cases u e seen :
  relax1 d p U u e seen = seen \/
  (relax1 d p U u e seen = od_set u (extend d p u e) seen /\ In u U /\
   forall old, od_get u seen = Some old -> flt (fadd d (weight e)) (e_dist old) = true).
Proof.
  unfold relax1. destruct (mem u U) eqn:Hu; simpl; [| now left].
  apply mem_In in Hu.
  destruct (od_get u seen) as [old |] eqn:Hg.
  - destruct (flt (fadd d (weight e)) (e_dist old)) eqn:Hlt; [| now left].
    right. repeat split; try assumption. now intros ? [= <-].
  - right. repeat split; try assumption. discriminate.
Qed.

Lemma relax_other nbrs seen k :
  ~ In k U -> od_get k (relax d p U nbrs seen) = od_get k seen.
Proof.
  intros Hk. revert seen. induction nbrs as [| [u e] nbrs IH]; intros seen; [reflexivity |].
  rewrite relax_cons, IH.
  destruct (relax1_cases u e seen) as [-> | (-> & Hu & _)]; [reflexivity |].
  apply od_get_set_neq. congruence.
Qed.

Lemma relax1_decr u e seen k en :
  od_get k seen = Some en ->
  exists en', od_get k (relax1 d p U u e seen) = Some en' /\ fle (e_dist en') (e_dist en) = true.
Proof.
  intros Hg.
  destruct (relax1_cases u e seen) as [-> | (-> & Hu & Hlt)].
  - exists en. split; [assumption | now apply fle_refl].
  - rewrite od_get_set. destruct (Z.eqb_spec k u) as [-> | Hne].
    + exists (extend d p u e). split; [reflexivity |]. apply (flt_fle FO). now apply Hlt.
    + exists en. split; [assumption | now apply fle_refl].
Qed.

Lemma relax_decr nbrs seen k en :
  od_get k seen = Some en ->
  exists en', od_get k (relax d p U nbrs seen) = Some en' /\
              fle (e_dist en') (e_dist en) = true.
Proof.
  revert seen en. induction nbrs as [| [u e] nbrs IH]; intros seen en Hg.
  - exists en. split; [assumption | now apply fle_refl].
  - rewrite relax_cons.
    destruct (relax1_decr u e seen k en Hg) as (en1 & Hg1 & Hle1).
    destruct (IH _ _ Hg1) as (en2 & Hg2 & Hle2).
    exists en2. split; [assumption |]. now apply (fle_trans F FO) with (e_dist en1).
Qed.

Lemma relax_origin nbrs seen k en :
  od_get k (relax d p U nbrs seen) = Some en ->
  od_get k seen = Some en \/ exists e, In (k, e) nbrs /\ en = extend d p k e.
Proof.
  revert seen. induction nbrs as [| [u e] nbrs IH]; intros seen Hg; [now left |].
  rewrite relax_cons in Hg. destruct (IH _ Hg) as [Hg1 | (e' & Hin & ->)].
  - destruct (relax1_cases u e seen) as [Heq | (Heq & _)]; rewrite Heq in Hg1.
    + now left.
    + rewrite od_get_set in Hg1. destruct (Z.eqb_spec k u) as [-> | Hne].
      * injection Hg1 as <-. right. exists e. split; [now left | reflexivity].
      * now left.
  - right. exists e'. split; [now right | reflexivity].
Qed.

Lemma relax1_done u e seen :
  In u U ->
  exists en, od_get u (relax1 d p U u e seen) = Some en /\
             fle (e_dist en) (fadd d (weight e)) = true.
Proof.
  intros Hu. unfold relax1. apply mem_In in Hu. rewrite Hu. simpl.
  destruct (od_get u seen) as [old |] eqn:Hg.
  - destruct (flt (fadd d (weight e)) (e_dist old)) eqn:Hlt.
    + exists (extend d p u e). split; [apply od_get_set_eq | now apply fle_refl].
    + exists old. split; [assumption | now apply not_flt_fle].
  - exists (extend d p u e). split; [apply od_get_set_eq | now apply fle_refl].
Qed.

Lemma relax_done nbrs seen u e :
  In (u, e) nbrs -> In u U ->
  exists en, od_get u (relax d p U nbrs seen) = Some en /\
             fle (e_dist en) (fadd d (weight e)) = true.
Proof.
  intros Hin Hu. revert seen. induction nbrs as [| [u0 e0] nbrs IH]; intros seen; [destruct Hin |].
  rewrite relax_cons. destruct Hin as [Heq | Hin].
  - injection Heq as -> ->.
    destruct (relax1_done u e seen Hu) as (en1 & Hg1 & Hle1).
    destruct (relax_decr nbrs _ _ _ Hg1) as (en2 & Hg2 & Hle2).
    exists en2. split; [assumption |]. now apply (fle_trans F FO) with (e_dist en1).
  - now apply IH.
Qed.

Lemma relax_NoDup nbrs seen :
  NoDup (od_keys seen) -> NoDup (od_keys (relax d p U nbrs seen)).
Proof.
  revert seen. induction nbrs as [| [u e] nbrs IH]; intros seen Hnd; [assumption |].
  rewrite relax_cons. apply IH.
  destruct (relax1_cases u e seen) as [-> | (-> & _)]; [assumption | now apply od_set_NoDup].
Qed.

End Relax.

(** ** Well-formed graphs *)

Section GraphFacts.
Context {F : Type} {PF : FloatOps F}.
Variable G : Graph F.

Lemma has_node_In n : has_node G n = true <-> In n (od_keys (_node G)).
Proof. apply od_mem_In. Qed.

Lemma edge_In_neighbors v u e :
  get_edge_data G v u = Some e -> In (u, e) (neighbors G v).
Proof. apply od_get_In. Qed.

Lemma neighbors_In_adj v u e :
  In (u, e) (neighbors G v) -> In (v, neighbors G v) (_adj G).
Proof.
  unfold neighbors. destruct (od_get v (_adj G)) as [nbrs |] eqn:Hg; [| intros []].
  intros _. now apply od_get_In.
Qed.

Hypothesis Hok : graph_ok G = true.

Lemma neighbors_ok v u e :
  In (u, e) (neighbors G v) -> adj_ok G v (neighbors G v) = true.
Proof.
  intros Hin. apply neighbors_In_adj in Hin.
  unfold graph_ok in Hok. apply andb_prop in Hok as [Hadj _].
  rewrite forallb_forall in Hadj. exact (Hadj _ Hin).
Qed.

Lemma neighbors_NoDup v : NoDup (od_keys (neighbors G v)).
Proof.
  destruct (neighbors G v) as [| [u e] nbrs] eqn:Hn; [constructor |].
  rewrite <- Hn. assert (Hin : In (u, e) (neighbors G v)) by (rewrite Hn; now left).
  apply neighbors_ok in Hin. unfold adj_ok in Hin.
  apply andb_prop in Hin as [Hin _]. apply andb_prop in Hin as [_ Hnd].
  now apply nodupb_NoDup.
Qed.

Lemma neighbors_In_edge v u e :
  In (u, e) (neighbors G v) -> get_edge_data G v u = Some e.
Proof. intros Hin. apply In_od_get; [apply neighbors_NoDup | assumption]. Qed.

Lemma edge_has_node v u e :
  get_edge_data G v u = Some e -> has_node G v = true /\ has_node G u = true.
Proof.
  intros He. apply edge_In_neighbors in He. pose proof (neighbors_ok _ _ _ He) as Hadj.
  unfold adj_ok in Hadj. apply andb_prop in Hadj as [Hadj Hall].
  apply andb_prop in Hadj as [Hv _]. split; [assumption |].
  rewrite forallb_forall in Hall. exact (Hall _ He).
Qed.

Lemma node_data_ok n : has_node G n = true -> exists a, node_data G n = Ok a.
Proof.
  unfold has_node, od_mem, node_data, nodes_getitem.
  destruct (od_get n (_node G)) as [a |] eqn:Hg; [| discriminate]. intros _.
  unfold graph_ok in Hok. apply andb_prop in Hok as [_ Hattrs].
  rewrite forallb_forall in Hattrs. specialize (Hattrs _ (od_get_In _ _ _ Hg)).
  simpl in Hattrs. destruct a as [a |]; [| discriminate]. now exists a.
Qed.

Lemma edge_nonneg v u e :
  nonneg_weights G = true -> get_edge_data G v u = Some e ->
  fle (of_int 0) (weight e) = true.
Proof.
  intros Hnn He. apply edge_In_neighbors in He.
  unfold nonneg_weights in Hnn. rewrite forallb_forall in Hnn.
  specialize (Hnn _ (neighbors_In_adj _ _ _ He)). simpl in Hnn.
  rewrite forallb_forall in Hnn. exact (Hnn _ He).
Qed.

End GraphFacts.

(** ** Paths *)

Section PathFacts.
Context {F : Type} {PF : FloatOps F}.
Variable G : Graph F.

Lemma last_cons_default (x y : Z) l : last (x :: l) y = last l x.
Proof.
  revert x y. induction l as [| z l IH]; intros x y; [reflexivity |].
  change (last (x :: z :: l) y) with (last (z :: l) y). now rewrite !IH.
Qed.

Lemma walk_app acc x l1 l2 :
  walk G acc x (l1 ++ l2) =
  match walk G acc x l1 with
  | Some acc' => walk G acc' (last l1 x) l2
  | None => None
  end.
Proof.
  revert acc x. induction l1 as [| y l1 IH]; intros acc x; [reflexivity |].
  rewrite last_cons_default. simpl.
  destruct (get_edge_data G x y) as [e |]; [| reflexivity].
  apply IH.
Qed.

Lemma reach_path s v p d : reach G s v p d -> path_between G s v p d.
Proof.
  induction 1 as [| v p d u e Hr (Hhd & Hlast & Hw) He].
  - repeat split.
  - destruct p as [| x rest]; [discriminate |]. injection Hhd as ->.
    rewrite last_cons_default in Hlast. unfold path_weight in Hw.
    change ((s :: rest) ++ [u]) with (s :: (rest ++ [u])).
    split; [reflexivity | split].
    + rewrite last_cons_default. apply last_last.
    + unfold path_weight. rewrite walk_app, Hw. simpl. now rewrite Hlast, He.
Qed.

Lemma path_reach s v p d : path_between G s v p d -> reach G s v p d.
Proof.
  intros (Hhd & Hlast & Hw). destruct p as [| x rest]; [discriminate |].
  injection Hhd as ->. rewrite last_cons_default in Hlast. simpl in Hw.
  revert v d Hlast Hw. induction rest as [| u rest IH] using rev_ind; intros v d Hlast Hw.
  - simpl in *. injection Hw as <-. subst. constructor.
  - rewrite last_last in Hlast. subst u. rewrite walk_app in Hw.
    destruct (walk G (of_int 0) s rest) as [d' |] eqn:Hw'; [| discriminate].
    simpl in Hw. destruct (get_edge_data G (last rest s) v) as [e |] eqn:He; [| discriminate].
    injection Hw as <-.
    change (s :: rest ++ [v]) with ((s :: rest) ++ [v]).
    eapply reach_step; [apply IH; reflexivity | exact He].
Qed.

Lemma reach_has_node s v p d :
  graph_ok G = true -> has_node G s = true -> reach G s v p d -> has_node G v = true.
Proof.
  intros Hok Hs. induction 1 as [| v p d u e _ _ He]; [assumption |].
  now apply (edge_has_node G Hok) in He.
Qed.

End PathFacts.

(** ** The search: its invariant *)

Section Dijkstra.
Context {F : Type} {PF : FloatOps F}.
Hypothesis FO : FloatOrder F.
Variables (G : Graph F) (s : Z).
Hypothesis Hok : graph_ok G = true.
Hypothesis Hnn : nonneg_weights G = true.
Hypothesis Hs : has_node G s = true.
Implicit Types (U : list Z) (seen : odict (entry F)).

Lemma Inv_init :
  Inv G s (od_keys (_node G)) [(s, {| e_dist := of_int 0; e_path := [s] |})].
Proof.
  assert (Hin : In s (od_keys (_node G))) by now apply has_node_In.
  constructor.
  - repeat constructor. simpl. tauto.
  - intros v en. simpl. destruct (Z.eqb_spec v s) as [-> | _]; [| discriminate].
    intros [= <-]. constructor.
  - eexists. simpl. rewrite Z.eqb_refl. split; [reflexivity | now apply fle_refl].
  - intros v Hv Hn. apply has_node_In in Hv. contradiction.
  - intros v en. simpl. destruct (Z.eqb_spec v s) as [-> | _]; [| discriminate].
    intros _ Hn. contradiction.
  - intros v en. simpl. destruct (Z.eqb_spec v s) as [-> | _]; [| discriminate].
    intros _ Hn. contradiction.
Qed.

(** Every path that ends outside the finalised nodes weighs at least as
    much as the entry the search picks next. *)
Lemma pop_min_bound U seen v en :
  Inv G s U seen -> pop_min U seen = Some (v, en) ->
  forall x p d, reach G s x p d -> In x U -> fle (e_dist en) d = true.
Proof.
  intros HI Hp.
  assert (Hleast : forall u eu, od_get u seen = Some eu -> In u U ->
                   fle (e_dist en) (e_dist eu) = true).
  { intros u eu Hg HU.
    apply (pop_min_least FO _ _ _ _ Hp u eu); [now apply od_get_In | assumption]. }
  induction 1 as [| x p d u e Hr IH He]; intros HU.
  - destruct (inv_src _ _ _ _ HI) as (es & Hgs & Hles).
    apply (fle_trans F FO) with (e_dist es); [now apply (Hleast s es) | assumption].
  - destruct (in_dec Z.eq_dec x U) as [Hx | Hx].
    + apply (fle_trans F FO) with d; [now apply IH |].
      apply (fadd_infl F FO). now apply (edge_nonneg G x u e).
    + assert (Hxn : has_node G x = true) by now apply (reach_has_node G s x p d).
      pose proof (inv_fin _ _ _ _ HI x Hxn Hx) as Hm. unfold od_mem in Hm.
      destruct (od_get x seen) as [ex |] eqn:Hgx; [| discriminate].
      destruct (inv_rel _ _ _ _ HI x ex Hgx Hx u e He) as (eu & Hgu & Hleu).
      apply (fle_trans F FO) with (e_dist eu); [now apply (Hleast u eu) |].
      apply (fle_trans F FO) with (fadd (e_dist ex) (weight e)); [assumption |].
      apply (fadd_mono F FO). now apply (inv_opt _ _ _ _ HI x ex Hgx Hx p d).
Qed.

Lemma In_remove_iff (x v : Z) U : In x (remove Z.eq_dec v U) <-> In x U /\ x <> v.
Proof.
  split.
  - intros Hin. apply in_remove in Hin. exact Hin.
  - intros [Hin Hne]. now apply in_in_remove.
Qed.

Lemma Inv_step U seen v en :
  Inv G s U seen -> pop_min U seen = Some (v, en) ->
  Inv G s (remove Z.eq_dec v U)
      (relax (e_dist en) (e_path en) (remove Z.eq_dec v U) (neighbors G v) seen).
Proof.
  intros HI Hp.
  destruct (pop_min_In _ _ _ _ Hp) as [Hin HvU].
  assert (Hgv : od_get v seen = Some en)
    by (apply In_od_get; [exact (inv_nodup _ _ _ _ HI) | exact Hin]).
  pose proof (inv_valid _ _ _ _ HI v en Hgv) as Hrv.
  set (U' := remove Z.eq_dec v U).
  assert (Hsplit : forall x, ~ In x U' -> x = v \/ ~ In x U).
  { intros x Hx. destruct (Z.eq_dec x v) as [-> | Hne]; [now left | right].
    intros HxU. apply Hx. unfold U'. now apply In_remove_iff. }
  assert (HvU' : ~ In v U').
  { unfold U'. intros H. apply In_remove_iff in H. now destruct H. }
  constructor.
  - apply relax_NoDup. exact (inv_nodup _ _ _ _ HI).
  - intros x ex Hg. apply relax_origin in Hg as [Hg | (e & Hine & ->)].
    + exact (inv_valid _ _ _ _ HI x ex Hg).
    + simpl. eapply reach_step; [exact Hrv |]. now apply neighbors_In_edge.
  - destruct (inv_src _ _ _ _ HI) as (es & Hgs & Hles).
    destruct (relax_decr FO (e_dist en) (e_path en) U' (neighbors G v) seen s es Hgs)
      as (es' & Hgs' & Hles').
    exists es'. split; [assumption |]. now apply (fle_trans F FO) with (e_dist es).
  - intros x Hxn Hx. unfold od_mem.
    assert (Hold : exists ex, od_get x seen = Some ex).
    { destruct (Hsplit x Hx) as [-> | HxU]; [now exists en |].
      pose proof (inv_fin _ _ _ _ HI x Hxn HxU) as Hm. unfold od_mem in Hm.
      destruct (od_get x seen) as [ex |]; [now exists ex | discriminate]. }
    destruct Hold as (ex & Hgx).
    destruct (relax_decr FO (e_dist en) (e_path en) U' (neighbors G v) seen x ex Hgx)
      as (ex' & -> & _). reflexivity.
  - intros x ex Hg Hx p d Hr. rewrite relax_other in Hg by assumption.
    destruct (Hsplit x Hx) as [-> | HxU].
    + rewrite Hgv in Hg. injection Hg as <-.
      now apply (pop_min_bound U seen v en HI Hp v p d).
    + now apply (inv_opt _ _ _ _ HI x ex Hg HxU p d).
  - intros x ex Hg Hx u e He. rewrite relax_other in Hg by assumption.
    destruct (Hsplit x Hx) as [-> | HxU].
    + rewrite Hgv in Hg. injection Hg as <-.
      destruct (in_dec Z.eq_dec u U') as [Hu | Hu].
      * apply (relax_done FO); [now apply edge_In_neighbors | assumption].
      * rewrite relax_other by assumption.
        assert (Hru : reach G s u (e_path en ++ [u]) (fadd (e_dist en) (weight e)))
          by (eapply reach_step; eassumption).
        destruct (Hsplit u Hu) as [-> | HuU].
        -- exists en. split; [assumption |].
           apply (fadd_infl F FO). now apply (edge_nonneg G v v e).
        -- assert (Hun : has_node G u = true) by now apply (edge_has_node G Hok v u e).
           pose proof (inv_fin _ _ _ _ HI u Hun HuU) as Hm. unfold od_mem in Hm.
           destruct (od_get u seen) as [eu |] eqn:Hgu; [| discriminate].
           exists eu. split; [reflexivity |].
           exact (inv_opt _ _ _ _ HI u eu Hgu HuU _ _ Hru).
    + destruct (inv_rel _ _ _ _ HI x ex Hg HxU u e He) as (eu & Hgu & Hleu).
      destruct (relax_decr FO (e_dist en) (e_path en) U' (neighbors G v) seen u eu Hgu)
        as (eu' & Hgu' & Hleu').
      exists eu'. split; [assumption |]. now apply (fle_trans F FO) with (e_dist eu).
Qed.

End Dijkstra.

(** ** The search: what holds of every entry *)

Section Entries.
Context {F : Type} {PF : FloatOps F}.
Variables (G : Graph F) (P : Z -> entry F -> Prop).
Implicit Types (U : list Z) (seen : odict (entry F)).

Lemma relax_entries d p U nbrs seen :
  all_entries P seen ->
  (forall u e, In (u, e) nbrs -> P u (extend d p u e)) ->
  all_entries P (relax d p U nbrs seen).
Proof.
  revert seen. induction nbrs as [| [u e] nbrs IH]; intros seen Hall Hnew; [assumption |].
  rewrite relax_cons. apply IH.
  - destruct (relax1_cases d p U u e seen) as [-> | (-> & _)]; [assumption |].
    intros k en Hin. apply od_set_In in Hin as [[= -> ->] | Hin].
    + apply Hnew. now left.
    + now apply Hall.
  - intros u' e' Hin. apply Hnew. now right.
Qed.

Hypothesis Pstep :
  forall v en u e, P v en -> In (u, e) (neighbors G v) ->
                   P u (extend (e_dist en) (e_path en) u e).

Lemma loop_entries fuel U seen :
  all_entries P seen -> all_entries P (dijkstra_loop fuel G U seen).
Proof.
  revert U seen. induction fuel as [| fuel IH]; intros U seen Hall; [assumption |].
  simpl. destruct (pop_min U seen) as [[v en] |] eqn:Hp; [| assumption].
  apply IH. apply relax_entries; [assumption |].
  intros u e Hin. apply (Pstep v en u e); [| assumption].
  apply Hall. now apply (pop_min_In U seen v en).
Qed.

Lemma dijkstra_entries s :
  P s {| e_dist := of_int 0; e_path := [s] |} ->
  forall t en, od_get t (dijkstra G s) = Some en -> P t en.
Proof.
  intros Hs t en Hg. apply od_get_In in Hg. revert t en Hg.
  apply loop_entries. intros k en [[= <- <-] | []]. exact Hs.
Qed.

End Entries.

(** ** The search: its result *)

Section DijkstraResult.
Context {F : Type} {PF : FloatOps F}.
Variables (G : Graph F) (s : Z).
Hypothesis Hok : graph_ok G = true.
Implicit Types (U : list Z) (seen : odict (entry F)).

(** Every entry of the table is a path of the graph with its weight. *)
Lemma dijkstra_valid t en :
  od_get t (dijkstra G s) = Some en -> reach G s t (e_path en) (e_dist en).
Proof.
  apply (dijkstra_entries G (fun k e => reach G s k (e_path e) (e_dist e))).
  - intros v ev u e Hv Hin. simpl. eapply reach_step; [exact Hv |].
    now apply neighbors_In_edge.
  - constructor.
Qed.

Hypothesis FO : FloatOrder F.
Hypothesis Hnn : nonneg_weights G = true.
Hypothesis Hs : has_node G s = true.

Lemma loop_final fuel U seen :
  (List.length U <= fuel)%nat -> Inv G s U seen ->
  exists U', Inv G s U' (dijkstra_loop fuel G U seen) /\
             pop_min U' (dijkstra_loop fuel G U seen) = None.
Proof.
  revert U seen. induction fuel as [| fuel IH]; intros U seen Hlen HI.
  - destruct U; [| simpl in Hlen; lia]. exists []. split; [assumption | apply pop_min_nil].
  - simpl. destruct (pop_min U seen) as [[v en] |] eqn:Hp.
    + apply IH.
      * destruct (pop_min_In _ _ _ _ Hp) as [_ HvU].
        pose proof (remove_length_lt Z.eq_dec U v HvU). lia.
      * now apply Inv_step.
    + exists U. split; assumption.
Qed.

(** When no candidate is left, every node a path leads to is finalised. *)
Lemma Inv_closed U seen :
  Inv G s U seen -> pop_min U seen = None ->
  forall x p d, reach G s x p d ->
  exists en, od_get x seen = Some en /\ ~ In x U /\ fle (e_dist en) d = true.
Proof.
  intros HI Hp.
  assert (Hout : forall u eu, od_get u seen = Some eu -> ~ In u U).
  { intros u eu Hg. apply (pop_min_None U seen Hp u eu). now apply od_get_In. }
  induction 1 as [| x p d u e Hr (ex & Hgx & HxU & Hlex) He].
  - destruct (inv_src _ _ _ _ HI) as (es & Hgs & Hles).
    exists es. repeat split; [assumption | now apply (Hout s es) | assumption].
  - destruct (inv_rel _ _ _ _ HI x ex Hgx HxU u e He) as (eu & Hgu & Hleu).
    exists eu. repeat split; [assumption | now apply (Hout u eu) |].
    apply (inv_opt _ _ _ _ HI u eu Hgu (Hout u eu Hgu) (p ++ [u])).
    eapply reach_step; eassumption.
Qed.

Lemma dijkstra_complete t p d :
  reach G s t p d ->
  exists en, od_get t (dijkstra G s) = Some en /\ fle (e_dist en) d = true.
Proof.
  intros Hr. unfold dijkstra.
  destruct (loop_final (List.length (_node G)) (od_keys (_node G))
              [(s, {| e_dist := of_int 0; e_path := [s] |})]) as (U' & HI & Hp).
  - unfold od_keys. rewrite length_map. lia.
  - now apply Inv_init.
  - destruct (Inv_closed _ _ HI Hp t p d Hr) as (en & Hg & _ & Hle). now exists en.
Qed.

Lemma reach_nonneg t p d : reach G s t p d -> fle (of_int 0) d = true.
Proof.
  induction 1 as [| v p d u e _ IH He]; [now apply fle_refl |].
  apply (fle_trans F FO) with d; [assumption |].
  apply (fadd_infl F FO). now apply (edge_nonneg G v u e).
Qed.

End DijkstraResult.

(** ** [shortest_path] *)

Section ShortestPath.
Context {F : Type} {PF : FloatOps F}.
Variable G : Graph F.

Lemma shortest_path_ends s t p :
  shortest_path G s t = Ok p -> hd_error p = Some s /\ last p s = t.
Proof.
  unfold shortest_path.
  destruct (negb (has_node G s) || negb (has_node G t)); [discriminate |].
  destruct (Z.eqb_spec s t) as [-> | Hne].
  - intros [= <-]. split; reflexivity.
  - destruct (od_get t (dijkstra G s)) as [en |] eqn:Hg; [| discriminate].
    intros [= <-]. revert Hg.
    apply (dijkstra_entries G
             (fun k e => hd_error (e_path e) = Some s /\ last (e_path e) s = k)).
    + intros v ev u e [Hhd Hlast] _. simpl. split.
      * destruct (e_path ev); [discriminate | exact Hhd].
      * apply last_last.
    + split; reflexivity.
Qed.

Lemma shortest_path_absent s t :
  has_node G s = false \/ has_node G t = false ->
  shortest_path G s t = Raise NodeNotFound.
Proof.
  unfold shortest_path. intros [-> | ->]; [reflexivity |].
  now rewrite orb_true_r.
Qed.

Hypothesis Hok : graph_ok G = true.

Lemma shortest_path_reach s t p :
  shortest_path G s t = Ok p -> exists d, path_between G s t p d.
Proof.
  unfold shortest_path.
  destruct (negb (has_node G s) || negb (has_node G t)); [discriminate |].
  destruct (Z.eqb_spec s t) as [-> | Hne].
  - intros [= <-]. exists (of_int 0). repeat split.
  - destruct (od_get t (dijkstra G s)) as [en |] eqn:Hg; [| discriminate].
    intros [= <-]. exists (e_dist en). apply reach_path. now apply dijkstra_valid.
Qed.

Lemma shortest_path_no_path s t :
  has_node G s = true -> has_node G t = true ->
  (forall p d, ~ path_between G s t p d) ->
  shortest_path G s t = Raise NetworkXNoPath.
Proof.
  intros Hs Ht Hno. unfold shortest_path. rewrite Hs, Ht. simpl.
  destruct (Z.eqb_spec s t) as [-> | Hne].
  - exfalso. apply (Hno [t] (of_int 0)). repeat split.
  - destruct (od_get t (dijkstra G s)) as [en |] eqn:Hg; [| reflexivity].
    exfalso. apply (Hno (e_path en) (e_dist en)). apply reach_path.
    now apply dijkstra_valid.
Qed.

Hypothesis FO : FloatOrder F.
Hypothesis Hnn : nonneg_weights G = true.

Lemma shortest_path_least s t q dq :
  has_node G s = true -> has_node G t = true ->
  path_between G s t q dq ->
  exists p d, shortest_path G s t = Ok p /\ path_between G s t p d /\
              forall q' dq', path_between G s t q' dq' -> fle d dq' = true.
Proof.
  intros Hs Ht Hq. unfold shortest_path. rewrite Hs, Ht. simpl.
  destruct (Z.eqb_spec s t) as [-> | Hne].
  - exists [t], (of_int 0). repeat split.
    intros q' dq' Hq'. apply path_reach in Hq'. eapply reach_nonneg; eassumption.
  - apply path_reach in Hq.
    destruct (dijkstra_complete G s Hok FO Hnn Hs t q dq Hq) as (en & Hg & _).
    rewrite Hg. exists (e_path en), (e_dist en). split; [reflexivity | split].
    + apply reach_path. now apply dijkstra_valid.
    + intros q' dq' Hq'. apply path_reach in Hq'.
      destruct (dijkstra_complete G s Hok FO Hnn Hs t q' dq' Hq') as (en' & Hg' & Hle).
      rewrite Hg in Hg'. injection Hg' as <-. exact Hle.
Qed.

End ShortestPath.

(** ** The loops of [find_shortest_path] *)

Section RouteLoops.
Context {F : Type} {PF : FloatOps F}.
Variable G : Graph F.

Lemma route_loop_cons x y rest td tt acc :
  route_loop G (x :: y :: rest) td tt acc =
  (edge_data <- or_raise TypeError (get_edge_data G x y) ;;
   current_station <- node_data G x ;;
   next_station <- node_data G y ;;
   route_loop G (y :: rest)
     (num_add td (weight edge_data))
     (num_add tt (travel_time_of (weight edge_data)))
     (acc ++ [{| from_id := x; from_name := name current_station;
                 to_id := y; to_name := name next_station;
                 leg_line := edge_line edge_data;
                 distance := fround (weight edge_data) 2;
                 time := fround (travel_time_of (weight edge_data)) 1 |}])).
Proof. reflexivity. Qed.

Lemma edge_weights_cons x y rest e :
  get_edge_data G x y = Some e ->
  edge_weights G (x :: y :: rest) = weight e :: edge_weights G (y :: rest).
Proof. intros He. unfold edge_weights. simpl. now rewrite He. Qed.

Lemma route_loop_spec p td tt acc td' tt' legs :
  route_loop G p td tt acc = Ok (td', tt', legs) ->
  td' = fold_left num_add (edge_weights G p) td /\
  tt' = fold_left num_add (map travel_time_of (edge_weights G p)) tt /\
  exists new, legs = acc ++ new /\ map leg_ends new = pairs p /\
              Forall (leg_of_edge G) new.
Proof.
  revert td tt acc. induction p as [| x rest IH]; intros td tt acc.
  - intros [= <- <- <-]. repeat split. exists []. now rewrite app_nil_r.
  - destruct rest as [| y rest].
    + intros [= <- <- <-]. repeat split. exists []. now rewrite app_nil_r.
    + rewrite route_loop_cons.
      destruct (get_edge_data G x y) as [e |] eqn:He; cbn [bind or_raise]; [| discriminate].
      destruct (node_data G x) as [cur | ]; [| discriminate]. cbn [bind or_raise].
      destruct (node_data G y) as [nxt | ]; [| discriminate]. cbn [bind or_raise].
      intros Hloop. apply IH in Hloop as (-> & -> & new & -> & Hends & Hlegs).
      rewrite (edge_weights_cons x y rest e He). repeat split.
      eexists (_ :: new). rewrite <- app_assoc. split; [reflexivity |]. split.
      * change (pairs (x :: y :: rest)) with ((x, y) :: pairs (y :: rest)).
        rewrite <- Hends. reflexivity.
      * constructor; [| assumption]. exists e. simpl. now rewrite He.
Qed.

Lemma stations_loop_spec p acc sts :
  stations_loop G p acc = Ok sts ->
  exists new, sts = acc ++ new /\ map i_id new = p /\
              Forall (fun i => get_station_by_id G (i_id i) = Some i) new.
Proof.
  revert acc. induction p as [| x rest IH]; intros acc; simpl.
  - intros [= <-]. exists []. now rewrite app_nil_r.
  - destruct (node_data G x) as [a |] eqn:Ha; [| discriminate]. simpl.
    intros Hloop. apply IH in Hloop as (new & -> & Hids & Hall).
    exists (station_dict x a :: new). rewrite <- app_assoc. split; [reflexivity |].
    split; [simpl; now rewrite Hids |].
    constructor; [| assumption]. unfold get_station_by_id. simpl. now rewrite Ha.
Qed.

Hypothesis Hok : graph_ok G = true.

Lemma route_loop_ok rest x a d td tt acc :
  walk G a x rest = Some d -> has_node G x = true ->
  exists res, route_loop G (x :: rest) td tt acc = Ok res.
Proof.
  revert x a td tt acc. induction rest as [| y rest IH]; intros x a td tt acc Hw Hx.
  - eexists. reflexivity.
  - rewrite route_loop_cons. simpl in Hw.
    destruct (get_edge_data G x y) as [e |] eqn:He; [| discriminate]. cbn [bind or_raise].
    destruct (edge_has_node G Hok x y e He) as [_ Hy].
    destruct (node_data_ok G Hok x Hx) as (cur & ->).
    destruct (node_data_ok G Hok y Hy) as (nxt & ->). cbn [bind or_raise].
    eapply IH; eassumption.
Qed.

Lemma stations_loop_ok rest x a d acc :
  walk G a x rest = Some d -> has_node G x = true ->
  exists sts, stations_loop G (x :: rest) acc = Ok sts.
Proof.
  revert x a acc. induction rest as [| y rest IH]; intros x a acc Hw Hx.
  - simpl. destruct (node_data_ok G Hok x Hx) as (cur & ->). simpl. eexists. reflexivity.
  - simpl in Hw. destruct (get_edge_data G x y) as [e |] eqn:He; [| discriminate].
    destruct (edge_has_node G Hok x y e He) as [_ Hy].
    change (stations_loop G (x :: y :: rest) acc)
      with (station_data <- node_data G x ;;
            stations_loop G (y :: rest) (acc ++ [station_dict x station_data])).
    destruct (node_data_ok G Hok x Hx) as (cur & ->). cbn [bind].
    eapply IH; eassumption.
Qed.

End RouteLoops.

Section FindShortestPath.
Context {F : Type} {PF : FloatOps F}.
Variable G : Graph F.

(** A successful answer, taken apart. *)
Lemma find_shortest_path_Some s t r :
  find_shortest_path G s t = Some r ->
  exists td tt sts,
    shortest_path G s t = Ok (path r) /\
    route_loop G (path r) (PyInt 0) (PyInt 0) [] = Ok (td, tt, route_details r) /\
    stations_loop G (path r) [] = Ok sts /\
    r = {| path := path r; stations := sts; route_details := route_details r;
           total_distance := num_round td 2; total_time := num_round tt 1;
           num_stations := Z.of_nat (List.length (path r)) |}.
Proof.
  unfold find_shortest_path, find_shortest_path_body.
  destruct (shortest_path G s t) as [p | e]; simpl; [| destruct e; discriminate].
  destruct (route_loop G p (PyInt 0) (PyInt 0) []) as [[[td tt] legs] | e] eqn:Hlegs;
    simpl; [| destruct e; discriminate].
  destruct (stations_loop G p []) as [sts | e] eqn:Hsts; simpl;
    [| destruct e; discriminate].
  intros [= <-]. simpl. exists td, tt, sts. repeat split; assumption.
Qed.

(** A failure of the path search is answered by [None]. *)
Lemma find_shortest_path_Raise s t e :
  shortest_path G s t = Raise e -> find_shortest_path G s t = None.
Proof.
  unfold find_shortest_path, find_shortest_path_body. intros ->. simpl. now destruct e.
Qed.

(** On a well-formed graph, a path found is always answered. *)
Lemma find_shortest_path_Ok s t p :
  graph_ok G = true -> has_node G s = true ->
  shortest_path G s t = Ok p ->
  exists r, find_shortest_path G s t = Some r /\ path r = p.
Proof.
  intros Hok Hs Hp. unfold find_shortest_path, find_shortest_path_body. rewrite Hp. simpl.
  destruct (shortest_path_reach G Hok s t p Hp) as (d & Hhd & _ & Hw).
  destruct p as [| x rest]; [discriminate |]. injection Hhd as ->. simpl in Hw.
  destruct (route_loop_ok G Hok rest s _ d (PyInt 0) (PyInt 0) [] Hw Hs)
    as ([[td tt] legs] & ->).
  destruct (stations_loop_ok G Hok rest s _ d [] Hw Hs) as (sts & ->). simpl.
  eexists. split; reflexivity.
Qed.

End FindShortestPath.

(** ** The rationals satisfy the order laws *)

Lemma Q_fle (x y : Q) : fle x y = true <-> (x <= y)%Q.
Proof.
  unfold fle. simpl. unfold Q_lt. rewrite negb_involutive. apply Qle_bool_iff.
Qed.

Lemma Q_float_order : FloatOrder Q.
Proof.
  constructor.
  - intros x y. rewrite !Q_fle. destruct (Qlt_le_dec x y) as [Hlt | Hle].
    + left. now apply Qlt_le_weak.
    + now right.
  - intros x y z. rewrite !Q_fle. apply Qle_trans.
  - intros x y w. rewrite !Q_fle. cbn [fadd Q_float]. rewrite !Qred_correct.
    intros Hle. apply Qplus_le_compat; [exact Hle | apply Qle_refl].
  - intros x w. rewrite !Q_fle. cbn [fadd of_int Q_float]. rewrite Qred_correct.
    intros Hw. rewrite <- (Qplus_0_r x) at 1.
    apply Qplus_le_compat; [apply Qle_refl | exact Hw].
Qed.

(* ================================================================== *)
(** * The route planner *)

(** C1.  On a well-formed graph without negative weights, for two ids
    that are nodes of the graph and joined by some path,
    [find_shortest_path] answers with a route whose ['path'] is a path of
    the graph from the source to the target, and no path between the two
    has a smaller sum of edge weights. *)
Theorem find_shortest_path_minimal
  {F : Type} {PF : FloatOps F} (FO : FloatOrder F)
  (G : Graph F) (source_id target_id : Z) :
  graph_ok G = true -> nonneg_weights G = true ->
  has_node G source_id = true -> has_node G target_id = true ->
  (exists q dq, path_between G source_id target_id q dq) ->
  exists r d,
    find_shortest_path G source_id target_id = Some r /\
    path_between G source_id target_id (path r) d /\
    forall q dq, path_between G source_id target_id q dq -> fle d dq = true.
Proof.
  intros Hok Hnn Hs Ht (q & dq & Hq).
  destruct (shortest_path_least G Hok FO Hnn source_id target_id q dq Hs Ht Hq)
    as (p & d & Hp & Hpd & Hleast).
  destruct (find_shortest_path_Ok G source_id target_id p Hok Hs Hp) as (r & Hr & <-).
  exists r, d. repeat split; try assumption; apply Hpd.
Qed.

Lemma find_shortest_path_minimal_witness :
  exists r d,
    find_shortest_path triangle 1 3 = Some r /\
    path_between triangle 1 3 (path r) d /\
    forall q dq, path_between triangle 1 3 q dq -> fle d dq = true.
Proof.
  apply (find_shortest_path_minimal Q_float_order triangle 1 3); try reflexivity.
  exists [1; 3], (4 # 1)%Q. repeat split.
Defined.




(** C3.  In a successful answer every consecutive pair of the path is an
    edge, ['total_distance'] is the sum of the edge weights along the
    path, unrounded, rounded to 2 decimals once at the end, and
    ['total_time'] is the sum of the unrounded leg times rounded to 1
    decimal once at the end. *)
Theorem totals_rounded_once
  {F : Type} {PF : FloatOps F} (G : Graph F) (source_id target_id : Z) (r : route F) :
  find_shortest_path G source_id target_id = Some r ->
  (forall x y, In (x, y) (pairs (path r)) -> get_edge_data G x y <> None) /\
  total_distance r = num_round (num_sum (edge_weights G (path r))) 2 /\
  total_time r = num_round (num_sum (map travel_time_of (edge_weights G (path r)))) 1.
Proof.
  intros Hr.
  destruct (find_shortest_path_Some G _ _ _ Hr) as (td & tt & sts & _ & Hlegs & _ & Heq).
  apply route_loop_spec in Hlegs as (-> & -> & new & _ & Hends & Hall).
  split; [| rewrite Heq; split; reflexivity].
  intros x y Hxy. rewrite <- Hends in Hxy. apply in_map_iff in Hxy as (l & Hl & Hin).
  rewrite Forall_forall in Hall. destruct (Hall l Hin) as (e & He & _).
  unfold leg_ends in Hl. injection Hl as <- <-. congruence.
Qed.

Lemma totals_rounded_once_witness :
  (forall x y, In (x, y) [(1, 2); (2, 3)] -> get_edge_data short_hops x y <> None) /\
  PyFloat (1 # 100)%Q = num_round (num_sum [(4 # 1000)%Q; (4 # 1000)%Q]) 2 /\
  PyFloat (2 # 1)%Q = num_round (num_sum (map travel_time_of [(4 # 1000)%Q; (4 # 1000)%Q])) 1.
Proof.
  exact (totals_rounded_once short_hops 1 3 _ eq_refl).
Defined.

(** The totals are not the sums of the rounded legs: two legs of 4 m are
    each reported as 0.0 km, and the total as 0.01 km. *)
Lemma total_distance_not_sum_of_legs :
  exists r,
    find_shortest_path short_hops 1 3 = Some r /\
    map distance (route_details r) = [0%Q; 0%Q] /\
    total_distance r = PyFloat (1 # 100)%Q.
Proof. eexists. repeat split. Qed.

(** C6.  For a node [x] of a well-formed graph, the route from [x] to
    [x] is the single station [x]: no legs, the totals the int 0, one
    station. *)
Theorem same_station_route
  {F : Type} {PF : FloatOps F} (G : Graph F) (x : Z) :
  graph_ok G = true -> has_node G x = true ->
  exists info,
    get_station_by_id G x = Some info /\
    find_shortest_path G x x =
      Some {| path := [x]; stations := [info]; route_details := [];
              total_distance := PyInt 0; total_time := PyInt 0; num_stations := 1 |}.
Proof.
  intros Hok Hx. destruct (node_data_ok G Hok x Hx) as (a & Ha).
  exists (station_dict x a). unfold get_station_by_id. rewrite Ha. split; [reflexivity |].
  unfold find_shortest_path, find_shortest_path_body, shortest_path.
  rewrite Hx, Z.eqb_refl. simpl. now rewrite Ha.
Qed.

Lemma same_station_route_witness :
  exists info,
    get_station_by_id triangle 2 = Some info /\
    find_shortest_path triangle 2 2 =
      Some {| path := [2]; stations := [info]; route_details := [];
              total_distance := PyInt 0; total_time := PyInt 0; num_stations := 1 |}.
Proof.
  apply (same_station_route triangle 2); reflexivity.
Defined.

Lemma length_pairs (p : list Z) : List.length (pairs p) = (List.length p - 1)%nat.
Proof.
  induction p as [| x [| y rest] IH]; try reflexivity.
  change (pairs (x :: y :: rest)) with ((x, y) :: pairs (y :: rest)).
  simpl List.length in *. rewrite IH. lia.
Qed.

(** C10.  A successful answer is consistent with itself: the path starts
    at the source and ends at the target, ['num_stations'] is its
    length, ['stations'] lists its nodes in order, and ['route_details']
    has one leg for each consecutive pair, from the first of the pair to
    the second. *)
Theorem route_consistent
  {F : Type} {PF : FloatOps F} (G : Graph F) (source_id target_id : Z) (r : route F) :
  find_shortest_path G source_id target_id = Some r ->
  hd_error (path r) = Some source_id /\
  last (path r) source_id = target_id /\
  num_stations r = Z.of_nat (List.length (path r)) /\
  map i_id (stations r) = path r /\
  map leg_ends (route_details r) = pairs (path r) /\
  List.length (route_details r) = (List.length (path r) - 1)%nat.
Proof.
  intros Hr.
  destruct (find_shortest_path_Some G _ _ _ Hr) as (td & tt & sts & Hp & Hlegs & Hsts & Heq).
  destruct (shortest_path_ends G _ _ _ Hp) as [Hhd Hlast].
  apply route_loop_spec in Hlegs as (_ & _ & new & Hnew & Hends & _).
  apply stations_loop_spec in Hsts as (news & -> & Hids & _).
  simpl in Hnew. rewrite <- Hnew in Hends.
  repeat split; try assumption.
  - rewrite Heq. reflexivity.
  - rewrite Heq. simpl. exact Hids.
  - rewrite <- length_pairs, <- Hends. now rewrite length_map.
Qed.

Lemma route_consistent_witness :
  hd_error [1; 2; 3] = Some 1 /\
  last [1; 2; 3] 1 = 3 /\
  3 = Z.of_nat (List.length [1; 2; 3]) /\
  [1; 2; 3] = [1; 2; 3] /\
  [(1, 2); (2, 3)] = pairs [1; 2; 3] /\
  2%nat = (List.length [1; 2; 3] - 1)%nat.
Proof.
  exact (route_consistent triangle 1 3 _ eq_refl).
Defined.

(* ================================================================== *)
(** * Graph construction *)

Section BuildNodes.
Context {F : Type} {PF : FloatOps F}.
Implicit Types (G : Graph F) (st : station F) (ln : pystr).

Lemma add_station_attrs ln G st :
  add_station ln G st = (a <- record_attrs (ln, st) ;; Ok (add_node G (s_id st) a)).
Proof.
  unfold add_station, record_attrs. simpl.
  destruct (float (s_latitude st)); [| reflexivity]. simpl.
  destruct (float (s_longitude st)); reflexivity.
Qed.

Lemma add_records_app rs1 rs2 G :
  add_records (rs1 ++ rs2) G = (G' <- add_records rs1 G ;; add_records rs2 G').
Proof.
  revert G. induction rs1 as [| r rs1 IH]; intros G; simpl; [reflexivity |].
  destruct (record_attrs r); simpl; [apply IH | reflexivity].
Qed.

Lemma add_stations_records ln sts G :
  add_stations ln sts G = add_records (map (pair ln) sts) G.
Proof.
  revert G. induction sts as [| st sts IH]; intros G; simpl; [reflexivity |].
  rewrite add_station_attrs. destruct (record_attrs (ln, st)); simpl; [apply IH | reflexivity].
Qed.

Lemma add_nodes_records (stations : catalog F) G :
  add_nodes stations G = add_records (records stations) G.
Proof.
  revert G. induction stations as [| [ln sts] rest IH]; intros G; simpl; [reflexivity |].
  unfold records. simpl. fold (records rest).
  rewrite add_records_app, add_stations_records.
  destruct (add_records (map (pair ln) sts) G); simpl; [apply IH | reflexivity].
Qed.

Lemma float_raises (c : coord F) e : float c = Raise e -> e = ValueError.
Proof.
  destruct c as [s | x]; simpl; [| discriminate].
  destruct (float_of_str s); simpl; [discriminate | now intros [= <-]].
Qed.

Lemma record_attrs_raises r e : record_attrs r = Raise e -> e = ValueError.
Proof.
  unfold record_attrs.
  destruct (float (s_latitude (snd r))) eqn:Hlat; simpl; [| intros [= <-]; eauto using float_raises].
  destruct (float (s_longitude (snd r))) eqn:Hlng; simpl; [discriminate |].
  intros [= <-]. eauto using float_raises.
Qed.

(** A record whose coordinates cannot be read stops the loop. *)
Lemma add_records_bad rs G r :
  In r rs -> record_attrs r = Raise ValueError ->
  add_records rs G = Raise ValueError.
Proof.
  intros Hin Hbad. revert G. induction rs as [| r0 rs IH]; intros G; [destruct Hin |].
  simpl. destruct (record_attrs r0) as [a | e] eqn:Ha; simpl.
  - destruct Hin as [-> | Hin]; [congruence | now apply IH].
  - now rewrite (record_attrs_raises r0 e Ha).
Qed.

Lemma node_add_node G k a n :
  od_get n (_node (add_node G k a)) = if n =? k then Some (Some a) else od_get n (_node G).
Proof. unfold add_node. destruct (has_node G k); simpl; apply od_get_set. Qed.

Lemma find_snoc {A} (f : A -> bool) (l : list A) (x : A) :
  find f (l ++ [x]) =
  match find f l with
  | Some y => Some y
  | None => if f x then Some x else None
  end.
Proof.
  induction l as [| y l IH]; simpl; [reflexivity |].
  destruct (f y); [reflexivity | exact IH].
Qed.

(** After the first loop a node carries the attributes of the last
    record read for its id; an id with no record is as it was. *)
Lemma add_records_node rs G G' n :
  add_records rs G = Ok G' ->
  match find (fun r => s_id (snd r) =? n) (rev rs) with
  | Some r => exists a, record_attrs r = Ok a /\ od_get n (_node G') = Some (Some a)
  | None => od_get n (_node G') = od_get n (_node G)
  end.
Proof.
  revert G. induction rs as [| r rs IH]; intros G; simpl.
  - now intros [= <-].
  - destruct (record_attrs r) as [a |] eqn:Ha; simpl; [| discriminate].
    intros Hrest. specialize (IH _ Hrest). rewrite find_snoc.
    destruct (find (fun r0 => s_id (snd r0) =? n) (rev rs)) as [r' |]; [exact IH |].
    rewrite IH, node_add_node. rewrite (Z.eqb_sym n).
    destruct (s_id (snd r) =? n); [now exists a | reflexivity].
Qed.

End BuildNodes.

Section WellFormed.
Context {F : Type} {PF : FloatOps F}.
Implicit Types (G : Graph F) (nbrs : odict (edge_attrs F)).

Lemma NoDup_nodupb (l : list Z) : NoDup l -> nodupb l = true.
Proof.
  induction 1 as [| x l Hx _ IH]; simpl; [reflexivity |].
  rewrite IH, andb_true_r. apply negb_true_iff. now apply mem_false.
Qed.

Lemma graph_ok_iff G : graph_ok G = true <-> graph_okP G.
Proof.
  unfold graph_ok, graph_okP, adj_ok, nbrs_ok.
  rewrite andb_true_iff, !forallb_forall. split.
  - intros [Hadj Hattrs]. split.
    + intros u nbrs Hin. specialize (Hadj _ Hin). simpl in Hadj.
      rewrite !andb_true_iff, forallb_forall in Hadj. destruct Hadj as [[Hu Hnd] Hall].
      repeat split; [assumption | now apply nodupb_NoDup |].
      intros v e Hv. exact (Hall _ Hv).
    + intros n a Hin. specialize (Hattrs _ Hin). simpl in Hattrs.
      destruct a; [discriminate | discriminate].
  - intros [Hadj Hattrs]. split.
    + intros [u nbrs] Hin. destruct (Hadj _ _ Hin) as (Hu & Hnd & Hall). simpl.
      rewrite !andb_true_iff, forallb_forall. repeat split;
        [assumption | now apply NoDup_nodupb |].
      intros [v e] Hv. exact (Hall _ _ Hv).
    + intros [n a] Hin. specialize (Hattrs _ _ Hin). simpl.
      destruct a; [reflexivity | contradiction].
Qed.

Lemma graph_okP_empty : graph_okP (@empty_graph F).
Proof. split; intros ? ? []. Qed.

Lemma has_node_add_node G k a n :
  has_node (add_node G k a) n = (n =? k) || has_node G n.
Proof. unfold add_node, has_node. destruct (od_mem k (_node G)); simpl; apply od_mem_set. Qed.

Lemma nbrs_ok_mono G G' nbrs :
  (forall n, has_node G n = true -> has_node G' n = true) ->
  nbrs_ok G nbrs -> nbrs_ok G' nbrs.
Proof. intros Hmono [Hnd Hall]. split; [assumption | eauto]. Qed.

Lemma graph_okP_add_node G k a : graph_okP G -> graph_okP (add_node G k a).
Proof.
  intros [Hadj Hattrs].
  assert (Hmono : forall n, has_node G n = true -> has_node (add_node G k a) n = true).
  { intros n Hn. rewrite has_node_add_node, Hn. apply orb_true_r. }
  split.
  - intros u nbrs Hin.
    assert (Hcases : (u, nbrs) = (k, []) \/ In (u, nbrs) (_adj G)).
    { unfold add_node in Hin. destruct (has_node G k); simpl in Hin; [now right |].
      now apply od_set_In in Hin. }
    destruct Hcases as [[= -> ->] | Hold].
    + split; [rewrite has_node_add_node, Z.eqb_refl; reflexivity |].
      split; [constructor | intros ? ? []].
    + destruct (Hadj _ _ Hold) as [Hu Hn]. split; [now apply Hmono |].
      now apply (nbrs_ok_mono G).
  - intros n a' Hin.
    assert (Hcases : (n, a') = (k, Some a) \/ In (n, a') (_node G)).
    { unfold add_node in Hin. destruct (has_node G k); simpl in Hin;
        now apply od_set_In in Hin. }
    destruct Hcases as [[= -> ->] | Hold]; [discriminate | eauto].
Qed.

Lemma ensure_node_id G n : has_node G n = true -> ensure_node G n = G.
Proof. unfold ensure_node. now intros ->. Qed.

Lemma add_edge_nodes G u v e :
  has_node G u = true -> has_node G v = true ->
  add_edge G u v e =
  {| _node := _node G;
     _adj := let adj1 := od_set u (od_set v e (neighbors G u)) (_adj G) in
             od_set v (od_set u e (match od_get v adj1 with Some d => d | None => [] end))
                    adj1 |}.
Proof.
  intros Hu Hv. unfold add_edge. now rewrite (ensure_node_id G u Hu), (ensure_node_id G v Hv).
Qed.

Lemma nbrs_ok_set G nbrs v e :
  has_node G v = true -> nbrs_ok G nbrs -> nbrs_ok G (od_set v e nbrs).
Proof.
  intros Hv [Hnd Hall]. split; [now apply od_set_NoDup |].
  intros w e' Hin. apply od_set_In in Hin as [[= -> ->] | Hin]; eauto.
Qed.

Lemma nbrs_ok_nil G : nbrs_ok G [].
Proof. split; [constructor | intros ? ? []]. Qed.

Lemma graph_okP_add_edge G u v e :
  has_node G u = true -> has_node G v = true ->
  graph_okP G -> graph_okP (add_edge G u v e).
Proof.
  intros Hu Hv [Hadj Hattrs]. rewrite (add_edge_nodes G u v e Hu Hv).
  set (adj1 := od_set u (od_set v e (neighbors G u)) (_adj G)).
  assert (Hnbrs : nbrs_ok G (neighbors G u)).
  { unfold neighbors. destruct (od_get u (_adj G)) as [d |] eqn:Hg; [| apply nbrs_ok_nil].
    apply od_get_In in Hg. now apply Hadj in Hg. }
  assert (Hadj1 : forall x nbrs, In (x, nbrs) adj1 -> has_node G x = true /\ nbrs_ok G nbrs).
  { intros x nbrs Hin. apply od_set_In in Hin as [[= -> ->] | Hin]; [| eauto].
    split; [assumption | now apply nbrs_ok_set]. }
  assert (Hnv : nbrs_ok G (match od_get v adj1 with Some d => d | None => [] end)).
  { destruct (od_get v adj1) as [d |] eqn:Hg; [| apply nbrs_ok_nil].
    apply od_get_In in Hg. now apply Hadj1 in Hg. }
  split; [| exact Hattrs].
  intros x nbrs Hin. cbn [_adj] in Hin.
  apply od_set_In in Hin as [[= -> ->] | Hin]; [| now apply Hadj1].
  split; [assumption | now apply nbrs_ok_set].
Qed.

End WellFormed.

Section BuildEdges.
Context {F : Type} {PF : FloatOps F} {PM : MathOps F}.
Implicit Types (G : Graph F) (ln : pystr).

Lemma all_edges_add_node Q G k a : all_edges Q G -> all_edges Q (add_node G k a).
Proof.
  intros Hall x nbrs Hin y e Hy. unfold add_node in Hin.
  destruct (has_node G k); simpl in Hin; [eauto |].
  apply od_set_In in Hin as [[= -> ->] | Hin]; [destruct Hy | eauto].
Qed.

Lemma all_edges_ensure_node Q G n : all_edges Q G -> all_edges Q (ensure_node G n).
Proof.
  intros Hall x nbrs Hin y e Hy. unfold ensure_node in Hin.
  destruct (has_node G n); simpl in Hin; [eauto |].
  apply od_set_In in Hin as [[= -> ->] | Hin]; [destruct Hy | eauto].
Qed.

Lemma all_edges_add_edge Q G u v e : Q e -> all_edges Q G -> all_edges Q (add_edge G u v e).
Proof.
  intros He Hall. unfold add_edge.
  set (G1 := ensure_node (ensure_node G u) v).
  assert (H1 : all_edges Q G1) by now apply all_edges_ensure_node, all_edges_ensure_node.
  assert (Hset : forall nbrs w, (forall y e', In (y, e') nbrs -> Q e') ->
                 forall y e', In (y, e') (od_set w e nbrs) -> Q e').
  { intros nbrs w Hn y e' Hin. apply od_set_In in Hin as [[= -> ->] | Hin]; eauto. }
  assert (Hget : forall (adj : odict (odict (edge_attrs F))) w,
             (forall x nbrs, In (x, nbrs) adj -> forall y e', In (y, e') nbrs -> Q e') ->
             forall y e', In (y, e') (match od_get w adj with Some d => d | None => [] end) ->
                          Q e').
  { intros adj w Hadj y e'. destruct (od_get w adj) as [d |] eqn:Hg; [| intros []].
    apply od_get_In in Hg. eauto. }
  set (adj1 := od_set u (od_set v e (neighbors G1 u)) (_adj G1)).
  assert (Hadj1 : forall x nbrs, In (x, nbrs) adj1 -> forall y e', In (y, e') nbrs -> Q e').
  { intros x nbrs Hin. apply od_set_In in Hin as [[= -> ->] | Hin]; [| now apply (H1 x)].
    apply Hset. apply (Hget (_adj G1) u). exact H1. }
  intros x nbrs Hin. cbn [_adj] in Hin.
  apply od_set_In in Hin as [[= -> ->] | Hin]; [| now apply (Hadj1 x)].
  apply Hset. now apply Hget.
Qed.

Lemma add_line_edges_cons ln st1 st2 rest G :
  add_line_edges ln (st1 :: st2 :: rest) G =
  (lat1 <- float (s_latitude st1) ;;
   lon1 <- float (s_longitude st1) ;;
   lat2 <- float (s_latitude st2) ;;
   lon2 <- float (s_longitude st2) ;;
   distance <- _haversine_distance lat1 lon1 lat2 lon2 ;;
   add_line_edges ln (st2 :: rest)
     (add_edge G (s_id st1) (s_id st2) {| weight := distance; edge_line := ln |})).
Proof. reflexivity. Qed.

(** What the second loop keeps true, for an invariant [I] of the graph
    that adding an edge between two nodes, with a weight the haversine
    formula returned, keeps true. *)
Section EdgeInvariant.
Variable I : Graph F -> Prop.
Hypothesis I_add_edge :
  forall G u v lat1 lon1 lat2 lon2 w ln,
    I G -> has_node G u = true -> has_node G v = true ->
    _haversine_distance lat1 lon1 lat2 lon2 = Ok w ->
    I (add_edge G u v {| weight := w; edge_line := ln |}).

Lemma add_line_edges_inv ln sts G G' :
  (forall st, In st sts -> has_node G (s_id st) = true) -> I G ->
  add_line_edges ln sts G = Ok G' ->
  I G' /\ _node G' = _node G.
Proof.
  revert G. induction sts as [| st1 [| st2 rest] IH]; intros G Hn HI.
  - intros [= <-]. now split.
  - intros [= <-]. now split.
  - rewrite add_line_edges_cons.
    destruct (float (s_latitude st1)) as [lat1 |]; cbn [bind]; [| discriminate].
    destruct (float (s_longitude st1)) as [lon1 |]; cbn [bind]; [| discriminate].
    destruct (float (s_latitude st2)) as [lat2 |]; cbn [bind]; [| discriminate].
    destruct (float (s_longitude st2)) as [lon2 |]; cbn [bind]; [| discriminate].
    destruct (_haversine_distance lat1 lon1 lat2 lon2) as [w |] eqn:Hw; cbn [bind];
      [| discriminate].
    assert (H1 : has_node G (s_id st1) = true) by (apply Hn; now left).
    assert (H2 : has_node G (s_id st2) = true) by (apply Hn; right; now left).
    assert (Hnode : _node (add_edge G (s_id st1) (s_id st2)
                             {| weight := w; edge_line := ln |}) = _node G)
      by now rewrite add_edge_nodes.
    intros Hrest. apply IH in Hrest as [HI' Hnode'].
    + split; [assumption | congruence].
    + intros st Hst. unfold has_node. rewrite Hnode. apply Hn. now right.
    + eapply I_add_edge; eassumption.
Qed.

Lemma add_edges_inv (stations : catalog F) G G' :
  (forall r, In r (records stations) -> has_node G (s_id (snd r)) = true) -> I G ->
  add_edges stations G = Ok G' ->
  I G' /\ _node G' = _node G.
Proof.
  revert G. induction stations as [| [ln sts] rest IH]; intros G Hn HI; simpl.
  - intros [= <-]. now split.
  - destruct (add_line_edges ln sts G) as [G1 |] eqn:H1; cbn [bind]; [| discriminate].
    apply add_line_edges_inv in H1 as [HI1 Hnode1]; [| | assumption].
    + intros Hrest. apply IH in Hrest as [HI' Hnode']; [split; [assumption | congruence] | | assumption].
      intros r Hr. unfold has_node. rewrite Hnode1. apply Hn.
      unfold records. simpl. apply in_or_app. now right.
    + intros st Hst. apply (Hn (ln, st)). unfold records. simpl.
      apply in_or_app. left. now apply in_map.
Qed.

End EdgeInvariant.

End BuildEdges.

(* ================================================================== *)
(** * The haversine formula over the real numbers *)

Section HaversineReal.
Local Open Scope R_scope.

Lemma sin_sqr_le_1 (x : R) : 0 <= sin x * sin x <= 1.
Proof.
  pose proof (sin2_cos2 x) as H. unfold Rsqr in H.
  pose proof (Rle_0_sqr (sin x)) as Hs. pose proof (Rle_0_sqr (cos x)) as Hc.
  unfold Rsqr in Hs, Hc. lra.
Qed.

Lemma cos_sqr_le_1 (x : R) : 0 <= cos x * cos x <= 1.
Proof.
  pose proof (sin2_cos2 x) as H. unfold Rsqr in H.
  pose proof (Rle_0_sqr (sin x)) as Hs. pose proof (Rle_0_sqr (cos x)) as Hc.
  unfold Rsqr in Hs, Hc. lra.
Qed.

(** [cos p1 * cos p2], through the half sum and the half difference. *)
Lemma cos_cos_half (p1 p2 : R) :
  cos p1 * cos p2 =
  cos ((p1 + p2) / 2) * cos ((p1 + p2) / 2) - sin ((p2 - p1) / 2) * sin ((p2 - p1) / 2).
Proof.
  set (P := (p1 + p2) / 2). set (m := (p2 - p1) / 2).
  replace p1 with (P - m) at 1 by (unfold P, m; field).
  replace p2 with (P + m) at 1 by (unfold P, m; field).
  rewrite cos_minus, cos_plus.
  pose proof (sin2_cos2 P) as HP. pose proof (sin2_cos2 m) as Hm. unfold Rsqr in HP, Hm.
  assert (HsP : sin P * sin P = 1 - cos P * cos P) by lra.
  assert (Hcm : cos m * cos m = 1 - sin m * sin m) by lra.
  transitivity (cos P * cos P * (cos m * cos m) - sin P * sin P * (sin m * sin m)); [ring |].
  rewrite HsP, Hcm. ring.
Qed.

(** [a] is a mean of two squares, so it lies between 0 and 1 whatever
    the angles. *)
Lemma hav_a_range (p1 l1 p2 l2 : R) : 0 <= hav_a p1 l1 p2 l2 <= 1.
Proof.
  unfold hav_a. rewrite cos_cos_half.
  pose proof (sin_sqr_le_1 ((p2 - p1) / 2)) as Hm.
  pose proof (sin_sqr_le_1 ((l2 - l1) / 2)) as Hl.
  pose proof (cos_sqr_le_1 ((p1 + p2) / 2)) as HP.
  set (sm := sin ((p2 - p1) / 2) * sin ((p2 - p1) / 2)) in *.
  set (sl := sin ((l2 - l1) / 2) * sin ((l2 - l1) / 2)) in *.
  set (cP := cos ((p1 + p2) / 2) * cos ((p1 + p2) / 2)) in *.
  replace (sm + (cP - sm) * sl) with ((1 - sl) * sm + sl * cP) by ring.
  split; nra.
Qed.



(** The method on the real numbers, worked out: it never raises. *)
Lemma haversine_R (lat1 lon1 lat2 lon2 : R) :
  _haversine_distance lat1 lon1 lat2 lon2 =
  Ok (6371 * (2 * asin (sqrt (hav_a (radians lat1) (radians lon1)
                                    (radians lat2) (radians lon2))))).
Proof.
  unfold _haversine_distance. cbn [m_sin m_cos R_math or_raise bind].
  cbn [fpow fadd fmul fsub fdiv of_int R_float].
  set (a := _ + _).
  assert (Ha : a = hav_a (radians lat1) (radians lon1) (radians lat2) (radians lon2)).
  { unfold a, hav_a. simpl. ring. }
  rewrite Ha. clear a Ha.
  pose proof (hav_a_range (radians lat1) (radians lon1) (radians lat2) (radians lon2)) as Hr.
  set (a := hav_a _ _ _ _) in *.
  cbn [m_sqrt m_asin R_math]. unfold R_sqrt.
  destruct (Rlt_dec a 0) as [Hneg | _]; [lra |]. cbn [or_raise bind].
  assert (Hs : 0 <= sqrt a <= 1).
  { split; [apply sqrt_pos |]. rewrite <- sqrt_1. apply sqrt_le_1_alt. lra. }
  unfold R_asin.
  destruct (Rlt_dec (sqrt a) (-1)) as [H1 | _]; [lra |].
  destruct (Rlt_dec 1 (sqrt a)) as [H2 | _]; [lra |].
  reflexivity.
Qed.

Lemma haversine_R_nonneg (lat1 lon1 lat2 lon2 d : R) :
  _haversine_distance lat1 lon1 lat2 lon2 = Ok d -> 0 <= d.
Proof.
  rewrite haversine_R. intros [= <-].
  pose proof (hav_a_range (radians lat1) (radians lon1) (radians lat2) (radians lon2)) as Hr.
  set (a := hav_a _ _ _ _) in *.
  assert (Hs : 0 <= sqrt a <= 1).
  { split; [apply sqrt_pos |]. rewrite <- sqrt_1. apply sqrt_le_1_alt. lra. }
  assert (Has : 0 <= asin (sqrt a)).
  { destruct (Rle_lt_dec 0 (asin (sqrt a))) as [Hle | Hlt]; [assumption |].
    pose proof (asin_bound (sqrt a)) as Hb. pose proof PI_RGT_0 as Hpi.
    assert (Hsin : sin (asin (sqrt a)) < 0) by (apply sin_lt_0_var; lra).
    rewrite sin_asin in Hsin by lra. lra. }
  lra.
Qed.

End HaversineReal.


(* ================================================================== *)
(** * The built graph *)

Section BuildGraph.
Context {F : Type} {PF : FloatOps F} {PM : MathOps F}.
Implicit Types (G : Graph F) (stations : catalog F).

Lemma add_records_has_node rs G G' r :
  add_records rs G = Ok G' -> In r rs -> has_node G' (s_id (snd r)) = true.
Proof.
  intros Hadd Hin. pose proof (add_records_node rs G G' (s_id (snd r)) Hadd) as Hn.
  destruct (find _ (rev rs)) as [r' |] eqn:Hf.
  - destruct Hn as (a & _ & Hg). unfold has_node, od_mem. now rewrite Hg.
  - exfalso. apply in_rev in Hin. apply (find_none _ _ Hf r) in Hin.
    simpl in Hin. now rewrite Z.eqb_refl in Hin.
Qed.

Lemma add_records_okP rs G G' :
  graph_okP G -> add_records rs G = Ok G' -> graph_okP G'.
Proof.
  revert G. induction rs as [| r rs IH]; intros G HG; simpl.
  - now intros [= <-].
  - destruct (record_attrs r) as [a |]; simpl; [| discriminate].
    apply IH. now apply graph_okP_add_node.
Qed.

Lemma add_records_edges Q rs G G' :
  all_edges Q G -> add_records rs G = Ok G' -> all_edges Q G'.
Proof.
  revert G. induction rs as [| r rs IH]; intros G HG; simpl.
  - now intros [= <-].
  - destruct (record_attrs r) as [a |]; simpl; [| discriminate].
    apply IH. now apply all_edges_add_node.
Qed.

(** The two loops of [build_graph]: the second leaves the node table of
    the first as it is. *)
Lemma build_graph_loops stations G :
  build_graph stations = Ok G ->
  exists G1, add_records (records stations) empty_graph = Ok G1 /\
             add_edges stations G1 = Ok G /\ _node G = _node G1.
Proof.
  unfold build_graph. rewrite add_nodes_records.
  destruct (add_records (records stations) empty_graph) as [G1 |] eqn:H1; simpl;
    [| discriminate].
  intros H2. exists G1. repeat split; [assumption |].
  apply (add_edges_inv (fun _ => True)) in H2 as [_ Hnode]; auto.
  intros r Hr. now apply (add_records_has_node _ _ _ r H1).
Qed.

(** The node of an id after construction: the attributes of the last
    record read for it, or no node when no record has the id. *)
Lemma build_graph_node stations G n :
  build_graph stations = Ok G ->
  match last_record stations n with
  | Some r => exists a, record_attrs r = Ok a /\ od_get n (_node G) = Some (Some a)
  | None => od_get n (_node G) = None
  end.
Proof.
  intros HG. destruct (build_graph_loops _ _ HG) as (G1 & H1 & _ & ->).
  exact (add_records_node _ _ _ n H1).
Qed.

(** Construction yields a well-formed graph. *)
Lemma build_graph_ok stations G : build_graph stations = Ok G -> graph_ok G = true.
Proof.
  intros HG. destruct (build_graph_loops _ _ HG) as (G1 & H1 & H2 & _).
  apply graph_ok_iff.
  apply (add_edges_inv graph_okP) in H2 as [Hok _].
  - exact Hok.
  - intros G0 u v lat1 lon1 lat2 lon2 w ln H0 Hu Hv _. now apply graph_okP_add_edge.
  - intros r Hr. now apply (add_records_has_node _ _ _ r H1).
  - apply (add_records_okP _ _ _ graph_okP_empty H1).
Qed.

(** Every weight in the built graph is a value of the haversine formula. *)
Lemma build_graph_weights (W : F -> Prop) stations G :
  (forall lat1 lon1 lat2 lon2 w,
     _haversine_distance lat1 lon1 lat2 lon2 = Ok w -> W w) ->
  build_graph stations = Ok G ->
  all_edges (fun e => W (weight e)) G.
Proof.
  intros HW HG. destruct (build_graph_loops _ _ HG) as (G1 & H1 & H2 & _).
  apply (add_edges_inv (all_edges (fun e => W (weight e)))) in H2 as [Hall _].
  - exact Hall.
  - intros G0 u v lat1 lon1 lat2 lon2 w ln H0 _ _ Hw.
    apply all_edges_add_edge; [simpl; eauto | assumption].
  - intros r Hr. now apply (add_records_has_node _ _ _ r H1).
  - assert (H0 : all_edges (fun e => W (weight e)) (@empty_graph F)) by (intros x nbrs []).
    exact (add_records_edges _ _ _ _ H0 H1).
Qed.

(** A record that cannot be read makes construction raise. *)
Lemma build_graph_bad_record stations r :
  In r (records stations) -> record_attrs r = Raise ValueError ->
  build_graph stations = Raise ValueError.
Proof.
  intros Hin Hbad. unfold build_graph. rewrite add_nodes_records.
  now rewrite (add_records_bad _ _ r Hin Hbad).
Qed.

Lemma In_records stations ln sts st :
  In (ln, sts) stations -> In st sts -> In (ln, st) (records stations).
Proof.
  intros Hl Hs. unfold records. apply in_flat_map. exists (ln, sts).
  split; [assumption | simpl; now apply in_map].
Qed.

End BuildGraph.

(** On the real numbers construction fails only on a coordinate that
    cannot be read. *)
Section BuildReal.
Implicit Types (G : Graph R) (stations : catalog R).

Lemma add_records_total (rs : list (pystr * station R)) G :
  (forall r, In r rs -> exists a, record_attrs r = Ok a) ->
  exists G', add_records rs G = Ok G'.
Proof.
  revert G. induction rs as [| r rs IH]; intros G Hall; simpl.
  - now exists G.
  - destruct (Hall r (or_introl eq_refl)) as (a & ->). simpl.
    apply IH. intros r' Hr'. apply Hall. now right.
Qed.

Lemma record_attrs_floats (r : pystr * station R) a :
  record_attrs r = Ok a ->
  exists lat lng, float (s_latitude (snd r)) = Ok lat /\
                  float (s_longitude (snd r)) = Ok lng /\
                  a = {| pos := (lng, lat); name := s_name (snd r); line := fst r;
                         order := s_order (snd r) |}.
Proof.
  unfold record_attrs.
  destruct (float (s_latitude (snd r))) as [lat |]; simpl; [| discriminate].
  destruct (float (s_longitude (snd r))) as [lng |]; simpl; [| discriminate].
  intros [= <-]. now exists lat, lng.
Qed.

Lemma add_line_edges_total ln (sts : list (station R)) G :
  (forall st, In st sts -> exists a, record_attrs (ln, st) = Ok a) ->
  exists G', add_line_edges ln sts G = Ok G'.
Proof.
  revert G. induction sts as [| st1 [| st2 rest] IH]; intros G Hall.
  - now exists G.
  - now exists G.
  - rewrite add_line_edges_cons.
    destruct (Hall st1 (or_introl eq_refl)) as (a1 & H1).
    destruct (Hall st2 (or_intror (or_introl eq_refl))) as (a2 & H2).
    apply record_attrs_floats in H1 as (lat1 & lon1 & Hlat1 & Hlon1 & _).
    apply record_attrs_floats in H2 as (lat2 & lon2 & Hlat2 & Hlon2 & _).
    simpl in Hlat1, Hlon1, Hlat2, Hlon2. rewrite Hlat1, Hlon1, Hlat2, Hlon2. cbn [bind].
    rewrite haversine_R. cbn [bind].
    apply IH. intros st Hst. apply Hall. now right.
Qed.

Lemma add_edges_total stations G :
  (forall r, In r (records stations) -> exists a, record_attrs r = Ok a) ->
  exists G', add_edges stations G = Ok G'.
Proof.
  revert G. induction stations as [| [ln sts] rest IH]; intros G Hall; simpl.
  - now exists G.
  - destruct (add_line_edges_total ln sts G) as (G1 & ->).
    + intros st Hst. apply Hall. unfold records. simpl. apply in_or_app. left.
      now apply in_map.
    + simpl. apply IH. intros r Hr. apply Hall. unfold records. simpl.
      apply in_or_app. now right.
Qed.

Lemma build_graph_total stations :
  (forall r, In r (records stations) -> exists a, record_attrs r = Ok a) ->
  exists G, build_graph stations = Ok G.
Proof.
  intros Hall. unfold build_graph. rewrite add_nodes_records.
  destruct (add_records_total (records stations) empty_graph Hall) as (G1 & ->). simpl.
  now apply add_edges_total.
Qed.

End BuildReal.

(* ================================================================== *)
(** * Lookup and construction *)

(** The node and the lookup of an id, from the last record read for it. *)
Lemma build_graph_station
  {F : Type} {PF : FloatOps F} {PM : MathOps F}
  (stations : catalog F) (G : Graph F) (n : Z) (ln : pystr) (st : station F) :
  build_graph stations = Ok G ->
  last_record stations n = Some (ln, st) ->
  exists lat lng,
    float (s_latitude st) = Ok lat /\ float (s_longitude st) = Ok lng /\
    od_get n (_node G) =
      Some (Some {| pos := (lng, lat); name := s_name st; line := ln;
                    order := s_order st |}) /\
    get_station_by_id G n =
      Some {| i_id := n; i_name := s_name st; latitude := lat; longitude := lng;
              i_line := ln |}.
Proof.
  intros HG Hlast. pose proof (build_graph_node stations G n HG) as Hn.
  rewrite Hlast in Hn. destruct Hn as (a & Ha & Hg).
  unfold record_attrs in Ha. simpl in Ha.
  destruct (float (s_latitude st)) as [lat |]; simpl in Ha; [| discriminate].
  destruct (float (s_longitude st)) as [lng |]; simpl in Ha; [| discriminate].
  injection Ha as <-. exists lat, lng. repeat split; [assumption |].
  unfold get_station_by_id, node_data, nodes_getitem. now rewrite Hg.
Qed.

(** C5.  After construction, the node of an id carries the name and the
    line key of the last record read for that id, with that record's
    coordinates, and [get_station_by_id] returns exactly these. *)
Theorem last_record_wins
  {F : Type} {PF : FloatOps F} {PM : MathOps F}
  (stations : catalog F) (G : Graph F) (n : Z) (ln : pystr) (st : station F) :
  build_graph stations = Ok G ->
  last_record stations n = Some (ln, st) ->
  exists lat lng,
    float (s_latitude st) = Ok lat /\ float (s_longitude st) = Ok lng /\
    od_get n (_node G) =
      Some (Some {| pos := (lng, lat); name := s_name st; line := ln;
                    order := s_order st |}) /\
    get_station_by_id G n =
      Some {| i_id := n; i_name := s_name st; latitude := lat; longitude := lng;
              i_line := ln |}.
Proof. exact (build_graph_station stations G n ln st). Qed.

Lemma last_record_wins_witness :
  exists G lat lng,
    build_graph interchange = Ok G /\
    float (s_latitude yenikapi_MM) = Ok lat /\ float (s_longitude yenikapi_MM) = Ok lng /\
    od_get 20 (_node G) =
      Some (Some {| pos := (lng, lat); name := str "YENIKAPI"; line := str "MM";
                    order := 31 |}) /\
    get_station_by_id G 20 =
      Some {| i_id := 20; i_name := str "YENIKAPI"; latitude := lat; longitude := lng;
              i_line := str "MM" |}.
Proof.
  assert (HG : exists G, build_graph interchange = Ok G) by (eexists; reflexivity).
  destruct HG as (G & HG). exists G.
  destruct (last_record_wins interchange G 20 (str "MM") yenikapi_MM HG eq_refl)
    as (lat & lng & H).
  exists lat, lng. split; [exact HG | exact H].
Defined.

(** C4.  On the graph built from a catalog, [find_shortest_path]
    answers [None] when one of the two ids is not a node or when no path
    joins them, and [get_station_by_id] answers [None] for an id that no
    record of the catalog has. *)
Theorem not_found_is_None
  {F : Type} {PF : FloatOps F} {PM : MathOps F} (stations : catalog F) (G : Graph F) :
  build_graph stations = Ok G ->
  (forall source_id target_id,
     has_node G source_id = false \/ has_node G target_id = false \/
     (forall p d, ~ path_between G source_id target_id p d) ->
     find_shortest_path G source_id target_id = None) /\
  (forall station_id,
     (forall r, In r (records stations) -> s_id (snd r) <> station_id) ->
     get_station_by_id G station_id = None).
Proof.
  intros HG. pose proof (build_graph_ok stations G HG) as Hok. split.
  - intros s t Hcases.
    destruct (has_node G s) eqn:Hs;
      [| eapply find_shortest_path_Raise, shortest_path_absent; now left].
    destruct (has_node G t) eqn:Ht;
      [| eapply find_shortest_path_Raise, shortest_path_absent; now right].
    destruct Hcases as [H | [H | Hno]]; try discriminate.
    eapply find_shortest_path_Raise. now apply shortest_path_no_path.
  - intros n Hn. pose proof (build_graph_node stations G n HG) as Hnode.
    destruct (last_record stations n) as [r |] eqn:Hlast.
    + exfalso. unfold last_record in Hlast. apply find_some in Hlast as [Hin Heq].
      apply in_rev in Hin. apply Z.eqb_eq in Heq. exact (Hn r Hin Heq).
    + unfold get_station_by_id, node_data, nodes_getitem. now rewrite Hnode.
Qed.

Lemma not_found_is_None_witness :
  exists G,
    build_graph two_islands = Ok G /\
    find_shortest_path G 24 141 = None /\
    find_shortest_path G 24 99 = None /\
    get_station_by_id G 99 = None.
Proof.
  assert (HG : exists G, build_graph two_islands = Ok G /\
                         forall y, get_edge_data G 24 y = None)
    by (eexists; split; reflexivity).
  destruct HG as (G & HG & Hadj). exists G. split; [exact HG |].
  destruct (not_found_is_None two_islands G HG) as [Hpath Hid].
  repeat split.
  - apply Hpath. right. right. intros p d (Hhd & Hlast & Hw).
    destruct p as [| x [| y rest]]; try discriminate.
    + injection Hhd as ->. discriminate Hlast.
    + injection Hhd as ->. simpl in Hw. rewrite Hadj in Hw. discriminate Hw.
  - apply Hpath. right. left.
    destruct (has_node G 99) eqn:H99; [| reflexivity].
    exfalso. apply has_node_In in H99.
    pose proof (build_graph_node two_islands G 99 HG) as Hn. simpl in Hn.
    apply od_mem_In in H99. unfold od_mem in H99. now rewrite Hn in H99.
  - apply Hid. intros r [<- | [<- | []]]; discriminate.
Defined.

(** C9, as the code has it.  A record whose latitude or longitude
    [float()] cannot read makes construction raise ValueError: no graph
    is produced.  Nothing is said of the range of the values read. *)
Theorem unreadable_coordinate_raises
  {F : Type} {PF : FloatOps F} {PM : MathOps F}
  (stations : catalog F) (ln : pystr) (station_list : list (station F)) (st : station F) :
  In (ln, station_list) stations -> In st station_list ->
  float (s_latitude st) = Raise ValueError \/ float (s_longitude st) = Raise ValueError ->
  build_graph stations = Raise ValueError.
Proof.
  intros Hl Hs Hbad. apply (build_graph_bad_record stations (ln, st)).
  - now apply (In_records stations ln station_list).
  - unfold record_attrs. simpl. destruct Hbad as [-> | Hlng]; [reflexivity |].
    destruct (float (s_latitude st)) as [lat | e] eqn:Hlat; simpl.
    + now rewrite Hlng.
    + now rewrite (float_raises _ _ Hlat).
Qed.

Lemma unreadable_coordinate_raises_witness :
  build_graph unreadable = Raise ValueError.
Proof.
  apply (unreadable_coordinate_raises unreadable (str "M9")
           [station_R "A" "41.0" "28.9" 1 1 "M9"; station_R "B" "" "29.0" 2 2 "M9"]
           (station_R "B" "" "29.0" 2 2 "M9")).
  - left. reflexivity.
  - right. left. reflexivity.
  - left. reflexivity.
Defined.

(** C9, as the claim reads: a latitude outside the range of degrees does
    not stop construction.  The first station of the line has the
    latitude 95; the graph is built, with the station in it. *)
Lemma out_of_range_latitude_accepted :
  float (s_latitude (station_R "A" "95.0" "28.9" 1 1 "M9")) = Ok (Q2R (95 # 1)) /\
  (90 < Q2R (95 # 1))%R /\
  exists G, build_graph beyond_the_pole = Ok G /\
            exists info, get_station_by_id G 1 = Some info /\ latitude info = Q2R (95 # 1).
Proof.
  split; [reflexivity |]. split; [unfold Q2R; simpl; lra |].
  destruct (build_graph_total beyond_the_pole) as (G & HG).
  { intros r [<- | [<- | []]]; eexists; reflexivity. }
  exists G. split; [assumption |].
  destruct (build_graph_station beyond_the_pole G 1 (str "M9")
              (station_R "A" "95.0" "28.9" 1 1 "M9") HG eq_refl)
    as (lat & lng & Hlat & _ & _ & Hget).
  eexists. split; [exact Hget |]. simpl. simpl in Hlat. now injection Hlat as <-.
Qed.

(* ================================================================== *)
(** * Search *)

Section Search.
Context {F : Type}.
Implicit Types (G : Graph F) (q : pystr).

Lemma search_loop_spec q (nodes : odict (option (node_attrs F))) acc res :
  search_loop q nodes acc = Ok res -> res = acc ++ matching q nodes.
Proof.
  revert acc. induction nodes as [| [n a] nodes IH]; intros acc; simpl.
  - intros [= <-]. now rewrite app_nil_r.
  - destruct a as [data |]; simpl; [| discriminate].
    destruct (str_in q (upper (name data))); intros Hloop; apply IH in Hloop.
    + now rewrite Hloop, <- app_assoc.
    + exact Hloop.
Qed.

(** The answer depends on the query through its upper-case form only. *)
Lemma search_stations_upper G q q' :
  upper q = upper q' -> search_stations G q = search_stations G q'.
Proof. unfold search_stations. now intros ->. Qed.

Lemma ascii_same_upper (c : N) :
  (c <? 128)%N = true ->
  upper (lower_cp c) = upper_cp c /\ upper (upper_cp c) = upper_cp c.
Proof.
  intros Hc. apply N.ltb_lt in Hc.
  assert (Hall : forallb same_upper (map N.of_nat (seq 0 128)) = true)
    by (vm_compute; reflexivity).
  rewrite forallb_forall in Hall.
  assert (Hin : In c (map N.of_nat (seq 0 128))).
  { apply in_map_iff. exists (N.to_nat c). split; [apply N2Nat.id |].
    apply in_seq. lia. }
  specialize (Hall c Hin). unfold same_upper in Hall.
  destruct (list_eq_dec N.eq_dec (upper (lower_cp c)) (upper_cp c)); [| discriminate].
  destruct (list_eq_dec N.eq_dec (upper (upper_cp c)) (upper_cp c)); [| discriminate].
  now split.
Qed.

Lemma upper_app (s1 s2 : pystr) : upper (s1 ++ s2) = upper s1 ++ upper s2.
Proof. apply flat_map_app. Qed.

Lemma ascii_upper_lower q : is_ascii q = true -> upper (lower q) = upper q.
Proof.
  induction q as [| c q IH]; simpl; [reflexivity |].
  intros Ha. apply andb_prop in Ha as [Hc Hq].
  rewrite upper_app, (IH Hq). f_equal. now apply ascii_same_upper.
Qed.

Lemma ascii_upper_upper q : is_ascii q = true -> upper (upper q) = upper q.
Proof.
  induction q as [| c q IH]; simpl; [reflexivity |].
  intros Ha. apply andb_prop in Ha as [Hc Hq].
  rewrite upper_app, (IH Hq). f_equal. now apply ascii_same_upper.
Qed.

End Search.

(** C8, as the code has it.  [search_stations] matches the upper-cased
    query against the upper-cased names and lists the matching stations
    in the order of the node table.  For a query whose lower-case form
    upper-cases to the same string as its upper-case form, and so for
    every ASCII query, the upper-case form and the lower-case form get
    the same answer. *)
Theorem search_case_insensitive
  {F : Type} (G : Graph F) (query : pystr) :
  is_ascii query = true \/ upper (lower query) = upper (upper query) ->
  search_stations G (upper query) = search_stations G (lower query) /\
  forall results, search_stations G query = Ok results ->
                  results = matching (upper query) (_node G).
Proof.
  intros Hq. split.
  - apply search_stations_upper. destruct Hq as [Ha | Heq]; [| now symmetry].
    now rewrite (ascii_upper_upper query Ha), (ascii_upper_lower query Ha).
  - intros results Hres. now apply search_loop_spec in Hres.
Qed.

Lemma search_case_insensitive_witness :
  search_stations triangle (upper (str "b")) = search_stations triangle (lower (str "b")) /\
  forall results, search_stations triangle (str "b") = Ok results ->
                  results = matching (upper (str "b")) (_node triangle).
Proof.
  exact (search_case_insensitive triangle (str "b") (or_introl eq_refl)).
Defined.

(** C8, as the claim reads: the upper-case and the lower-case form of a
    query need not get the same answer.  Python lowers capital I with
    dot above (U+0130) to i followed by a combining dot, which upper-cases
    to plain I followed by the dot: the station is found under the
    upper-case form of the query and not under the lower-case form. *)
Lemma dotted_I_search_differs :
  upper dotted_query = [304; 84]%N /\
  lower dotted_query = [105; 775; 116]%N /\
  upper (lower dotted_query) = [73; 775; 84]%N /\
  search_stations dotted_graph (upper dotted_query) =
    Ok [{| i_id := 7; i_name := dotted_name; latitude := (41 # 1)%Q;
           longitude := (29 # 1)%Q; i_line := str "M2" |}] /\
  search_stations dotted_graph (lower dotted_query) = Ok [].
Proof. repeat split. Qed.

(* ================================================================== *)
(** * The planner on built graphs, over the real numbers *)

Lemma R_fle (x y : R) : fle x y = true <-> (x <= y)%R.
Proof.
  unfold fle. cbn [flt R_float]. unfold R_lt.
  destruct (Rlt_dec y x); simpl; split; intros; try lra; discriminate.
Qed.

Lemma R_float_order : FloatOrder R.
Proof.
  constructor.
  - intros x y. rewrite !R_fle. lra.
  - intros x y z. rewrite !R_fle. lra.
  - intros x y w. rewrite !R_fle. cbn [fadd R_float]. lra.
  - intros x w. rewrite !R_fle. cbn [fadd of_int R_float]. lra.
Qed.

Lemma build_graph_nonneg (stations : catalog R) (G : Graph R) :
  build_graph stations = Ok G -> nonneg_weights G = true.
Proof.
  intros HG. unfold nonneg_weights. rewrite forallb_forall. intros [x nbrs] Hx.
  rewrite forallb_forall. intros [y e] Hy. simpl in *.
  refine (build_graph_weights (fun w => fle (of_int 0) w = true) stations G _ HG
            x nbrs Hx y e Hy).
  intros lat1 lon1 lat2 lon2 w Hw. apply R_fle. cbn [of_int R_float].
  now apply (haversine_R_nonneg lat1 lon1 lat2 lon2).
Qed.

(** On the graph built from any catalog, the answer for two connected
    stations is a shortest path. *)
Corollary built_graph_shortest_path
  (stations : catalog R) (G : Graph R) (source_id target_id : Z) :
  build_graph stations = Ok G ->
  has_node G source_id = true -> has_node G target_id = true ->
  (exists q dq, path_between G source_id target_id q dq) ->
  exists r d,
    find_shortest_path G source_id target_id = Some r /\
    path_between G source_id target_id (path r) d /\
    forall q dq, path_between G source_id target_id q dq -> (d <= dq)%R.
Proof.
  intros HG Hs Ht (q & dq & Hq).
  pose proof (build_graph_ok stations G HG) as Hok.
  destruct (shortest_path_least G Hok R_float_order (build_graph_nonneg stations G HG)
              source_id target_id q dq Hs Ht Hq) as (p & d & Hp & Hpd & Hleast).
  destruct (find_shortest_path_Ok G source_id target_id p Hok Hs Hp) as (r & Hr & <-).
  exists r, d. repeat split; try assumption; try apply Hpd.
  intros q' dq' Hq'. apply R_fle. now apply (Hleast q' dq').
Qed.

(* ================================================================== *)
(** * More of the built graph *)

Section BuiltNodes.
Context {F : Type} {PF : FloatOps F} {PM : MathOps F}.
Implicit Types (G : Graph F) (stations : catalog F).

Lemma keys_add_node G k a :
  od_keys (_node (add_node G k a)) =
  if mem k (od_keys (_node G)) then od_keys (_node G) else od_keys (_node G) ++ [k].
Proof.
  assert (Hm : mem k (od_keys (_node G)) = od_mem k (_node G)).
  { destruct (od_mem k (_node G)) eqn:Ho.
    - apply mem_In, od_mem_In, Ho.
    - apply mem_false. intros Hin. apply od_mem_In in Hin. congruence. }
  rewrite Hm. unfold add_node, has_node.
  destruct (od_mem k (_node G)) eqn:Ho; simpl; rewrite od_keys_set, Ho; reflexivity.
Qed.

Lemma add_records_keys (rs : list (pystr * station F)) G G' :
  add_records rs G = Ok G' ->
  od_keys (_node G') = first_seen (od_keys (_node G)) (map (fun r => s_id (snd r)) rs).
Proof.
  revert G. induction rs as [| r rs IH]; intros G; simpl.
  - now intros [= <-].
  - destruct (record_attrs r) as [a |]; simpl; [| discriminate].
    intros Hrest. rewrite (IH _ Hrest), keys_add_node. reflexivity.
Qed.

Lemma first_seen_NoDup (seen ids : list Z) : NoDup seen -> NoDup (first_seen seen ids).
Proof.
  revert seen. induction ids as [| n ids IH]; intros seen Hnd; simpl; [assumption |].
  apply IH. destruct (mem n seen) eqn:Hm; [assumption |].
  apply NoDup_app; [assumption | repeat constructor; simpl; tauto |].
  intros x Hx [<- | []]. apply mem_false in Hm. contradiction.
Qed.

Lemma first_seen_In (seen ids : list Z) (x : Z) :
  In x (first_seen seen ids) <-> In x seen \/ In x ids.
Proof.
  revert seen. induction ids as [| n ids IH]; intros seen; simpl; [tauto |].
  rewrite IH. destruct (mem n seen) eqn:Hm.
  - apply mem_In in Hm. split; [tauto |]. intros [H | [<- | H]]; tauto.
  - rewrite in_app_iff. simpl. tauto.
Qed.

Lemma build_graph_keys stations G :
  build_graph stations = Ok G ->
  od_keys (_node G) = first_seen [] (catalog_ids stations).
Proof.
  intros HG. destruct (build_graph_loops _ _ HG) as (G1 & H1 & _ & Hnode).
  rewrite Hnode. exact (add_records_keys _ _ _ H1).
Qed.

Lemma build_graph_NoDup stations G :
  build_graph stations = Ok G -> NoDup (od_keys (_node G)).
Proof.
  intros HG. rewrite (build_graph_keys _ _ HG). apply first_seen_NoDup. constructor.
Qed.

End BuiltNodes.

(** X1.  The node table of the built graph lists the ids of the catalog
    in order of first appearance, each once: a node is in the graph
    exactly when some record has its id. *)
Theorem built_nodes_first_seen
  {F : Type} {PF : FloatOps F} {PM : MathOps F} (stations : catalog F) (G : Graph F) :
  build_graph stations = Ok G ->
  od_keys (_node G) = first_seen [] (catalog_ids stations) /\
  NoDup (od_keys (_node G)) /\
  forall n, has_node G n = true <-> In n (catalog_ids stations).
Proof.
  intros HG. pose proof (build_graph_keys stations G HG) as Hkeys.
  split; [exact Hkeys | split].
  - exact (build_graph_NoDup stations G HG).
  - intros n. rewrite has_node_In, Hkeys, first_seen_In. simpl. tauto.
Qed.

Lemma built_nodes_first_seen_witness :
  exists G,
    build_graph interchange = Ok G /\
    od_keys (_node G) = first_seen [] (catalog_ids interchange) /\
    NoDup (od_keys (_node G)) /\
    forall n, has_node G n = true <-> In n (catalog_ids interchange).
Proof.
  assert (HG : exists G, build_graph interchange = Ok G) by (eexists; reflexivity).
  destruct HG as (G & HG). exists G. split; [exact HG |].
  exact (built_nodes_first_seen interchange G HG).
Defined.

Section BuiltEdges.
Context {F : Type} {PF : FloatOps F} {PM : MathOps F}.
Implicit Types (G : Graph F) (stations : catalog F).

(** The edge between [x] and [y] after [add_edge] between two nodes. *)
Lemma get_edge_data_add_edge G u v e x y :
  has_node G u = true -> has_node G v = true ->
  get_edge_data (add_edge G u v e) x y =
  if ((x =? u) && (y =? v)) || ((x =? v) && (y =? u)) then Some e
  else get_edge_data G x y.
Proof.
  intros Hu Hv. rewrite (add_edge_nodes G u v e Hu Hv).
  unfold get_edge_data, neighbors. cbn [_adj]. rewrite od_get_set.
  destruct (Z.eqb_spec x v) as [-> | Hxv].
  - rewrite od_get_set, od_get_set. rewrite andb_true_l.
    destruct (Z.eqb_spec y u) as [-> | Hyu]; [now rewrite orb_true_r | rewrite orb_false_r].
    destruct (Z.eqb_spec v u) as [-> | Hvu].
    + rewrite od_get_set. destruct (Z.eqb_spec y u); [contradiction | reflexivity].
    + reflexivity.
  - rewrite andb_false_l, orb_false_r, od_get_set.
    destruct (Z.eqb_spec x u) as [-> | Hxu]; [| reflexivity].
    rewrite od_get_set. simpl. destruct (y =? v); reflexivity.
Qed.

Lemma undirected_add_edge G u v e :
  has_node G u = true -> has_node G v = true ->
  undirected G -> undirected (add_edge G u v e).
Proof.
  intros Hu Hv Hsym x y.
  rewrite (get_edge_data_add_edge G u v e x y Hu Hv), (get_edge_data_add_edge G u v e y x Hu Hv).
  rewrite (Hsym x y).
  now rewrite orb_comm, (andb_comm (x =? v)), (andb_comm (x =? u)).
Qed.

Lemma no_edges_get G :
  all_edges (fun _ => False) G -> forall x y, get_edge_data G x y = None.
Proof.
  intros Hno x y. destruct (get_edge_data G x y) as [e |] eqn:He; [| reflexivity].
  exfalso. apply edge_In_neighbors in He.
  exact (Hno x _ (neighbors_In_adj G x y e He) y e He).
Qed.

Lemma add_records_no_edges (rs : list (pystr * station F)) G1 :
  add_records rs empty_graph = Ok G1 -> forall x y, get_edge_data G1 x y = None.
Proof.
  intros H1. apply no_edges_get.
  apply (add_records_edges (fun _ => False) rs empty_graph G1); [| exact H1].
  intros x nbrs [].
Qed.

Lemma last_link_snoc (L : list (pystr * (Z * Z))) a x y :
  last_link (L ++ [a]) x y = if joins a x y then Some (fst a) else last_link L x y.
Proof.
  unfold last_link. rewrite rev_app_distr. simpl. now destruct (joins a x y).
Qed.

Lemma last_link_linked (L : list (pystr * (Z * Z))) x y :
  last_link L x y <> None <-> exists ln, In (ln, (x, y)) L \/ In (ln, (y, x)) L.
Proof.
  unfold last_link. split.
  - destruct (find _ (rev L)) as [[ln [u v]] |] eqn:Hf; [intros _ | now intros []].
    apply find_some in Hf as [Hin Hj]. apply in_rev in Hin. exists ln.
    unfold joins in Hj. simpl in Hj. apply orb_true_iff in Hj as [Hj | Hj];
      apply andb_true_iff in Hj as [H1 H2]; apply Z.eqb_eq in H1, H2; subst; auto.
  - intros [ln Hin]. destruct (find _ (rev L)) eqn:Hf; [discriminate |]. exfalso.
    destruct Hin as [Hin | Hin]; apply in_rev in Hin; apply (find_none _ _ Hf) in Hin;
      unfold joins in Hin; simpl in Hin; rewrite !Z.eqb_refl in Hin; simpl in Hin;
      [discriminate | now rewrite orb_true_r in Hin].
Qed.

Lemma edges_are_add_edge L G u v w ln :
  has_node G u = true -> has_node G v = true ->
  edges_are L G ->
  edges_are (L ++ [(ln, (u, v))]) (add_edge G u v {| weight := w; edge_line := ln |}).
Proof.
  intros Hu Hv HL x y. rewrite (get_edge_data_add_edge G u v _ x y Hu Hv), last_link_snoc.
  unfold joins. simpl. destruct (_ || _); [reflexivity | apply HL].
Qed.

Lemma add_line_edges_links ln (sts : list (station F)) L G G' :
  (forall st, In st sts -> has_node G (s_id st) = true) ->
  edges_are L G -> undirected G ->
  add_line_edges ln sts G = Ok G' ->
  edges_are (L ++ map (pair ln) (pairs (map s_id sts))) G' /\ undirected G' /\
  _node G' = _node G.
Proof.
  revert L G. induction sts as [| st1 [| st2 rest] IH]; intros L G Hn HL Hsym.
  - intros [= <-]. simpl. now rewrite app_nil_r.
  - intros [= <-]. simpl. now rewrite app_nil_r.
  - rewrite add_line_edges_cons.
    destruct (float (s_latitude st1)) as [lat1 |]; cbn [bind]; [| discriminate].
    destruct (float (s_longitude st1)) as [lon1 |]; cbn [bind]; [| discriminate].
    destruct (float (s_latitude st2)) as [lat2 |]; cbn [bind]; [| discriminate].
    destruct (float (s_longitude st2)) as [lon2 |]; cbn [bind]; [| discriminate].
    destruct (_haversine_distance lat1 lon1 lat2 lon2) as [w |]; cbn [bind]; [| discriminate].
    assert (H1 : has_node G (s_id st1) = true) by (apply Hn; now left).
    assert (H2 : has_node G (s_id st2) = true) by (apply Hn; right; now left).
    assert (Hnode : _node (add_edge G (s_id st1) (s_id st2)
                             {| weight := w; edge_line := ln |}) = _node G)
      by now rewrite add_edge_nodes.
    intros Hrest.
    apply (IH (L ++ [(ln, (s_id st1, s_id st2))])) in Hrest as (HL' & Hsym' & Hnode').
    + split; [| split; [assumption | congruence]].
      change (pairs (map s_id (st1 :: st2 :: rest)))
        with ((s_id st1, s_id st2) :: pairs (map s_id (st2 :: rest))).
      simpl map. rewrite <- app_assoc in HL'. exact HL'.
    + intros st Hst. unfold has_node. rewrite Hnode. apply Hn. now right.
    + now apply edges_are_add_edge.
    + now apply undirected_add_edge.
Qed.

Lemma add_edges_links stations L G G' :
  (forall r, In r (records stations) -> has_node G (s_id (snd r)) = true) ->
  edges_are L G -> undirected G ->
  add_edges stations G = Ok G' ->
  edges_are (L ++ links stations) G' /\ undirected G'.
Proof.
  revert L G. induction stations as [| [ln sts] rest IH]; intros L G Hn HL Hsym; simpl.
  - intros [= <-]. now rewrite app_nil_r.
  - destruct (add_line_edges ln sts G) as [G1 |] eqn:H1; cbn [bind]; [| discriminate].
    apply (add_line_edges_links ln sts L) in H1 as (HL1 & Hsym1 & Hnode1);
      [| | assumption | assumption].
    + intros Hrest. apply (IH (L ++ map (pair ln) (pairs (map s_id sts)))) in Hrest;
        [| | assumption | assumption].
      * unfold links. simpl. fold (links rest). now rewrite app_assoc.
      * intros r Hr. unfold has_node. rewrite Hnode1. apply Hn.
        unfold records. simpl. apply in_or_app. now right.
    + intros st Hst. apply (Hn (ln, st)). unfold records. simpl.
      apply in_or_app. left. now apply in_map.
Qed.

Lemma build_graph_links stations G :
  build_graph stations = Ok G -> edges_are (links stations) G /\ undirected G.
Proof.
  intros HG. destruct (build_graph_loops _ _ HG) as (G1 & H1 & H2 & _).
  pose proof (add_records_no_edges _ _ H1) as Hnone.
  apply (add_edges_links stations [] G1) in H2; [exact H2 | | |].
  - intros r Hr. now apply (add_records_has_node _ _ _ r H1).
  - intros x y. now rewrite Hnone.
  - intros x y. now rewrite !Hnone.
Qed.

End BuiltEdges.



(** X3.  Two stations are joined by an edge of the built graph exactly
    when they follow one another on some line of the catalog, in either
    order; and the line tag of the edge is the line of the last such link
    in reading order. *)
Theorem built_edges_last_link
  {F : Type} {PF : FloatOps F} {PM : MathOps F} (stations : catalog F) (G : Graph F) :
  build_graph stations = Ok G ->
  forall x y,
    (get_edge_data G x y <> None <-> exists ln, linked stations ln x y) /\
    option_map edge_line (get_edge_data G x y) = last_link (links stations) x y.
Proof.
  intros HG x y. pose proof (proj1 (build_graph_links stations G HG) x y) as HL.
  split; [| exact HL]. unfold linked. rewrite <- last_link_linked, <- HL.
  destruct (get_edge_data G x y); simpl; split; congruence.
Qed.

Lemma built_edges_last_link_witness :
  exists G : Graph R, build_graph beyond_the_pole = Ok G /\
    forall x y,
      (get_edge_data G x y <> None <-> exists ln, linked beyond_the_pole ln x y) /\
      option_map edge_line (get_edge_data G x y) = last_link (links beyond_the_pole) x y.
Proof.
  destruct (build_graph_total beyond_the_pole) as (G & HG).
  { intros r [<- | [<- | []]]; eexists; reflexivity. }
  exists G. split; [exact HG |].
  exact (built_edges_last_link beyond_the_pole G HG).
Defined.

Section Lengths.
Local Open Scope R_scope.


End Lengths.



Section RouteLegs.
Context {F : Type} {PF : FloatOps F}.
Variable G : Graph F.
Variable P : leg F -> Prop.

Hypothesis Pleg : forall x y e cur nxt,
  get_edge_data G x y = Some e -> node_data G x = Ok cur -> node_data G y = Ok nxt ->
  P {| from_id := x; from_name := name cur; to_id := y; to_name := name nxt;
       leg_line := edge_line e; distance := fround (weight e) 2;
       time := fround (travel_time_of (weight e)) 1 |}.

(** What holds of each leg as it is appended holds of all the legs. *)
Lemma route_loop_legs p td tt acc td' tt' legs :
  route_loop G p td tt acc = Ok (td', tt', legs) -> Forall P acc -> Forall P legs.
Proof.
  revert td tt acc. induction p as [| x rest IH]; intros td tt acc.
  - now intros [= <- <- <-].
  - destruct rest as [| y rest].
    + now intros [= <- <- <-].
    + rewrite route_loop_cons.
      destruct (get_edge_data G x y) as [e |] eqn:He; cbn [bind or_raise]; [| discriminate].
      destruct (node_data G x) as [cur | ] eqn:Hx; [| discriminate]. cbn [bind or_raise].
      destruct (node_data G y) as [nxt | ] eqn:Hy; [| discriminate]. cbn [bind or_raise].
      intros Hloop Hacc. apply IH in Hloop; [exact Hloop |].
      apply Forall_app. split; [exact Hacc |]. constructor; [| constructor].
      now apply Pleg.
Qed.

End RouteLegs.

(** X5.  The answer of [find_shortest_path] agrees with
    [get_station_by_id]: every entry of ['stations'] is what the lookup
    of its id returns, and the two names of every leg are the names the
    lookup gives for the leg's two ids. *)
Theorem route_agrees_with_lookup
  {F : Type} {PF : FloatOps F} (G : Graph F) (source_id target_id : Z) (r : route F) :
  find_shortest_path G source_id target_id = Some r ->
  Forall (fun i => get_station_by_id G (i_id i) = Some i) (stations r) /\
  Forall (leg_names G) (route_details r).
Proof.
  intros Hr. destruct (find_shortest_path_Some G _ _ _ Hr) as (td & tt & sts & _ & Hlegs & Hsts & ->).
  cbn [stations route_details]. split.
  - apply stations_loop_spec in Hsts as (new & -> & _ & Hall). exact Hall.
  - apply (route_loop_legs G (leg_names G)) in Hlegs; [exact Hlegs | | constructor].
    intros x y e cur nxt _ Hx Hy. unfold leg_names, get_station_by_id. cbn [from_id to_id].
    rewrite Hx, Hy. eexists. eexists. repeat split.
Qed.

Lemma route_agrees_with_lookup_witness :
  exists r, find_shortest_path triangle 1 3 = Some r /\
    Forall (fun i => get_station_by_id triangle (i_id i) = Some i) (stations r) /\
    Forall (leg_names triangle) (route_details r).
Proof.
  eexists. split; [reflexivity |].
  exact (route_agrees_with_lookup triangle 1 3 _ eq_refl).
Defined.

Lemma last_link_Some (L : list (pystr * (Z * Z))) x y ln :
  last_link L x y = Some ln -> In (ln, (x, y)) L \/ In (ln, (y, x)) L.
Proof.
  unfold last_link. destruct (find _ (rev L)) as [[ln' [u v]] |] eqn:Hf; [| discriminate].
  intros [= <-]. apply find_some in Hf as [Hin Hj]. apply in_rev in Hin.
  unfold joins in Hj. simpl in Hj. apply orb_true_iff in Hj as [Hj | Hj];
    apply andb_true_iff in Hj as [H1 H2]; apply Z.eqb_eq in H1, H2; subst; auto.
Qed.

(** X6.  On the graph built from a catalog, every leg of a route joins
    two stations that follow one another on a line of the catalog, and
    the leg is reported on such a line. *)
Theorem route_legs_follow_lines
  {F : Type} {PF : FloatOps F} {PM : MathOps F}
  (stations : catalog F) (G : Graph F) (source_id target_id : Z) (r : route F) :
  build_graph stations = Ok G ->
  find_shortest_path G source_id target_id = Some r ->
  Forall (fun l => linked stations (leg_line l) (from_id l) (to_id l)) (route_details r).
Proof.
  intros HG Hr.
  destruct (find_shortest_path_Some G _ _ _ Hr) as (td & tt & sts & _ & Hlegs & _ & _).
  apply (route_loop_legs G (fun l => linked stations (leg_line l) (from_id l) (to_id l)))
    in Hlegs; [exact Hlegs | | constructor].
  intros x y e cur nxt He _ _. cbn [leg_line from_id to_id].
  pose proof (proj1 (build_graph_links stations G HG) x y) as HL.
  rewrite He in HL. simpl in HL. symmetry in HL. now apply last_link_Some.
Qed.

(** The line of two stations is built, and a route joins the two. *)
Lemma pole_route :
  exists (G : Graph R) (r : route R),
    build_graph beyond_the_pole = Ok G /\ find_shortest_path G 1 2 = Some r.
Proof.
  destruct (build_graph_total beyond_the_pole) as (G & HG).
  { intros r [<- | [<- | []]]; eexists; reflexivity. }
  pose proof (proj1 (build_graph_links _ _ HG) 1 2) as HL.
  destruct (get_edge_data G 1 2) as [e |] eqn:He; [| discriminate HL].
  pose proof (build_graph_ok _ _ HG) as Hok.
  destruct (edge_has_node G Hok 1 2 e He) as [H1 H2].
  destruct (built_graph_shortest_path beyond_the_pole G 1 2 HG H1 H2) as (r & _ & Hr & _).
  - exists [1; 2]. eexists. split; [reflexivity | split; [reflexivity |]].
    unfold path_weight. simpl. rewrite He. reflexivity.
  - now exists G, r.
Qed.

Lemma route_legs_follow_lines_witness :
  exists (G : Graph R) (r : route R),
    build_graph beyond_the_pole = Ok G /\ find_shortest_path G 1 2 = Some r /\
    Forall (fun l => linked beyond_the_pole (leg_line l) (from_id l) (to_id l))
           (route_details r).
Proof.
  destruct pole_route as (G & r & HG & Hr). exists G, r.
  split; [exact HG |]. split; [exact Hr |].
  exact (route_legs_follow_lines beyond_the_pole G 1 2 r HG Hr).
Defined.

(* ================================================================== *)
(** * More of the search *)

Section Substrings.

Lemma starts_with_app_l (a b s : pystr) :
  starts_with (a ++ b) s = true -> starts_with a s = true.
Proof.
  revert s. induction a as [| c a IH]; intros s; simpl; [reflexivity |].
  destruct s as [| c' s]; [discriminate |].
  intros H. apply andb_true_iff in H as [Hc H]. rewrite Hc. simpl. now apply IH.
Qed.

Lemma str_in_starts (q s : pystr) : starts_with q s = true -> str_in q s = true.
Proof. intros H. destruct s; simpl in *; rewrite H; reflexivity. Qed.

Lemma str_in_tail (q : pystr) (c : N) (s : pystr) :
  str_in q s = true -> str_in q (c :: s) = true.
Proof. intros H. simpl. rewrite H. apply orb_true_r. Qed.

Lemma starts_with_app_r (a b s : pystr) :
  starts_with (a ++ b) s = true -> str_in b s = true.
Proof.
  revert s. induction a as [| c a IH]; intros s; simpl.
  - apply str_in_starts.
  - destruct s as [| c' s]; [discriminate |].
    intros H. apply andb_true_iff in H as [_ H]. apply str_in_tail. now apply IH.
Qed.

(** A string that contains [a ++ b] contains [a] and contains [b]. *)
Lemma str_in_app (a b s : pystr) :
  str_in (a ++ b) s = true -> str_in a s = true /\ str_in b s = true.
Proof.
  induction s as [| c s IH].
  - intros H. change (str_in (a ++ b) []) with (starts_with (a ++ b) [] || false) in H.
    rewrite orb_false_r in H. split.
    + apply str_in_starts. now apply (starts_with_app_l a b).
    + now apply (starts_with_app_r a b).
  - intros H. change (str_in (a ++ b) (c :: s))
      with (starts_with (a ++ b) (c :: s) || str_in (a ++ b) s) in H.
    apply orb_true_iff in H as [H | H].
    + split; [apply str_in_starts; now apply (starts_with_app_l a b) |
              now apply (starts_with_app_r a b)].
    + destruct (IH H) as [Ha Hb]. split; now apply str_in_tail.
Qed.

Lemma starts_with_refl (s : pystr) : starts_with s s = true.
Proof. induction s as [| c s IH]; simpl; [reflexivity |]. now rewrite N.eqb_refl. Qed.

Lemma str_in_nil (s : pystr) : str_in [] s = true.
Proof. now destruct s. Qed.

End Substrings.

Section SearchMore.
Context {F : Type} {PF : FloatOps F}.
Implicit Types (G : Graph F) (q : pystr).

Lemma search_loop_total q (nodes : odict (option (node_attrs F))) acc :
  (forall n a, In (n, a) nodes -> a <> None) ->
  search_loop q nodes acc = Ok (acc ++ matching q nodes).
Proof.
  revert acc. induction nodes as [| [n a] nodes IH]; intros acc Hall; simpl.
  - now rewrite app_nil_r.
  - destruct a as [a |]; [| exfalso; now apply (Hall n None); [left |]].
    cbn [or_raise bind]. unfold matching in *. simpl.
    destruct (str_in q (upper (name a))).
    + rewrite IH by (intros n' a' Hin; apply (Hall n' a'); now right).
      now rewrite <- app_assoc.
    + apply IH. intros n' a' Hin. apply (Hall n' a'). now right.
Qed.

(** On a well-formed graph the search never raises. *)
Lemma search_stations_ok G q :
  graph_ok G = true -> search_stations G q = Ok (matching (upper q) (_node G)).
Proof.
  intros Hok. apply graph_ok_iff in Hok as [_ Hattrs].
  unfold search_stations. now rewrite (search_loop_total _ _ [] Hattrs).
Qed.

Lemma matching_In q (nodes : odict (option (node_attrs F))) i :
  In i (matching q nodes) <->
  exists n a, In (n, Some a) nodes /\ str_in q (upper (name a)) = true /\
              i = station_dict n a.
Proof.
  unfold matching. rewrite in_flat_map. split.
  - intros ([n [a |]] & Hin & Hi); simpl in Hi; [| contradiction].
    destruct (str_in q (upper (name a))) eqn:Hq; [| contradiction].
    destruct Hi as [<- | []]. now exists n, a.
  - intros (n & a & Hin & Hq & ->). exists (n, Some a). split; [assumption |].
    simpl. rewrite Hq. now left.
Qed.

Lemma matching_ids q (nodes : odict (option (node_attrs F))) :
  NoDup (od_keys nodes) -> NoDup (map i_id (matching q nodes)).
Proof.
  induction nodes as [| [n a] nodes IH]; simpl; intros Hnd; [constructor |].
  inversion Hnd as [| ? ? Hn Hnd']; subst. unfold matching. simpl.
  fold (matching q nodes). rewrite map_app. specialize (IH Hnd').
  assert (Hnot : ~ In n (map i_id (matching q nodes))).
  { intros Hin. apply in_map_iff in Hin as (i & Hi & Hin).
    apply matching_In in Hin as (n' & a' & Hin & _ & ->). simpl in Hi. subst n'.
    apply Hn. now apply (in_map fst) in Hin. }
  destruct a as [a |]; [| exact IH].
  destruct (str_in q (upper (name a))); [| exact IH].
  simpl. now constructor.
Qed.

Lemma matching_all (nodes : odict (option (node_attrs F))) :
  (forall n a, In (n, a) nodes -> a <> None) ->
  map i_id (matching [] nodes) = od_keys nodes.
Proof.
  induction nodes as [| [n a] nodes IH]; intros Hall; [reflexivity |].
  unfold matching. simpl. fold (matching [] nodes). rewrite map_app.
  rewrite IH by (intros n' a' Hin; apply (Hall n' a'); now right).
  destruct a as [a |]; [| exfalso; now apply (Hall n None); [left |]].
  now rewrite str_in_nil.
Qed.

Lemma matching_narrows q x (nodes : odict (option (node_attrs F))) i :
  In i (matching (upper (q ++ x)) nodes) ->
  In i (matching (upper q) nodes) /\ In i (matching (upper x) nodes).
Proof.
  rewrite !matching_In. intros (n & a & Hin & Hq & ->).
  rewrite upper_app in Hq. apply str_in_app in Hq as [Hq Hx].
  split; exists n, a; auto.
Qed.

End SearchMore.

(** X7.  On the graph built from a catalog [search_stations] never
    raises; no station is listed twice, and a station is listed exactly
    when it is what [get_station_by_id] returns for its id and its
    upper-cased name contains the upper-cased query. *)
Theorem search_lists_matching_stations
  {F : Type} {PF : FloatOps F} {PM : MathOps F}
  (stations : catalog F) (G : Graph F) (query : pystr) :
  build_graph stations = Ok G ->
  exists results,
    search_stations G query = Ok results /\
    NoDup (map i_id results) /\
    forall i, In i results <->
              get_station_by_id G (i_id i) = Some i /\
              str_in (upper query) (upper (i_name i)) = true.
Proof.
  intros HG. pose proof (build_graph_ok _ _ HG) as Hok.
  pose proof (build_graph_NoDup _ _ HG) as Hnd.
  exists (matching (upper query) (_node G)). split; [now apply search_stations_ok |].
  split; [now apply matching_ids |].
  intros i. rewrite matching_In. split.
  - intros (n & a & Hin & Hq & ->). split; [| exact Hq].
    unfold get_station_by_id, node_data, nodes_getitem. simpl.
    now rewrite (In_od_get _ _ _ Hnd Hin).
  - intros [Hget Hq]. unfold get_station_by_id, node_data, nodes_getitem in Hget.
    destruct (od_get (i_id i) (_node G)) as [[a |] |] eqn:Hg; try discriminate.
    simpl in Hget. injection Hget as Hi. exists (i_id i), a.
    split; [now apply od_get_In |]. split; [| now rewrite Hi].
    rewrite <- Hi in Hq. exact Hq.
Qed.

Lemma search_lists_matching_stations_witness :
  exists (G : Graph R) results,
    build_graph interchange = Ok G /\
    search_stations G (str "kapi") = Ok results /\
    NoDup (map i_id results) /\
    forall i, In i results <->
              get_station_by_id G (i_id i) = Some i /\
              str_in (upper (str "kapi")) (upper (i_name i)) = true.
Proof.
  assert (HG : exists G : Graph R, build_graph interchange = Ok G) by (eexists; reflexivity).
  destruct HG as (G & HG).
  destruct (search_lists_matching_stations interchange G (str "kapi") HG) as (res & Hres).
  exists G, res. split; [exact HG | exact Hres].
Defined.

(** X8.  The empty query matches every name: on a well-formed graph
    [search_stations] then lists all the stations, in the order of the
    node table. *)
Theorem search_empty_query_lists_all
  {F : Type} {PF : FloatOps F} (G : Graph F) :
  graph_ok G = true ->
  exists results,
    search_stations G [] = Ok results /\ map i_id results = od_keys (_node G).
Proof.
  intros Hok. exists (matching (upper []) (_node G)).
  split; [now apply search_stations_ok |].
  apply graph_ok_iff in Hok as [_ Hattrs]. now apply matching_all.
Qed.

Lemma search_empty_query_lists_all_witness :
  exists results,
    search_stations triangle [] = Ok results /\ map i_id results = od_keys (_node triangle).
Proof.
  exact (search_empty_query_lists_all triangle eq_refl).
Defined.

(** X9.  A longer query never finds more: whatever is found for the
    query [q ++ x] is found for [q] and is found for [x]. *)
Theorem search_narrows
  {F : Type} {PF : FloatOps F} (G : Graph F) (q x : pystr)
  (longer first second : list (station_info F)) :
  search_stations G (q ++ x) = Ok longer ->
  search_stations G q = Ok first ->
  search_stations G x = Ok second ->
  incl longer first /\ incl longer second.
Proof.
  unfold search_stations. intros Hl Hf Hs.
  apply search_loop_spec in Hl, Hf, Hs. simpl in Hl, Hf, Hs. subst.
  split; intros i Hi; now apply matching_narrows in Hi.
Qed.

Lemma search_narrows_witness :
  exists longer first second,
    search_stations dotted_graph ([304; 84] ++ [220])%N = Ok longer /\
    search_stations dotted_graph [304; 84]%N = Ok first /\
    search_stations dotted_graph [220]%N = Ok second /\
    incl longer first /\ incl longer second.
Proof.
  eexists. eexists. eexists.
  split; [reflexivity |]. split; [reflexivity |]. split; [reflexivity |].
  exact (search_narrows dotted_graph [304; 84]%N [220]%N _ _ _ eq_refl eq_refl eq_refl).
Defined.

(* ================================================================== *)
(** * The catalog and its corrections *)

Lemma pystr_eqb_eq (a b : pystr) : pystr_eqb a b = true <-> a = b.
Proof.
  revert b. induction a as [| x a IH]; intros [| y b]; simpl; split; try discriminate; auto.
  - intros H. apply andb_true_iff in H as [Hx Hab]. apply N.eqb_eq in Hx.
    apply IH in Hab. now subst.
  - intros [= -> ->]. rewrite N.eqb_refl. simpl. now apply IH.
Qed.

Lemma pystr_eqb_refl (a : pystr) : pystr_eqb a a = true.
Proof. now apply pystr_eqb_eq. Qed.

Lemma pystr_eqb_neq (a b : pystr) : pystr_eqb a b = false <-> a <> b.
Proof.
  split.
  - intros H Heq. apply pystr_eqb_eq in Heq. congruence.
  - intros H. destruct (pystr_eqb a b) eqn:Hab; [| reflexivity].
    apply pystr_eqb_eq in Hab. contradiction.
Qed.

Section UpdateAt.
Context {A : Type}.
Implicit Types (l : list A) (f : A -> A).

Lemma update_at_length i f l : List.length (update_at i f l) = List.length l.
Proof.
  revert i. induction l as [| x l IH]; intros [| i]; simpl; try reflexivity.
  now rewrite IH.
Qed.

Lemma update_at_beyond i f l : (List.length l <= i)%nat -> update_at i f l = l.
Proof.
  revert i. induction l as [| x l IH]; intros [| i]; simpl; try reflexivity; try lia.
  intros H. rewrite IH; [reflexivity | lia].
Qed.

Lemma nth_error_update_at i f l j :
  nth_error (update_at i f l) j =
  if Nat.eqb i j then option_map f (nth_error l j) else nth_error l j.
Proof.
  revert i j. induction l as [| x l IH]; intros [| i] [| j]; simpl; try reflexivity.
  - now destruct (Nat.eqb i j).
  - apply IH.
Qed.

Lemma map_update_at {B : Type} (g : A -> B) i f l :
  (forall x, g (f x) = g x) -> map g (update_at i f l) = map g l.
Proof.
  intros Hg. revert i. induction l as [| x l IH]; intros [| i]; simpl; try reflexivity.
  - now rewrite Hg.
  - now rewrite IH.
Qed.

Lemma In_update_at i f l y :
  In y (update_at i f l) -> In y l \/ exists x, In x l /\ y = f x.
Proof.
  revert i. induction l as [| x l IH]; intros [| i]; simpl; try tauto.
  - intros [<- | H]; [right; exists x; auto | tauto].
  - intros [<- | H]; [tauto |]. destruct (IH _ H) as [H' | (x' & Hx' & ->)]; [tauto |].
    right. exists x'. auto.
Qed.

End UpdateAt.

Section Catalog.
Context {F : Type} {PF : FloatOps F}.
Implicit Types (s : catalog F) (key : pystr) (l : list (station F)) (c : correction (F:=F)).

Lemma get_line_In key s l : get_line key s = Ok l -> In (key, l) s.
Proof.
  induction s as [| [k l'] s IH]; simpl; [discriminate |].
  destruct (pystr_eqb key k) eqn:Hk.
  - apply pystr_eqb_eq in Hk. intros [= ->]. left. now subst.
  - intros H. right. now apply IH.
Qed.

Lemma In_get_line key s l : NoDup (line_keys s) -> In (key, l) s -> get_line key s = Ok l.
Proof.
  induction s as [| [k l'] s IH]; simpl; [tauto |].
  intros Hnd Hin. inversion Hnd as [| ? ? Hk Hnd']; subst.
  destruct Hin as [[= -> ->] | Hin].
  - now rewrite pystr_eqb_refl.
  - destruct (pystr_eqb key k) eqn:Hkey.
    + apply pystr_eqb_eq in Hkey. subst. exfalso. apply Hk.
      now apply (in_map fst) in Hin.
    + now apply IH.
Qed.

Lemma get_line_key key s : In key (line_keys s) -> exists l, get_line key s = Ok l.
Proof.
  induction s as [| [k l'] s IH]; simpl; [tauto |].
  destruct (pystr_eqb key k) eqn:Hk; [now exists l' |].
  intros [-> | Hin]; [now rewrite pystr_eqb_refl in Hk | now apply IH].
Qed.

Lemma get_line_missing key s : ~ In key (line_keys s) -> get_line key s = Raise KeyError.
Proof.
  induction s as [| [k l'] s IH]; simpl; [reflexivity |].
  intros Hn. destruct (pystr_eqb key k) eqn:Hk.
  - apply pystr_eqb_eq in Hk. subst. tauto.
  - apply IH. tauto.
Qed.

(** A map over the lines that leaves every line but [key] alone does
    nothing where [key] does not occur. *)
Lemma map_other_lines key (g : pystr -> list (station F) -> list (station F)) s :
  (forall k l, k <> key -> g k l = l) ->
  ~ In key (line_keys s) -> map (fun kl => (fst kl, g (fst kl) (snd kl))) s = s.
Proof.
  intros Hg. induction s as [| [k l'] s IH]; simpl; [reflexivity |].
  intros Hn. rewrite IH by tauto. rewrite Hg; [reflexivity | intros ->; tauto].
Qed.

Lemma on_line_other c k l : k <> correction_key c -> on_line c k l = l.
Proof. intros Hk. unfold on_line. apply pystr_eqb_neq in Hk. now rewrite Hk. Qed.

(** One statement rewrites the line of its key and nothing else. *)
Lemma apply_correction_map c s :
  NoDup (line_keys s) -> In (correction_key c) (line_keys s) ->
  apply_correction c s = Ok (map (fun kl => (fst kl, on_line c (fst kl) (snd kl))) s).
Proof.
  induction s as [| [k l0] s IH]; simpl; [tauto |].
  intros Hnd Hin. inversion Hnd as [| ? ? Hk Hnd']; subst.
  destruct (pystr_eqb (correction_key c) k) eqn:Hkey.
  - apply pystr_eqb_eq in Hkey. subst k.
    rewrite (map_other_lines (correction_key c) (on_line c) s (on_line_other c) Hk).
    unfold on_line. rewrite pystr_eqb_refl.
    destruct c as [key rows | key i lat lon new_id]; simpl in *.
    + now rewrite pystr_eqb_refl.
    + rewrite pystr_eqb_refl. cbn [bind].
      destruct (Nat.ltb_spec i (List.length l0)) as [Hlt | Hge].
      * simpl. rewrite ?pystr_eqb_refl. reflexivity.
      * now rewrite update_at_beyond.
  - destruct Hin as [Heq | Hin]; [subst; now rewrite pystr_eqb_refl in Hkey |].
    specialize (IH Hnd' Hin).
    assert (Hhead : on_line c k l0 = l0).
    { apply on_line_other. intros ->. now rewrite pystr_eqb_refl in Hkey. }
    rewrite Hhead.
    destruct c as [key rows | key i lat lon new_id]; simpl in *.
    + rewrite Hkey. injection IH as IH. now rewrite IH.
    + rewrite Hkey.
      destruct (get_line (str key) s) as [l |] eqn:Hl; cbn [bind] in *; [| discriminate].
      destruct (i <? List.length l)%nat.
      * simpl. rewrite ?Hkey. injection IH as IH. now rewrite IH.
      * injection IH as IH. now rewrite <- IH.
Qed.

Lemma line_keys_map (g : pystr -> list (station F) -> list (station F)) s :
  line_keys (map (fun kl => (fst kl, g (fst kl) (snd kl))) s) = line_keys s.
Proof. unfold line_keys. rewrite map_map. reflexivity. Qed.


(** A run of statements rewrites each line by itself. *)
Lemma apply_all_map (cs : list (correction (F:=F))) s :
  NoDup (line_keys s) ->
  (forall c, In c cs -> In (correction_key c) (line_keys s)) ->
  apply_all cs s =
  Ok (map (fun kl => (fst kl, fold_left (fun l c => on_line c (fst kl) l) cs (snd kl))) s).
Proof.
  revert s. induction cs as [| c cs IH]; intros s Hnd Hkeys; simpl.
  - f_equal. symmetry. rewrite <- (map_id s) at 2. apply map_ext. now intros [k l].
  - rewrite (apply_correction_map c s Hnd) by (apply Hkeys; now left). cbn [bind].
    rewrite IH.
    + f_equal. rewrite map_map. reflexivity.
    + now rewrite line_keys_map.
    + intros c' Hc'. rewrite line_keys_map. apply Hkeys. now right.
Qed.

(** Every statement writes to one of the lines of [__init__]. *)
Lemma correction_keys_declared (c : correction (F:=F)) :
  In c corrections -> In (correction_key c) (map str line_names).
Proof.
  assert (H : forallb (fun c : correction (F:=F) =>
                         existsb (pystr_eqb (correction_key c)) (map str line_names))
                      corrections = true) by (vm_compute; reflexivity).
  rewrite forallb_forall in H. intros Hc. specialize (H c Hc).
  apply existsb_exists in H as (k & Hk & Heq). apply pystr_eqb_eq in Heq. now subst.
Qed.

Lemma apply_corrections_map s :
  NoDup (line_keys s) -> incl (map str line_names) (line_keys s) ->
  _apply_corrections s =
  Ok (map (fun kl => (fst kl, corrected_line (fst kl) (snd kl))) s).
Proof.
  intros Hnd Hincl. unfold _apply_corrections, corrected_line.
  apply apply_all_map; [assumption |].
  intros c Hc. apply Hincl. now apply correction_keys_declared.
Qed.

End Catalog.

Section CorrectedLine.
Context {F : Type} {PF : FloatOps F}.
Implicit Types (key : pystr) (l : list (station F)).

(** The lines no statement writes to are left as they are. *)
Lemma fold_on_line_other (cs : list (correction (F:=F))) key l :
  (forall c, In c cs -> key <> correction_key c) ->
  fold_left (fun l c => on_line c key l) cs l = l.
Proof.
  revert l. induction cs as [| c cs IH]; intros l Hk; simpl; [reflexivity |].
  rewrite on_line_other by (apply Hk; now left). apply IH. intros c' Hc'. apply Hk. now right.
Qed.

(** Patches keep the length of a line and the name, order and line
    field of each of its stations. *)
Lemma fold_on_line_shape (cs : list (correction (F:=F))) key l :
  (forall k rows, In (table k rows) cs -> key <> str k) ->
  let l' := fold_left (fun l c => on_line c key l) cs l in
  List.length l' = List.length l /\ map s_name l' = map s_name l /\
  map s_order l' = map s_order l /\ map s_line l' = map s_line l.
Proof.
  revert l. induction cs as [| c cs IH]; intros l Hk; simpl; [auto |].
  destruct (IH (on_line c key l)) as (H1 & H2 & H3 & H4).
  { intros k rows Hin. apply (Hk k rows). now right. }
  rewrite H1, H2, H3, H4. unfold on_line.
  destruct (pystr_eqb key (correction_key c)) eqn:Hkey; [| auto].
  destruct c as [k rows | k i lat lon new_id].
  - apply pystr_eqb_eq in Hkey. exfalso. apply (Hk k rows); [now left | exact Hkey].
  - cbn [line_step]. rewrite update_at_length, !map_update_at by reflexivity. auto.
Qed.

Lemma is_table_false key :
  is_table (F:=F) key = false ->
  forall k rows, In (table k rows) (corrections (F:=F)) -> key <> str k.
Proof.
  unfold is_table. intros Hf k rows Hin Heq.
  assert (Ht : existsb (fun c : correction (F:=F) =>
                          match c with
                          | table k _ => pystr_eqb key (str k)
                          | patch _ _ _ _ _ => false
                          end) corrections = true).
  { apply existsb_exists. exists (table k rows). split; [exact Hin |].
    now apply pystr_eqb_eq. }
  congruence.
Qed.

Lemma corrected_line_shape key l :
  is_table (F:=F) key = false ->
  List.length (corrected_line key l) = List.length l /\
  map s_name (corrected_line key l) = map s_name l /\
  map s_order (corrected_line key l) = map s_order l /\
  map s_line (corrected_line key l) = map s_line l.
Proof.
  intros Hf. apply (fold_on_line_shape corrections key l). now apply is_table_false.
Qed.

Lemma corrected_line_tables l :
  corrected_line (str "MM") l = MM_table /\ corrected_line (str "M3") l = M3_table /\
  corrected_line (str "M1B") l = M1B_table /\ corrected_line (str "M1A") l = M1A_table.
Proof. repeat split. Qed.

End CorrectedLine.

Section Idempotent.
Context {F : Type} {PF : FloatOps F}.
Implicit Types (key : pystr) (l : list (station F)).

Lemma corrected_line_untouched key l :
  existsb (pystr_eqb key) (map (correction_key (F:=F)) corrections) = false ->
  corrected_line key l = l.
Proof.
  intros Hf. apply fold_on_line_other. intros c Hc Heq.
  assert (Ht : existsb (pystr_eqb key) (map (correction_key (F:=F)) corrections) = true).
  { apply existsb_exists. exists (correction_key c). split; [now apply in_map |].
    now apply pystr_eqb_eq. }
  congruence.
Qed.

(** Only the statements of a line count for it. *)
Lemma fold_on_line_filter (cs : list (correction (F:=F))) key l :
  fold_left (fun l c => on_line c key l) cs l =
  fold_left (fun l c => line_step c l)
            (filter (fun c => pystr_eqb key (correction_key c)) cs) l.
Proof.
  revert l. induction cs as [| c cs IH]; intros l; simpl; [reflexivity |].
  unfold on_line at 2. destruct (pystr_eqb key (correction_key c)); simpl; apply IH.
Qed.

Lemma corrected_line_idem key l :
  corrected_line key (corrected_line key l) = corrected_line key l.
Proof.
  destruct (existsb (pystr_eqb key) (map (correction_key (F:=F)) corrections)) eqn:Hk.
  - apply existsb_exists in Hk as (k & Hin & Heq). apply pystr_eqb_eq in Heq. subst k.
    cbv [corrections map correction_key] in Hin.
    unfold corrected_line. rewrite !fold_on_line_filter.
    repeat (destruct Hin as [<- | Hin];
            [match goal with
             | |- context [filter ?p corrections] =>
                 let v := eval cbv - [MM_table M3_table M1B_table M1A_table]
                          in (filter p corrections) in
                 change (filter p corrections) with v
             end;
             cbn [fold_left line_step];
             try reflexivity;
             apply nth_error_ext; intros j; rewrite !nth_error_update_at;
             repeat match goal with
                    | |- context [Nat.eqb ?i j] => destruct (Nat.eqb i j)
                    end;
             destruct (nth_error l j); reflexivity |]).
    destruct Hin.
  - now rewrite !corrected_line_untouched.
Qed.

End Idempotent.

Section Corrections.
Context {F : Type} {PF : FloatOps F}.
Implicit Types (s : catalog F) (key : pystr) (l : list (station F)).

Lemma get_line_map (g : pystr -> list (station F) -> list (station F)) key s :
  get_line key (map (fun kl => (fst kl, g (fst kl) (snd kl))) s) =
  (l <- get_line key s ;; Ok (g key l)).
Proof.
  induction s as [| [k l'] s IH]; simpl; [reflexivity |].
  destruct (pystr_eqb key k) eqn:Hk; [| exact IH].
  apply pystr_eqb_eq in Hk. now subst.
Qed.

Lemma empty_lines_keys : line_keys (empty_lines (F:=F)) = map str line_names.
Proof. reflexivity. Qed.

Lemma line_names_NoDup : NoDup (map str line_names).
Proof.
  repeat (constructor; [simpl; intuition discriminate |]). constructor.
Qed.

Lemma line_keys_set_line key l s :
  line_keys (set_line key l s) =
  if existsb (pystr_eqb key) (line_keys s) then line_keys s else line_keys s ++ [key].
Proof.
  induction s as [| [k l'] s IH]; simpl; [reflexivity |].
  destruct (pystr_eqb key k); simpl; [reflexivity |].
  rewrite IH. now destruct (existsb (pystr_eqb key) (line_keys s)).
Qed.


Lemma apply_correction_keys (c : correction (F:=F)) s s' :
  apply_correction c s = Ok s' ->
  forall key, key <> correction_key c -> In key (line_keys s') -> In key (line_keys s).
Proof.
  intros Hc key Hne Hin.
  assert (Hset : forall l, In key (line_keys (set_line (correction_key c) l s)) ->
                           In key (line_keys s)).
  { intros l. rewrite line_keys_set_line.
    destruct (existsb _ _); [auto |]. rewrite in_app_iff. simpl.
    intros [H | [H | []]]; [assumption | congruence]. }
  destruct c as [k rows | k i lat lon new_id]; simpl in *.
  - injection Hc as <-. now apply (Hset rows).
  - destruct (get_line (str k) s) as [l |]; cbn [bind] in Hc; [| discriminate].
    destruct (i <? List.length l)%nat; injection Hc as <-; [| assumption].
    now apply (Hset (update_at i (corrected lat lon new_id) l)).
Qed.

Lemma apply_correction_exn (c : correction (F:=F)) s e :
  apply_correction c s = Raise e -> e = KeyError.
Proof.
  destruct c as [k rows | k i lat lon new_id]; simpl; [discriminate |].
  destruct (get_line (str k) s) as [l |] eqn:Hl; cbn [bind].
  - destruct (i <? List.length l)%nat; discriminate.
  - intros [= <-]. destruct (in_dec (list_eq_dec N.eq_dec) (str k) (line_keys s)) as [Hin | Hn].
    + destruct (get_line_key _ _ Hin) as (l & Hl'). congruence.
    + rewrite (get_line_missing _ _ Hn) in Hl. now injection Hl.
Qed.

(** A patch whose line is missing makes the run raise KeyError. *)
Lemma apply_all_missing (cs : list (correction (F:=F))) key s :
  (forall k rows, In (table k rows) cs -> key <> str k) ->
  (exists k i lat lon new_id, In (patch k i lat lon new_id) cs /\ key = str k) ->
  ~ In key (line_keys s) -> apply_all cs s = Raise KeyError.
Proof.
  revert s. induction cs as [| c cs IH]; intros s Htab (k & i & lat & lon & nid & Hin & ->) Hn.
  - destruct Hin.
  - simpl. destruct (apply_correction c s) as [s1 | e] eqn:Hc; cbn [bind].
    + destruct Hin as [-> | Hin].
      * simpl in Hc. rewrite (get_line_missing _ _ Hn) in Hc. discriminate.
      * apply IH.
        -- intros k' rows Hk'. apply (Htab k' rows). now right.
        -- now exists k, i, lat, lon, nid.
        -- intros H1. apply Hn. apply (apply_correction_keys c s s1 Hc); [| exact H1].
           destruct c as [k' rows | k' i' lat' lon' nid']; simpl.
           ++ apply (Htab k' rows). now left.
           ++ intros Heq. simpl in Hc. rewrite <- Heq in Hc.
              rewrite (get_line_missing _ _ Hn) in Hc. discriminate.
    + now rewrite (apply_correction_exn c s e Hc).
Qed.

End Corrections.

(** X10.  On a dict that has the lines of [__init__], each once,
    [_apply_corrections] never fails and keeps the lines and their order;
    MM, M3, M1B and M1A become the lists written in the source, whatever
    they held, and every other line keeps its length and the name, order
    and line field of each of its stations. *)
Theorem corrections_keep_lines
  {F : Type} {PF : FloatOps F} (stations : catalog F) :
  NoDup (line_keys stations) -> incl (map str line_names) (line_keys stations) ->
  exists stations',
    _apply_corrections stations = Ok stations' /\
    line_keys stations' = line_keys stations /\
    get_line (str "MM") stations' = Ok MM_table /\
    get_line (str "M3") stations' = Ok M3_table /\
    get_line (str "M1B") stations' = Ok M1B_table /\
    get_line (str "M1A") stations' = Ok M1A_table /\
    forall key l,
      is_table (F:=F) key = false -> get_line key stations = Ok l ->
      exists l', get_line key stations' = Ok l' /\
                 List.length l' = List.length l /\ map s_name l' = map s_name l /\
                 map s_order l' = map s_order l /\ map s_line l' = map s_line l.
Proof.
  intros Hnd Hincl. eexists. split; [now apply apply_corrections_map |].
  split; [apply line_keys_map |].
  assert (Hget : forall k, In k line_names -> exists l, get_line (str k) stations = Ok l).
  { intros k Hk. apply get_line_key, Hincl. now apply in_map. }
  split; [| split; [| split; [| split]]].
  - rewrite get_line_map. destruct (Hget "MM"%string ltac:(simpl; tauto)) as (l & ->).
    cbn [bind]. f_equal; apply corrected_line_tables.
  - rewrite get_line_map. destruct (Hget "M3"%string ltac:(simpl; tauto)) as (l & ->).
    cbn [bind]. f_equal; apply corrected_line_tables.
  - rewrite get_line_map. destruct (Hget "M1B"%string ltac:(simpl; tauto)) as (l & ->).
    cbn [bind]. f_equal; apply corrected_line_tables.
  - rewrite get_line_map. destruct (Hget "M1A"%string ltac:(simpl; tauto)) as (l & ->).
    cbn [bind]. f_equal; apply corrected_line_tables.
  - intros key l Htable Hl. exists (corrected_line key l).
    rewrite get_line_map, Hl. split; [reflexivity |]. now apply corrected_line_shape.
Qed.

Lemma corrections_keep_lines_witness :
  exists stations' : catalog Q,
    _apply_corrections empty_lines = Ok stations' /\
    line_keys stations' = line_keys (empty_lines (F:=Q)) /\
    get_line (str "MM") stations' = Ok MM_table /\
    get_line (str "M3") stations' = Ok M3_table /\
    get_line (str "M1B") stations' = Ok M1B_table /\
    get_line (str "M1A") stations' = Ok M1A_table /\
    forall key (l : list (station Q)),
      is_table (F:=Q) key = false -> get_line key empty_lines = Ok l ->
      exists l', get_line key stations' = Ok l' /\
                 List.length l' = List.length l /\ map s_name l' = map s_name l /\
                 map s_order l' = map s_order l /\ map s_line l' = map s_line l.
Proof.
  apply (corrections_keep_lines (empty_lines (F:=Q))).
  - exact line_names_NoDup.
  - intros k Hk. exact Hk.
Defined.

(** X11.  [_apply_corrections] is idempotent: on a dict that has the
    lines of [__init__], running it on its own result changes nothing. *)
Theorem corrections_idempotent
  {F : Type} {PF : FloatOps F} (stations stations' : catalog F) :
  NoDup (line_keys stations) -> incl (map str line_names) (line_keys stations) ->
  _apply_corrections stations = Ok stations' ->
  _apply_corrections stations' = Ok stations'.
Proof.
  intros Hnd Hincl. rewrite (apply_corrections_map stations Hnd Hincl). intros [= <-].
  rewrite apply_corrections_map.
  - f_equal. rewrite map_map. apply map_ext. intros [k l]. simpl.
    now rewrite corrected_line_idem.
  - now rewrite line_keys_map.
  - now rewrite line_keys_map.
Qed.

Lemma corrections_idempotent_witness :
  exists stations' : catalog Q,
    _apply_corrections empty_lines = Ok stations' /\
    _apply_corrections stations' = Ok stations'.
Proof.
  eexists. split; [reflexivity |].
  apply (corrections_idempotent (empty_lines (F:=Q))).
  - exact line_names_NoDup.
  - intros k Hk. exact Hk.
  - reflexivity.
Defined.

(** X12.  The corrections rely on the keys of [__init__]: when the dict
    lacks one of the lines that are patched in place, [_apply_corrections]
    raises KeyError. *)
Theorem corrections_need_patched_lines
  {F : Type} {PF : FloatOps F} (stations : catalog F) (key : pystr) :
  is_patched (F:=F) key = true -> ~ In key (line_keys stations) ->
  _apply_corrections stations = Raise KeyError.
Proof.
  intros Hp Hn. unfold is_patched in Hp. apply existsb_exists in Hp as (c & Hc & Hkey).
  destruct c as [k rows | k i lat lon nid]; [discriminate |].
  apply pystr_eqb_eq in Hkey. subst key.
  apply (apply_all_missing corrections (str k) stations); [| | exact Hn].
  - intros k' rows Hin Heq.
    assert (Hall : forallb (fun c : correction (F:=F) =>
               match c with
               | table kt _ =>
                   forallb (fun c' : correction (F:=F) =>
                              match c' with
                              | patch kp _ _ _ _ => negb (pystr_eqb (str kp) (str kt))
                              | table _ _ => true
                              end) corrections
               | patch _ _ _ _ _ => true
               end) corrections = true) by (vm_compute; reflexivity).
    rewrite forallb_forall in Hall. specialize (Hall _ Hin). cbv beta iota in Hall.
    rewrite forallb_forall in Hall. specialize (Hall _ Hc). cbv beta iota in Hall.
    rewrite Heq, pystr_eqb_refl in Hall. discriminate.
  - now exists k, i, lat, lon, nid.
Qed.

Lemma corrections_need_patched_lines_witness :
  _apply_corrections (F:=Q) [] = Raise KeyError.
Proof.
  apply (corrections_need_patched_lines (F:=Q) [] (str "M8")).
  - reflexivity.
  - intros [].
Defined.

Section Patches.
Context {F : Type} {PF : FloatOps F}.
Implicit Types (key : pystr) (l : list (station F)).

Lemma patch_at_untouched key j :
  existsb (pystr_eqb key) (map (correction_key (F:=F)) corrections) = false ->
  patch_at (F:=F) key j = None.
Proof.
  intros Hf. unfold patch_at.
  destruct (find _ corrections) as [c |] eqn:Hfind; [| reflexivity]. exfalso.
  apply find_some in Hfind as [Hin Hc].
  destruct c as [k rows | k i lat lon nid]; [discriminate |].
  apply andb_true_iff in Hc as [Hk _].
  assert (Ht : existsb (pystr_eqb key) (map (correction_key (F:=F)) corrections) = true).
  { apply existsb_exists. exists (str k). split; [| exact Hk].
    apply in_map_iff. now exists (patch k i lat lon nid). }
  congruence.
Qed.

(** Station by station, a corrected line is the old line with the patch
    written for that station, if there is one. *)
Lemma corrected_line_nth key l j :
  is_table (F:=F) key = false ->
  nth_error (corrected_line key l) j =
  match patch_at (F:=F) key j with
  | Some (patch _ _ lat lon new_id) => option_map (corrected lat lon new_id) (nth_error l j)
  | _ => nth_error l j
  end.
Proof.
  intros Htab.
  destruct (existsb (pystr_eqb key) (map (correction_key (F:=F)) corrections)) eqn:Hk.
  - apply existsb_exists in Hk as (k & Hin & Heq). apply pystr_eqb_eq in Heq. subst k.
    cbv [corrections map correction_key] in Hin.
    unfold corrected_line. rewrite fold_on_line_filter.
    repeat (destruct Hin as [<- | Hin];
            [try (vm_compute in Htab; discriminate Htab);
             match goal with
             | |- context [filter ?p corrections] =>
                 let v := eval cbv - [MM_table M3_table M1B_table M1A_table]
                          in (filter p corrections) in
                 change (filter p corrections) with v
             end;
             cbn [fold_left line_step];
             rewrite !nth_error_update_at;
             unfold patch_at, corrections; cbn [find];
             repeat match goal with
                    | |- context [pystr_eqb (str ?a) (str ?b)] =>
                        let v := eval vm_compute in (pystr_eqb (str a) (str b)) in
                        change (pystr_eqb (str a) (str b)) with v
                    end;
             cbn [andb];
             repeat match goal with
                    | |- context [Nat.eqb ?i j] =>
                        destruct (Nat.eqb_spec i j); [subst j; cbn [Nat.eqb] |]
                    end;
             try reflexivity; try lia |]).
    destruct Hin.
  - now rewrite corrected_line_untouched, patch_at_untouched.
Qed.

End Patches.

(** X25.  Every patch takes effect and no patch undoes another: in a
    line that is not written out in full, station [j] after
    [_apply_corrections] is station [j] before it, with the latitude,
    longitude and id of the patch written for that line and index, and
    unchanged when no patch is written for it or when the line is too
    short to have a station [j]. *)
Theorem patches_take_effect
  {F : Type} {PF : FloatOps F} (stations stations' : catalog F)
  (key : pystr) (l l' : list (station F)) (j : nat) :
  NoDup (line_keys stations) -> incl (map str line_names) (line_keys stations) ->
  _apply_corrections stations = Ok stations' ->
  is_table (F:=F) key = false ->
  get_line key stations = Ok l -> get_line key stations' = Ok l' ->
  nth_error l' j =
  match patch_at (F:=F) key j with
  | Some (patch _ _ lat lon new_id) => option_map (corrected lat lon new_id) (nth_error l j)
  | _ => nth_error l j
  end.
Proof.
  intros Hnd Hincl. rewrite (apply_corrections_map stations Hnd Hincl). intros [= <-] Htab Hl.
  rewrite get_line_map, Hl. cbn [bind]. intros [= <-]. now apply corrected_line_nth.
Qed.

Lemma patches_take_effect_witness :
  exists (stations' : catalog Q) l',
    _apply_corrections one_station_M6 = Ok stations' /\
    get_line (str "M6") stations' = Ok l' /\
    nth_error l' 0 =
    match patch_at (F:=Q) (str "M6") 0 with
    | Some (patch _ _ lat lon new_id) =>
        option_map (corrected lat lon new_id)
                   (nth_error [row (str "LEVENT") "41.0" "29.0" 1 1 "M6"] 0)
    | _ => nth_error [row (str "LEVENT") "41.0" "29.0" 1 1 "M6"] 0
    end.
Proof.
  eexists. eexists. split; [reflexivity |]. split; [reflexivity |].
  eapply (patches_take_effect (F:=Q) one_station_M6 _ (str "M6")
            [row (str "LEVENT") "41.0" "29.0" 1 1 "M6"] _ 0).
  - exact line_names_NoDup.
  - intros k Hk. exact Hk.
  - reflexivity.
  - reflexivity.
  - reflexivity.
  - reflexivity.
Defined.

(* ================================================================== *)
(** * Loading the catalog *)

Section Loading.
Context {F : Type} {PF : FloatOps F}.
Implicit Types (s : catalog F) (key : pystr) (l : list (station F))
         (sd : api_station F) (data : list (api_station F)).

Lemma append_station_keys key (st : station F) s :
  line_keys (append_station key st s) = line_keys s.
Proof.
  induction s as [| [k l] s IH]; simpl; [reflexivity |].
  destruct (pystr_eqb key k); simpl; [reflexivity | now rewrite IH].
Qed.


Lemma api_record_line key sd (st : station F) : api_record key sd = Ok st -> s_line st = key.
Proof.
  unfold api_record.
  destruct (Name sd); cbn [or_raise bind]; [| discriminate].
  destruct (DetailInfo sd); cbn [or_raise bind]; [| discriminate].
  destruct (Id sd); cbn [or_raise bind]; [| discriminate].
  destruct (Order sd); cbn [or_raise bind]; [| discriminate].
  now intros [= <-].
Qed.



Lemma keys_loop_keys sd (keys : list pystr) s :
  line_keys (fst (keys_loop sd keys s)) = line_keys s.
Proof.
  revert s. induction keys as [| key keys IH]; intros s; simpl; [reflexivity |].
  destruct (LineName sd) as [ln |]; [| reflexivity].
  destruct (pystr_eqb ln key); [| apply IH].
  destruct (api_record key sd) as [st |]; [| reflexivity].
  rewrite IH. apply append_station_keys.
Qed.

Lemma data_loop_keys data s : line_keys (fst (data_loop data s)) = line_keys s.
Proof.
  revert s. induction data as [| sd data IH]; intros s; simpl; [reflexivity |].
  pose proof (keys_loop_keys sd (line_keys s) s) as Hk.
  destruct (keys_loop sd (line_keys s) s) as [s1 [e |]]; simpl in *; [exact Hk |].
  now rewrite IH.
Qed.






End Loading.

Section Loaded.
Context {F : Type} {PF : FloatOps F}.
Implicit Types (s : catalog F) (key : pystr) (l : list (station F))
         (sd : api_station F) (data : list (api_station F)).

(** What holds of the rows written in the source and is kept by every
    patch holds of a corrected line. *)
Lemma fold_on_line_Forall (P : station F -> Prop) (cs : list (correction (F:=F))) key l :
  (forall k rows, In (table k rows) cs -> key = str k -> Forall P rows) ->
  (forall k i lat lon nid st, In (patch k i lat lon nid) cs -> key = str k ->
                              P st -> P (corrected lat lon nid st)) ->
  Forall P l -> Forall P (fold_left (fun l c => on_line c key l) cs l).
Proof.
  revert l. induction cs as [| c cs IH]; intros l Htab Hpatch Hl; simpl; [exact Hl |].
  apply IH.
  - intros k rows Hin. apply (Htab k rows). now right.
  - intros k i lat lon nid st Hin. apply (Hpatch k i lat lon nid st). now right.
  - unfold on_line. destruct (pystr_eqb key (correction_key c)) eqn:Hkey; [| exact Hl].
    apply pystr_eqb_eq in Hkey. destruct c as [k rows | k i lat lon nid]; simpl in *.
    + apply (Htab k rows); [now left | exact Hkey].
    + apply Forall_forall. intros y Hy. rewrite Forall_forall in Hl.
      apply In_update_at in Hy as [Hy | (x & Hx & ->)]; [now apply Hl |].
      apply (Hpatch k i lat lon nid x); [now left | exact Hkey | now apply Hl].
Qed.

(** The rows written in the source carry the name of their line. *)
Lemma table_rows_filed k (rows : list (station F)) :
  In (table k rows) corrections -> Forall (fun st => s_line st = str k) rows.
Proof.
  assert (H : forallb (fun c : correction (F:=F) =>
                         match c with
                         | table k rows =>
                             forallb (fun st => pystr_eqb (s_line st) (str k)) rows
                         | patch _ _ _ _ _ => true
                         end) corrections = true) by (vm_compute; reflexivity).
  rewrite forallb_forall in H. intros Hin. specialize (H _ Hin). cbv beta iota in H.
  rewrite forallb_forall in H. apply Forall_forall. intros st Hst.
  now apply pystr_eqb_eq, H.
Qed.

Lemma corrected_line_filed key l :
  Forall (fun st => s_line st = key) l ->
  Forall (fun st => s_line st = key) (corrected_line key l).
Proof.
  apply fold_on_line_Forall.
  - intros k rows Hin ->. now apply table_rows_filed.
  - intros k i lat lon nid st _ _ Hst. exact Hst.
Qed.

(** The rows written in the source and the patches have coordinates in
    decimal notation. *)
Lemma corrected_line_decimal key l :
  Forall (fun st => decimal (s_latitude st) && decimal (s_longitude st) = true) l ->
  Forall (fun st => decimal (s_latitude st) && decimal (s_longitude st) = true)
         (corrected_line key l).
Proof.
  assert (H : forallb (fun c : correction (F:=F) =>
                match c with
                | table _ rows =>
                    forallb (fun st => decimal (s_latitude st) && decimal (s_longitude st))
                            rows
                | patch _ _ lat lon _ =>
                    decimal (F:=F) (CStr (str lat)) && decimal (F:=F) (CStr (str lon))
                end) corrections = true) by (vm_compute; reflexivity).
  rewrite forallb_forall in H.
  apply fold_on_line_Forall.
  - intros k rows Hin _. specialize (H _ Hin). cbv beta iota in H.
    rewrite forallb_forall in H. apply Forall_forall. exact H.
  - intros k i lat lon nid st Hin _ _. specialize (H _ Hin). exact H.
Qed.

Lemma filed_map (g : pystr -> list (station F) -> list (station F)) s :
  (forall key l, Forall (fun st => s_line st = key) l ->
                 Forall (fun st => s_line st = key) (g key l)) ->
  filed s -> filed (map (fun kl => (fst kl, g (fst kl) (snd kl))) s).
Proof.
  intros Hg Hs key l st Hin Hst. apply in_map_iff in Hin as ([k l0] & [= <- <-] & Hin).
  simpl in Hst. specialize (Hg k l0). rewrite !Forall_forall in Hg.
  apply Hg; [| exact Hst]. intros x Hx. now apply (Hs k l0).
Qed.

Lemma filed_append key (st : station F) s :
  s_line st = key -> filed s -> filed (append_station key st s).
Proof.
  intros Hst Hs. induction s as [| [k l] s IH]; simpl; [exact Hs |].
  assert (Hs' : filed s) by (intros k' l' x Hin; apply (Hs k' l' x); now right).
  destruct (pystr_eqb key k) eqn:Hk.
  - apply pystr_eqb_eq in Hk. subst k.
    intros k' l' x [[= <- <-] | Hin] Hx.
    + apply in_app_iff in Hx as [Hx | [<- | []]]; [| exact Hst].
      apply (Hs key l x); [now left | exact Hx].
    + apply (Hs k' l' x); [now right | exact Hx].
  - intros k' l' x [[= <- <-] | Hin] Hx.
    + apply (Hs k l x); [now left | exact Hx].
    + now apply (IH Hs' k' l' x).
Qed.

Lemma keys_loop_filed sd (keys : list pystr) s : filed s -> filed (fst (keys_loop sd keys s)).
Proof.
  revert s. induction keys as [| key keys IH]; intros s Hs; simpl; [exact Hs |].
  destruct (LineName sd) as [ln |]; [| exact Hs].
  destruct (pystr_eqb ln key); [| now apply IH].
  destruct (api_record key sd) as [st |] eqn:Hrec; [| exact Hs].
  apply IH. apply filed_append; [| exact Hs]. now apply (api_record_line key sd).
Qed.

Lemma data_loop_filed data s : filed s -> filed (fst (data_loop data s)).
Proof.
  revert s. induction data as [| sd data IH]; intros s Hs; simpl; [exact Hs |].
  pose proof (keys_loop_filed sd (line_keys s) s Hs) as Hk.
  destruct (keys_loop sd (line_keys s) s) as [s1 [e |]]; simpl in *; [exact Hk |].
  now apply IH.
Qed.

(** [load_stations] ends with the corrections, applied to what the loop
    has reached. *)
Lemma load_stations_reached (response : api_reply F) s :
  exists s0,
    load_stations response s = _apply_corrections s0 /\
    line_keys s0 = line_keys s /\
    (filed s -> filed s0) /\
    (unusable response = true -> s0 = s).
Proof.
  destruct response as [e | status blank [data | e]]; simpl.
  - exists s. auto.
  - destruct ((status =? 200) && negb blank) eqn:Hok; simpl.
    + exists (fst (data_loop data s)). split; [| split; [| split]].
      * now destruct (data_loop data s) as [s1 [e |]].
      * apply data_loop_keys.
      * apply data_loop_filed.
      * discriminate.
    + exists s. auto.
  - exists s. destruct ((status =? 200) && negb blank); auto.
Qed.

Lemma empty_lines_filed : filed (empty_lines (F:=F)).
Proof.
  intros key l st Hin Hst. unfold empty_lines in Hin.
  apply in_map_iff in Hin as (k & [= <- <-] & _). destruct Hst.
Qed.

Lemma map_line_names (g : pystr -> list (station F) -> list (station F)) :
  map (fun kl => (fst kl, g (fst kl) (snd kl))) (empty_lines (F:=F)) =
  map (fun k => (str k, g (str k) [])) line_names.
Proof. unfold empty_lines. rewrite map_map. reflexivity. Qed.

Lemma load_stations_declared (response : api_reply F) :
  exists s0,
    load_stations response empty_lines =
      Ok (map (fun kl => (fst kl, corrected_line (fst kl) (snd kl))) s0) /\
    line_keys s0 = map str line_names /\ filed s0 /\
    (unusable response = true -> s0 = empty_lines).
Proof.
  destruct (load_stations_reached response empty_lines) as (s0 & Hload & Hkeys & Hfiled & Hun).
  exists s0. rewrite Hload. split; [| split; [exact Hkeys | split; [| exact Hun]]].
  - apply apply_corrections_map; rewrite Hkeys.
    + exact line_names_NoDup.
    + intros k Hk. exact Hk.
  - apply Hfiled, empty_lines_filed.
Qed.


End Loaded.

(** The catalog after loading: the declared lines, the four tables. *)
Lemma loaded_catalog
  {F : Type} {PF : FloatOps F} (response : api_reply F) :
  exists stations,
    load_stations response empty_lines = Ok stations /\
    line_keys stations = map str line_names /\
    get_line (str "MM") stations = Ok MM_table /\
    get_line (str "M3") stations = Ok M3_table /\
    get_line (str "M1B") stations = Ok M1B_table /\
    get_line (str "M1A") stations = Ok M1A_table.
Proof.
  destruct (load_stations_declared response) as (s0 & Hload & Hkeys & _ & _).
  eexists. split; [exact Hload |]. split; [now rewrite line_keys_map |].
  assert (Hget : forall k, In k line_names -> exists l, get_line (str k) s0 = Ok l).
  { intros k Hk. apply get_line_key. rewrite Hkeys. now apply in_map. }
  split; [| split; [| split]].
  - rewrite get_line_map. destruct (Hget "MM"%string ltac:(simpl; tauto)) as (l & ->).
    cbn [bind]. f_equal; apply corrected_line_tables.
  - rewrite get_line_map. destruct (Hget "M3"%string ltac:(simpl; tauto)) as (l & ->).
    cbn [bind]. f_equal; apply corrected_line_tables.
  - rewrite get_line_map. destruct (Hget "M1B"%string ltac:(simpl; tauto)) as (l & ->).
    cbn [bind]. f_equal; apply corrected_line_tables.
  - rewrite get_line_map. destruct (Hget "M1A"%string ltac:(simpl; tauto)) as (l & ->).
    cbn [bind]. f_equal; apply corrected_line_tables.
Qed.

(** X13.  Whatever the remote API answers, and also when it does not
    answer, [load_stations] ends without an exception, with the 17 lines
    of [__init__] in their declared order and with MM, M3, M1B and M1A
    holding the lists written in the source. *)
Theorem load_stations_never_fails
  {F : Type} {PF : FloatOps F} (response : api_reply F) :
  exists stations,
    load_stations response empty_lines = Ok stations /\
    line_keys stations = map str line_names /\
    get_line (str "MM") stations = Ok MM_table /\
    get_line (str "M3") stations = Ok M3_table /\
    get_line (str "M1B") stations = Ok M1B_table /\
    get_line (str "M1A") stations = Ok M1A_table.
Proof. exact (loaded_catalog response). Qed.

(** X14.  In the catalog that [load_stations] leaves, every station is
    filed under the line that its own [line] field names: the records of
    the API get the key they are appended to, the lists written in the
    source carry the key they are assigned to, and no patch touches the
    field. *)
Theorem loaded_stations_filed
  {F : Type} {PF : FloatOps F} (response : api_reply F) (stations : catalog F) :
  load_stations response empty_lines = Ok stations ->
  forall key l st, In (key, l) stations -> In st l -> s_line st = key.
Proof.
  destruct (load_stations_declared response) as (s0 & Hload & _ & Hfiled & _).
  rewrite Hload. intros [= <-].
  apply (filed_map corrected_line s0); [| exact Hfiled].
  intros key l. apply corrected_line_filed.
Qed.

Lemma loaded_stations_filed_witness :
  s_line (F:=Q) (row (str "GEBZE") "40.784181" "29.3935358" 301 1 "MM") = str "MM".
Proof.
  apply (loaded_stations_filed (F:=Q) (no_reply KeyError) _ eq_refl (str "MM") MM_table).
  - right. right. right. left. reflexivity.
  - left. reflexivity.
Defined.





(* ================================================================== *)
(** * Start-up *)

Section Init.
Context {F : Type} {PF : FloatOps F} {PM : MathOps F}.

(** What [__init__] leaves in the object. *)
Lemma init_Ok (response : api_reply F) (ms : MetroService F) :
  __init__ response = Ok ms ->
  load_stations response empty_lines = Ok (self_stations ms) /\
  build_graph (self_stations ms) = Ok (self_G ms) /\
  self_line_colors ms = line_colors.
Proof.
  unfold __init__.
  destruct (load_stations response empty_lines) as [s |]; cbn [bind]; [| discriminate].
  destruct (build_graph s) as [G |] eqn:HG; cbn [bind]; [| discriminate].
  intros [= <-]. simpl. auto.
Qed.

Lemma init_built (s : catalog F) (G : Graph F) (response : api_reply F) :
  load_stations response empty_lines = Ok s -> build_graph s = Ok G ->
  __init__ response =
  Ok {| self_G := G; self_stations := s; self_line_colors := line_colors |}.
Proof. unfold __init__. intros -> . cbn [bind]. intros ->. reflexivity. Qed.

Lemma records_In (s : catalog F) ln (st : station F) :
  In (ln, st) (records s) -> exists sts, In (ln, sts) s /\ In st sts.
Proof.
  unfold records. rewrite in_flat_map. intros ([k sts] & Hin & Hst). simpl in Hst.
  apply in_map_iff in Hst as (st' & [= <- <-] & Hst). now exists sts.
Qed.

End Init.

Section InitReal.

Lemma decimal_float (c : coord R) : decimal c = true -> exists x, float c = Ok x.
Proof.
  destruct c as [s | x]; simpl; [| now exists x].
  destruct (parse_float s) as [q |]; [| discriminate]. intros _. now exists (Q2R q).
Qed.

(** A catalog of decimal coordinates is built. *)
Lemma build_graph_decimal (s : catalog R) :
  (forall key l, In (key, l) s ->
     Forall (fun st => decimal (s_latitude st) && decimal (s_longitude st) = true) l) ->
  exists G, build_graph s = Ok G.
Proof.
  intros Hdec. apply build_graph_total. intros [ln st] Hr.
  apply records_In in Hr as (sts & Hin & Hst).
  specialize (Hdec ln sts Hin). rewrite Forall_forall in Hdec. specialize (Hdec st Hst).
  apply andb_true_iff in Hdec as [Hlat Hlon].
  destruct (decimal_float _ Hlat) as (lat & Hlat'). destruct (decimal_float _ Hlon) as (lon & Hlon').
  unfold record_attrs. simpl. rewrite Hlat', Hlon'. simpl. eexists. reflexivity.
Qed.




End InitReal.

(** Without the API the service starts from the four tables. *)
Lemma service_starts_without_api_R (response : api_reply R) :
  unusable response = true ->
  exists ms,
    __init__ response = Ok ms /\
    self_stations ms = map (fun k => (str k, corrected_line (str k) [])) line_names /\
    forall key l, In (key, l) (self_stations ms) -> is_table (F:=R) key = false -> l = [].
Proof.
  intros Hun. destruct (load_stations_declared response) as (s0 & Hload & _ & _ & Hs0).
  rewrite (Hs0 Hun), map_line_names in Hload.
  destruct (build_graph_decimal
              (map (fun k => (str k, corrected_line (str k) [])) line_names)) as (G & HG).
  { intros key l Hin. apply in_map_iff in Hin as (k & [= <- <-] & _).
    apply corrected_line_decimal. constructor. }
  eexists. split; [exact (init_built _ G response Hload HG) |]. cbn [self_stations].
  split; [reflexivity |].
  intros key l Hin Htab. apply in_map_iff in Hin as (k & [= <- <-] & _).
  destruct (corrected_line_shape (str k) [] Htab) as (Hlen & _).
  now apply length_zero_iff_nil.
Qed.

(** X17.  When the API gives nothing to read (no answer, a status other
    than 200, a blank text, or a body without the list of records) the
    service still starts, on the real-number instance: the graph is built
    from the four lines written in the source, and every other line is
    empty. *)
Theorem service_starts_without_api (response : api_reply R) :
  unusable response = true ->
  exists ms,
    __init__ response = Ok ms /\
    self_stations ms = map (fun k => (str k, corrected_line (str k) [])) line_names /\
    forall key l, In (key, l) (self_stations ms) -> is_table (F:=R) key = false -> l = [].
Proof. exact (service_starts_without_api_R response). Qed.

Lemma service_starts_without_api_witness :
  exists ms,
    __init__ (F:=R) (reply 503 false (Ok [api_taksim])) = Ok ms /\
    self_stations ms = map (fun k => (str k, corrected_line (str k) [])) line_names /\
    forall key l, In (key, l) (self_stations ms) -> is_table (F:=R) key = false -> l = [].
Proof.
  exact (service_starts_without_api (reply 503 false (Ok [api_taksim])) eq_refl).
Defined.



Section Untouched.
Context {F : Type} {PF : FloatOps F}.



End Untouched.



(* ================================================================== *)
(** * The endpoints *)

Section EndpointLemmas.
Context {F : Type} {PF : FloatOps F}.

Lemma get_station_by_id_None (G : Graph F) n :
  has_node G n = false -> get_station_by_id G n = None.
Proof.
  unfold has_node, od_mem, get_station_by_id, node_data, nodes_getitem.
  now destruct (od_get n (_node G)).
Qed.

Lemma get_station_by_id_Some (G : Graph F) n :
  graph_ok G = true -> has_node G n = true ->
  exists st, get_station_by_id G n = Some st /\ i_id st = n.
Proof.
  intros Hok Hn. destruct (node_data_ok G Hok n Hn) as (a & Ha).
  unfold get_station_by_id. rewrite Ha. eexists. split; reflexivity.
Qed.

Lemma first_seen_length (seen ids : list Z) :
  (List.length (first_seen seen ids) <= List.length seen + List.length ids)%nat.
Proof.
  revert seen. induction ids as [| n ids IH]; intros seen; simpl; [lia |].
  destruct (mem n seen).
  - specialize (IH seen). lia.
  - specialize (IH (seen ++ [n])). rewrite length_app in IH. simpl in IH. lia.
Qed.

Lemma sum_lengths (s : catalog F) (acc : Z) :
  fold_left Z.add (map (fun l : list (station F) => Z.of_nat (List.length l)) (map snd s)) acc =
  acc + Z.of_nat (List.length (records s)).
Proof.
  revert acc. induction s as [| [k l] s IH]; intros acc; simpl; [lia |].
  rewrite IH. unfold records. simpl. rewrite length_app, length_map.
  fold (records s). lia.
Qed.

Lemma records_app (s1 s2 : catalog F) : records (s1 ++ s2) = records s1 ++ records s2.
Proof. unfold records. apply flat_map_app. Qed.

(** Lines of the catalog, each taken once, hold no more records than
    the catalog. *)
Lemma records_incl_length (T s : catalog F) :
  NoDup T -> incl T s -> (List.length (records T) <= List.length (records s))%nat.
Proof.
  revert s. induction T as [| a T IH]; intros s Hnd Hincl; [simpl; lia |].
  inversion Hnd as [| ? ? Ha Hnd']; subst.
  destruct (in_split a s (Hincl a (or_introl eq_refl))) as (s1 & s2 & ->).
  specialize (IH (s1 ++ s2) Hnd').
  assert (Hsub : incl T (s1 ++ s2)).
  { intros x Hx. specialize (Hincl x (or_intror Hx)).
    apply in_app_iff in Hincl as [H | [<- | H]]; [| contradiction |];
      apply in_app_iff; tauto. }
  specialize (IH Hsub).
  change (a :: T) with ([a] ++ T). change (a :: s2) with ([a] ++ s2).
  rewrite !records_app, !length_app in *. lia.
Qed.

Lemma tables_in_records (s : catalog F) :
  get_line (str "MM") s = Ok MM_table -> get_line (str "M3") s = Ok M3_table ->
  get_line (str "M1B") s = Ok M1B_table -> get_line (str "M1A") s = Ok M1A_table ->
  (80 <= List.length (records s))%nat.
Proof.
  intros H1 H2 H3 H4. apply get_line_In in H1, H2, H3, H4.
  apply (records_incl_length
           [(str "MM", MM_table); (str "M3", M3_table); (str "M1B", M1B_table);
            (str "M1A", M1A_table)] s).
  - repeat (constructor;
            [simpl; intros H; repeat (destruct H as [H | H];
               [apply (f_equal fst) in H; vm_compute in H; discriminate |]); exact H |]).
    constructor.
  - intros x [<- | [<- | [<- | [<- | []]]]]; assumption.
Qed.

End EndpointLemmas.

(** X20.  After start-up, [GET /api/station/{id}] answers 404 "Station
    not found" exactly for the ids that no station of the catalog
    carries, and answers every other id with the station of that id. *)
Theorem station_endpoint_not_found
  {F : Type} {PF : FloatOps F} {PM : MathOps F}
  (response : api_reply F) (ms : MetroService F) (station_id : Z) :
  __init__ response = Ok ms ->
  (main.get_station ms station_id = HTTPException 404 (Message (str "Station not found")) <->
   ~ In station_id (catalog_ids (self_stations ms))) /\
  (In station_id (catalog_ids (self_stations ms)) ->
   exists st, main.get_station ms station_id = Success st /\ i_id st = station_id).
Proof.
  intros Hinit. destruct (init_Ok response ms Hinit) as (_ & HG & _).
  pose proof (build_graph_ok _ _ HG) as Hok.
  pose proof (build_graph_keys _ _ HG) as Hkeys.
  assert (Hnode : has_node (self_G ms) station_id = true <->
                  In station_id (catalog_ids (self_stations ms))).
  { rewrite has_node_In, Hkeys, first_seen_In. simpl. tauto. }
  unfold main.get_station. split; [split |].
  - intros H404 Hin. apply Hnode in Hin.
    destruct (get_station_by_id_Some _ _ Hok Hin) as (st & Hst & _).
    rewrite Hst in H404. discriminate.
  - intros Hnot. rewrite get_station_by_id_None; [reflexivity |].
    destruct (has_node (self_G ms) station_id) eqn:Hn; [| reflexivity].
    exfalso. now apply Hnot, Hnode.
  - intros Hin. apply Hnode in Hin.
    destruct (get_station_by_id_Some _ _ Hok Hin) as (st & Hst & Hid).
    rewrite Hst. now exists st.
Qed.

Lemma station_endpoint_not_found_witness :
  exists ms : MetroService R,
    __init__ (no_reply KeyError) = Ok ms /\
    (main.get_station ms 301 = HTTPException 404 (Message (str "Station not found")) <->
     ~ In 301 (catalog_ids (self_stations ms))) /\
    (In 301 (catalog_ids (self_stations ms)) ->
     exists st, main.get_station ms 301 = Success st /\ i_id st = 301).
Proof.
  destruct (service_starts_without_api_R (no_reply KeyError) eq_refl) as (ms & Hms & _).
  exists ms. split; [exact Hms |].
  exact (station_endpoint_not_found (no_reply KeyError) ms 301 Hms).
Defined.



(** X22.  After start-up, [GET /api/stats] reports the 17 lines of
    [__init__] whatever was loaded; ["total_stations"] counts the
    records of the catalog, at least the 80 written in the source, and
    so is never below the number of nodes of the graph, where a station
    id shared by several records is one node. *)
Theorem stats_endpoint_counts
  {F : Type} {PF : FloatOps F} {PM : MathOps F}
  (response : api_reply F) (ms : MetroService F) :
  __init__ response = Ok ms ->
  exists st,
    main.get_stats ms = Success st /\
    main.total_lines st = 17 /\
    map fst (main.lines st) = map str line_names /\
    main.total_stations st = Z.of_nat (List.length (records (self_stations ms))) /\
    80 <= main.total_stations st /\
    Z.of_nat (List.length (_node (self_G ms))) <= main.total_stations st.
Proof.
  intros Hinit. destruct (init_Ok response ms Hinit) as (Hload & HG & _).
  eexists. split; [reflexivity |]. cbn [main.total_lines main.lines main.total_stations].
  unfold get_all_stations.
  destruct (load_stations_declared response) as (s0 & Hload' & Hkeys & _ & _).
  rewrite Hload in Hload'. injection Hload' as Hs.
  assert (Hk : line_keys (self_stations ms) = map str line_names).
  { rewrite Hs, line_keys_map. exact Hkeys. }
  split; [| split; [| split; [| split]]].
  - rewrite <- (length_map fst). fold (line_keys (self_stations ms)). now rewrite Hk.
  - rewrite map_map. exact Hk.
  - rewrite sum_lengths. lia.
  - rewrite sum_lengths, Z.add_0_l.
    destruct (loaded_catalog response) as (s1 & Hs1 & _ & HMM & HM3 & HM1B & HM1A).
    rewrite Hload in Hs1. injection Hs1 as <-.
    pose proof (tables_in_records _ HMM HM3 HM1B HM1A). lia.
  - rewrite sum_lengths, Z.add_0_l. apply inj_le.
    rewrite <- (length_map fst). fold (od_keys (_node (self_G ms))).
    rewrite (build_graph_keys _ _ HG).
    pose proof (first_seen_length [] (catalog_ids (self_stations ms))) as Hle.
    unfold catalog_ids in Hle at 2. rewrite length_map in Hle. simpl in Hle. exact Hle.
Qed.

Lemma stats_endpoint_counts_witness :
  exists (ms : MetroService R) st,
    __init__ (no_reply KeyError) = Ok ms /\
    main.get_stats ms = Success st /\
    main.total_lines st = 17 /\
    map fst (main.lines st) = map str line_names /\
    main.total_stations st = Z.of_nat (List.length (records (self_stations ms))) /\
    80 <= main.total_stations st /\
    Z.of_nat (List.length (_node (self_G ms))) <= main.total_stations st.
Proof.
  destruct (service_starts_without_api_R (no_reply KeyError) eq_refl) as (ms & Hms & _).
  destruct (stats_endpoint_counts (no_reply KeyError) ms Hms) as (st & Hst).
  exists ms, st. split; [exact Hms | exact Hst].
Defined.

(** X23.  After start-up on the real-number instance, [POST /api/route]
    answers 404 "No route found between the specified stations" exactly
    when one of the two ids is no station of the graph or no path joins
    the two; every other request gets a route. *)
Theorem route_endpoint_not_found
  (response : api_reply R) (ms : MetroService R) (source_id target_id : Z) :
  __init__ response = Ok ms ->
  (main.calculate_route ms source_id target_id =
   HTTPException 404 (Message (str "No route found between the specified stations")) <->
   has_node (self_G ms) source_id = false \/ has_node (self_G ms) target_id = false \/
   forall p d, ~ path_between (self_G ms) source_id target_id p d) /\
  (has_node (self_G ms) source_id = true -> has_node (self_G ms) target_id = true ->
   (exists p d, path_between (self_G ms) source_id target_id p d) ->
   exists r, main.calculate_route ms source_id target_id = Success r /\
             hd_error (path r) = Some source_id /\ last (path r) source_id = target_id).
Proof.
  intros Hinit. destruct (init_Ok response ms Hinit) as (_ & HG & _).
  pose proof (build_graph_ok _ _ HG) as Hok.
  assert (Hfound : has_node (self_G ms) source_id = true ->
                   has_node (self_G ms) target_id = true ->
                   (exists p d, path_between (self_G ms) source_id target_id p d) ->
                   exists r d, find_shortest_path (self_G ms) source_id target_id = Some r /\
                               path_between (self_G ms) source_id target_id (path r) d).
  { intros Hs Ht Hp.
    destruct (built_graph_shortest_path _ _ source_id target_id HG Hs Ht Hp)
      as (r & d & Hr & Hpath & _).
    now exists r, d. }
  unfold main.calculate_route. split; [split |].
  - intros H404.
    destruct (has_node (self_G ms) source_id) eqn:Hs; [| now left].
    destruct (has_node (self_G ms) target_id) eqn:Ht; [| right; now left].
    right. right. intros p d Hp.
    destruct (Hfound eq_refl eq_refl (ex_intro _ p (ex_intro _ d Hp))) as (r & d' & Hr & _).
    rewrite Hr in H404. discriminate.
  - intros Hnot.
    assert (Hnone : find_shortest_path (self_G ms) source_id target_id = None).
    { destruct Hnot as [Hs | [Ht | Hno]].
      - apply (find_shortest_path_Raise _ _ _ NodeNotFound). apply shortest_path_absent. now left.
      - apply (find_shortest_path_Raise _ _ _ NodeNotFound). apply shortest_path_absent. now right.
      - destruct (has_node (self_G ms) source_id) eqn:Hs;
          [| apply (find_shortest_path_Raise _ _ _ NodeNotFound);
             apply shortest_path_absent; now left].
        destruct (has_node (self_G ms) target_id) eqn:Ht;
          [| apply (find_shortest_path_Raise _ _ _ NodeNotFound);
             apply shortest_path_absent; now right].
        apply (find_shortest_path_Raise _ _ _ NetworkXNoPath).
        now apply shortest_path_no_path. }
    now rewrite Hnone.
  - intros Hs Ht Hp. destruct (Hfound Hs Ht Hp) as (r & d & Hr & Hhd & Hlast & _).
    rewrite Hr. now exists r.
Qed.

Lemma route_endpoint_not_found_witness :
  exists ms : MetroService R,
    __init__ (no_reply KeyError) = Ok ms /\
    (main.calculate_route ms 301 999 =
     HTTPException 404 (Message (str "No route found between the specified stations")) <->
     has_node (self_G ms) 301 = false \/ has_node (self_G ms) 999 = false \/
     forall p d, ~ path_between (self_G ms) 301 999 p d) /\
    (has_node (self_G ms) 301 = true -> has_node (self_G ms) 999 = true ->
     (exists p d, path_between (self_G ms) 301 999 p d) ->
     exists r, main.calculate_route ms 301 999 = Success r /\
               hd_error (path r) = Some 301 /\ last (path r) 301 = 999).
Proof.
  destruct (service_starts_without_api_R (no_reply KeyError) eq_refl) as (ms & Hms & _).
  exists ms. split; [exact Hms |].
  exact (route_endpoint_not_found (no_reply KeyError) ms 301 999 Hms).
Defined.

(** X24.  After start-up the two dicts that [GET /api/stations] and
    [GET /api/lines] hand out have the same keys in the same order: every
    line of the catalog has a colour and every colour a line, whatever
    was loaded. *)
Theorem lines_and_colours_agree
  {F : Type} {PF : FloatOps F} {PM : MathOps F}
  (response : api_reply F) (ms : MetroService F) :
  __init__ response = Ok ms ->
  exists stations colours,
    main.get_all_stations ms = Success stations /\
    main.get_all_lines ms = Success colours /\
    map fst colours = map fst stations.
Proof.
  intros Hinit. destruct (init_Ok response ms Hinit) as (Hload & _ & Hcol).
  exists (self_stations ms), (self_line_colors ms).
  split; [reflexivity |]. split; [reflexivity |].
  destruct (loaded_catalog response) as (s & Hs & Hkeys & _).
  rewrite Hload in Hs. injection Hs as <-.
  fold (line_keys (self_stations ms)). rewrite Hkeys, Hcol. reflexivity.
Qed.

Lemma lines_and_colours_agree_witness :
  exists (ms : MetroService R) stations colours,
    __init__ (no_reply KeyError) = Ok ms /\
    main.get_all_stations ms = Success stations /\
    main.get_all_lines ms = Success colours /\
    map fst colours = map fst stations.
Proof.
  destruct (service_starts_without_api_R (no_reply KeyError) eq_refl) as (ms & Hms & _).
  destruct (lines_and_colours_agree (no_reply KeyError) ms Hms) as (st & co & H).
  exists ms, st, co. split; [exact Hms | exact H].
Defined.

(* ================================================================== *)
(** * There and back *)

Section Reverse.




Variable G : Graph R.





Hypothesis Hsym : undirected G.





End Reverse.



(* ================================================================== *)
(** * No station twice *)

Section Simple.
Context {F : Type} {PF : FloatOps F}.
Variable G : Graph F.

Lemma simple_entry_shrink (U U' : list Z) k (en : entry F) :
  (forall x, In x U' -> In x U) -> simple_entry U k en -> simple_entry U' k en.
Proof.
  intros Hsub (Hnd & p & Hp & Hout). split; [exact Hnd |].
  exists p. split; [exact Hp |]. intros x Hx HU. exact (Hout x Hx (Hsub x HU)).
Qed.

Lemma relax_simple d (p : list Z) (U : list Z) nbrs (seen : odict (entry F)) :
  NoDup p -> (forall x, In x p -> ~ In x U) ->
  all_entries (simple_entry U) seen ->
  all_entries (simple_entry U) (relax d p U nbrs seen).
Proof.
  intros Hnd Hout. revert seen. induction nbrs as [| [u e] nbrs IH]; intros seen Hall;
    [assumption |].
  rewrite relax_cons. apply IH.
  destruct (relax1_cases d p U u e seen) as [-> | (-> & HuU & _)]; [assumption |].
  intros k en Hin. apply od_set_In in Hin as [[= -> ->] | Hin]; [| now apply Hall].
  split.
  - simpl. apply NoDup_app; [exact Hnd | repeat constructor; simpl; tauto |].
    intros x Hx [<- | []]. exact (Hout _ Hx HuU).
  - exists p. split; [reflexivity | exact Hout].
Qed.

Lemma loop_simple fuel (U : list Z) (seen : odict (entry F)) :
  all_entries (simple_entry U) seen ->
  all_entries (fun _ en => NoDup (e_path en)) (dijkstra_loop fuel G U seen).
Proof.
  revert U seen. induction fuel as [| fuel IH]; intros U seen Hall.
  - intros k en Hin. exact (proj1 (Hall k en Hin)).
  - simpl. destruct (pop_min U seen) as [[v en] |] eqn:Hp.
    + destruct (pop_min_In _ _ _ _ Hp) as [Hin HvU].
      destruct (Hall v en Hin) as (Hnd & p & Hpath & Hout).
      apply IH. apply relax_simple.
      * exact Hnd.
      * intros x Hx HU. apply In_remove_iff in HU as [HU Hne].
        rewrite Hpath in Hx. apply in_app_iff in Hx as [Hx | [<- | []]];
          [exact (Hout x Hx HU) | congruence].
      * intros k ek Hk. apply (simple_entry_shrink U); [| now apply Hall].
        intros x Hx. now apply In_remove_iff in Hx as [Hx _].
    + intros k en Hin. exact (proj1 (Hall k en Hin)).
Qed.

(** The path that the search returns visits no node twice. *)
Lemma shortest_path_simple s t p : shortest_path G s t = Ok p -> NoDup p.
Proof.
  unfold shortest_path.
  destruct (negb (has_node G s) || negb (has_node G t)); [discriminate |].
  destruct (s =? t).
  - intros [= <-]. repeat constructor. simpl. tauto.
  - destruct (od_get t (dijkstra G s)) as [en |] eqn:Hg; [| discriminate].
    intros [= <-]. apply od_get_In in Hg. revert Hg.
    apply (loop_simple (List.length (_node G)) (od_keys (_node G))
             [(s, {| e_dist := of_int 0; e_path := [s] |})]).
    intros k ek [[= <- <-] | []]. split.
    + repeat constructor. simpl. tauto.
    + exists []. split; [reflexivity | intros x []].
Qed.

End Simple.

(** X27.  A route never visits a station twice: the ['path'] of an
    answer of [find_shortest_path] has no repeated id, so
    ['num_stations'] is at most the number of nodes of the graph. *)
Theorem route_visits_no_station_twice
  {F : Type} {PF : FloatOps F} (G : Graph F) (source_id target_id : Z) (r : route F) :
  find_shortest_path G source_id target_id = Some r ->
  NoDup (path r) /\ num_stations r <= Z.of_nat (List.length (_node G)).
Proof.
  intros Hr.
  destruct (find_shortest_path_Some G _ _ _ Hr) as (td & tt & sts & Hsp & _ & Hsts & Hreq).
  pose proof (shortest_path_simple G _ _ _ Hsp) as Hnd. split; [exact Hnd |].
  rewrite Hreq. cbn [num_stations]. apply inj_le.
  rewrite <- (length_map fst (_node G)). apply NoDup_incl_length; [exact Hnd |].
  apply stations_loop_spec in Hsts as (new & _ & Hids & Hall).
  intros x Hx. rewrite <- Hids in Hx. apply in_map_iff in Hx as (i & <- & Hi).
  rewrite Forall_forall in Hall. specialize (Hall i Hi).
  apply (has_node_In G). destruct (has_node G (i_id i)) eqn:Hn; [reflexivity |].
  rewrite (get_station_by_id_None G _ Hn) in Hall. discriminate.
Qed.

Lemma route_visits_no_station_twice_witness :
  exists r, find_shortest_path triangle 1 3 = Some r /\
    NoDup (path r) /\ num_stations r <= Z.of_nat (List.length (_node triangle)).
Proof.
  eexists. split; [reflexivity |].
  exact (route_visits_no_station_twice triangle 1 3 _ eq_refl).
Defined.

(* ================================================================== *)
(** * The figures of a leg *)

Section LegFigures.
Local Open Scope R_scope.



End LegFigures.


